(** * MVMOO: multi-objective mixed-variable Bayesian optimisation

    A shallow embedding of [MVMOO/multi_mixed_optimiser.py] (class [MVMOO])
    and the properties of its Pareto filter, its model bank, its acquisition
    functions and its next-condition controller. *)

From Stdlib Require Import String Bool Arith NArith Lia QArith Reals Lra PrimFloat FloatOps
  FloatAxioms List Sorted.
Import ListNotations.

Set Implicit Arguments.
Close Scope Q_scope.
Close Scope R_scope.
Open Scope nat_scope.

(** ** Boolean-mask helpers shared by the NumPy fragments below *)

(** [a[mask]]: boolean-mask indexing of a one-axis sequence. *)
Fixpoint compress {A : Type} (mask : list bool) (l : list A) : list A :=
  match mask, l with
  | b :: mask', x :: l' => if b then x :: compress mask' l' else compress mask' l'
  | _, _ => []
  end.

(** [mask[k] = True]; an index past the end is not reached by the callers. *)
Fixpoint set_true (k : nat) (mask : list bool) : list bool :=
  match mask, k with
  | [], _ => []
  | _ :: mask', O => true :: mask'
  | b :: mask', S k' => b :: set_true k' mask'
  end.

(** [np.sum] of a boolean vector. *)
Definition count_true (mask : list bool) : nat := length (filter (fun b => b) mask).

(** ** [is_pareto_efficient], [paretofront] *)

Module Pareto.

Section Generic.

(** The entries of [costs] and their strict comparison [<]. *)
Variable T : Type.
Variable ltb : T -> T -> bool.

(** One row of [np.any(costs < costs[next_point_index], axis=1)]. *)
Definition any_lt (r pivot : list T) : bool :=
  existsb (fun ab => ltb (fst ab) (snd ab)) (combine r pivot).

(** The three variables the [while] loop updates. *)
Record loop_state : Type := LoopState {
  is_efficient : list nat;
  costs : list (list T);
  next_point_index : nat
}.

Definition nondominated_point_mask (cs : list (list T)) (k : nat) : list bool :=
  set_true k (map (fun r => any_lt r (nth k cs [])) cs).

Definition loop_body (st : loop_state) : loop_state :=
  let k := next_point_index st in
  let mask := nondominated_point_mask (costs st) k in
  {| is_efficient := compress mask (is_efficient st);
     costs := compress mask (costs st);
     next_point_index := count_true (firstn k mask) + 1 |}.

(** [while next_point_index < len(costs)], run for at most [fuel] rounds. *)
Fixpoint while_loop (fuel : nat) (st : loop_state) : loop_state :=
  match fuel with
  | O => st
  | S fuel' =>
      if next_point_index st <? length (costs st)
      then while_loop fuel' (loop_body st)
      else st
  end.

Definition initial_state (cs : list (list T)) : loop_state :=
  {| is_efficient := seq 0 (length cs); costs := cs; next_point_index := 0 |}.

(** The loop needs at most one round per row (lemma [while_loop_exits]). *)
Definition final_state (cs : list (list T)) : loop_state :=
  while_loop (length cs) (initial_state cs).

(** [is_efficient_mask = np.zeros(n_points, dtype=bool);
    is_efficient_mask[is_efficient] = True]. *)
Definition index_mask (n : nat) (idx : list nat) : list bool :=
  fold_left (fun m i => set_true i m) idx (repeat false n).

(** The result with [return_mask = False]. *)
Definition efficient_indices (cs : list (list T)) : list nat :=
  is_efficient (final_state cs).

(** The result with [return_mask = True]. *)
Definition efficient_mask (cs : list (list T)) : list bool :=
  index_mask (length cs) (efficient_indices cs).

Definition is_pareto_efficient (cs : list (list T)) (return_mask : bool)
  : list bool + list nat :=
  if return_mask then inl (efficient_mask cs) else inr (efficient_indices cs).

(** [Y[ind,:]] with [ind = is_pareto_efficient(Y, return_mask=False)]. *)
Definition paretofront (Y : list (list T)) : list (list T) :=
  map (fun i => nth i Y []) (efficient_indices Y).

End Generic.

End Pareto.


(** ** Exceptions *)

(** The exceptions the class and its collaborators raise. *)
Inductive exn : Type :=
| NotImplementedError
| ValueError
| IndexError
| TypeError
| AttributeError
| AxisError
| ExternalError (who : string).

(** A call returns a value or raises. *)
Inductive outcome (A : Type) : Type :=
| Ok (a : A)
| Raise (e : exn).
Arguments Ok {A} a.
Arguments Raise {A} e.

Definition outcome_bind {A B : Type} (c : outcome A) (k : A -> outcome B) : outcome B :=
  match c with
  | Ok a => k a
  | Raise e => Raise e
  end.

Notation "x <~ c ;; k" := (outcome_bind c (fun x => k))
  (at level 61, c at next level, right associativity).
Notation "' pat <~ c ;; k" := (outcome_bind c (fun x => match x with pat => k end))
  (at level 61, pat pattern, c at next level, right associativity).

(** [for x in l: acc = body(acc, x)] in the error monad. *)
Fixpoint outcome_fold {A B : Type} (body : B -> A -> outcome B) (l : list A) (acc : B)
  : outcome B :=
  match l with
  | [] => Ok acc
  | x :: l' => acc' <~ body acc x ;; outcome_fold body l' acc'
  end.

(** ** Floating-point numbers

    The operations the class uses on [float64] values; [norm_cdf] and
    [norm_pdf] are [scipy.stats.norm.cdf] and [norm.pdf]. *)
Record Numeric : Type := {
  F :> Type;
  lit : Q -> F;
  f_add : F -> F -> F;
  f_sub : F -> F -> F;
  f_mul : F -> F -> F;
  f_div : F -> F -> F;
  f_neg : F -> F;
  f_sqrt : F -> F;
  f_maximum : F -> F -> F;
  f_minimum : F -> F -> F;
  f_ltb : F -> F -> bool;
  f_nan : F;
  f_isnan : F -> bool;
  norm_cdf : F -> F;
  norm_pdf : F -> F
}.

(** ** A fragment of NumPy *)

Module Np.

Section Arrays.

Variable num : Numeric.

(** An array is its shape and its entries by multi-index. *)
Record ndarray : Type := Array {
  shape : list nat;
  at_ : list nat -> num
}.

Definition size_of (sh : list nat) : nat := fold_right Nat.mul 1 sh.

Fixpoint shape_eqb (s1 s2 : list nat) : bool :=
  match s1, s2 with
  | [], [] => true
  | d1 :: s1', d2 :: s2' => (d1 =? d2) && shape_eqb s1' s2'
  | _, _ => false
  end.

Definition size (a : ndarray) : nat := size_of (shape a).
Definition ndim (a : ndarray) : nat := length (shape a).

(** [np.shape(a)[k]]. *)
Definition shape_at (a : ndarray) (k : nat) : outcome nat :=
  match nth_error (shape a) k with
  | Some d => Ok d
  | None => Raise IndexError
  end.

(** A Python float used where an array is expected. *)
Definition scalar (x : num) : ndarray := {| shape := []; at_ := fun _ => x |}.

(** [np.ones(sh)], [np.zeros(sh)]. *)
Definition ones (sh : list nat) : ndarray :=
  {| shape := sh; at_ := fun _ => lit num 1 |}.
Definition zeros (sh : list nat) : ndarray :=
  {| shape := sh; at_ := fun _ => lit num 0 |}.

(** Elementwise functions: [np.sqrt], [norm.cdf], [-a], [a**2], ... *)
Definition map_array (g : num -> num) (a : ndarray) : ndarray :=
  {| shape := shape a; at_ := fun idx => g (at_ a idx) |}.

(** *** Row-major flat positions *)

Fixpoint ravel (sh idx : list nat) (acc : nat) : nat :=
  match sh, idx with
  | d :: sh', i :: idx' => ravel sh' idx' (acc * d + i)
  | _, _ => acc
  end.

Fixpoint unravel (sh : list nat) (k : nat) : list nat :=
  match sh with
  | [] => []
  | d :: sh' => (k / size_of sh') :: unravel sh' (k mod size_of sh')
  end.

(** The shape [reshape] settles on: at most one dimension is [-1] ([None])
    and is inferred; the sizes must agree. *)
Definition known_size (target : list (option nat)) : nat :=
  fold_right (fun d acc => match d with Some n => n * acc | None => acc end) 1 target.

Definition resolve_shape (n : nat) (target : list (option nat)) : option (list nat) :=
  let unknown := length (filter (fun d => match d with None => true | _ => false end) target) in
  let p := known_size target in
  match unknown with
  | 0 => if n =? p then Some (map (fun d => match d with Some k => k | None => 0 end) target)
         else None
  | 1 => if (p =? 0) || negb (n mod p =? 0) then None
         else Some (map (fun d => match d with Some k => k | None => n / p end) target)
  | _ => None
  end.

(** [a.reshape(target)]: raises unless the sizes agree. *)
Definition reshape (a : ndarray) (target : list (option nat)) : outcome ndarray :=
  match resolve_shape (size a) target with
  | Some sh => Ok {| shape := sh;
                     at_ := fun idx => at_ a (unravel (shape a) (ravel sh idx 0)) |}
  | None => Raise ValueError
  end.

(** *** Broadcasting *)

(** Shapes are matched from the last axis: equal, or one of them 1. *)
Fixpoint broadcast_rev (s1 s2 : list nat) : option (list nat) :=
  match s1, s2 with
  | [], s => Some s
  | s, [] => Some s
  | d1 :: s1', d2 :: s2' =>
      match broadcast_rev s1' s2' with
      | None => None
      | Some s =>
          if d1 =? d2 then Some (d1 :: s)
          else if d1 =? 1 then Some (d2 :: s)
          else if d2 =? 1 then Some (d1 :: s)
          else None
      end
  end.

Definition broadcast_shape (s1 s2 : list nat) : option (list nat) :=
  option_map (@rev nat) (broadcast_rev (rev s1) (rev s2)).

(** The index into an operand of shape [sh] for the result index [idx]. *)
Definition broadcast_index (sh idx : list nat) : list nat :=
  map (fun di => if fst di =? 1 then 0 else snd di)
      (combine sh (skipn (length idx - length sh) idx)).

(** [a op b] with broadcasting: raises when the shapes do not match. *)
Definition binary (op : num -> num -> num) (a b : ndarray) : outcome ndarray :=
  match broadcast_shape (shape a) (shape b) with
  | Some sh => Ok {| shape := sh;
                     at_ := fun idx => op (at_ a (broadcast_index (shape a) idx))
                                          (at_ b (broadcast_index (shape b) idx)) |}
  | None => Raise ValueError
  end.

Definition add := binary (f_add num).
Definition sub := binary (f_sub num).
Definition mul := binary (f_mul num).
Definition div := binary (f_div num).
Definition maximum := binary (f_maximum num).

(** *** Reductions along an axis *)

Definition drop_axis (k : nat) (sh : list nat) : list nat := firstn k sh ++ skipn (S k) sh.
Definition put_axis (k i : nat) (idx : list nat) : list nat := firstn k idx ++ i :: skipn k idx.

(** [np.sum(a, axis=k)], [np.prod(a, axis=k)]: a reduction with an identity. *)
Definition reduce (op : num -> num -> num) (e : num) (a : ndarray) (k : nat)
  : outcome ndarray :=
  if k <? ndim a then
    Ok {| shape := drop_axis k (shape a);
          at_ := fun idx => fold_left (fun acc i => op acc (at_ a (put_axis k i idx)))
                                      (seq 0 (nth k (shape a) 0)) e |}
  else Raise AxisError.

(** [np.min(a, axis=k)], [np.max(a, axis=k)]: no identity, so an empty axis
    raises unless the result is empty too. *)
Definition reduce1 (op : num -> num -> num) (a : ndarray) (k : nat) : outcome ndarray :=
  if k <? ndim a then
    let d := nth k (shape a) 0 in
    if (d =? 0) && negb (size_of (drop_axis k (shape a)) =? 0) then Raise ValueError
    else Ok {| shape := drop_axis k (shape a);
               at_ := fun idx => fold_left (fun acc i => op acc (at_ a (put_axis k i idx)))
                                           (seq 1 (d - 1)) (at_ a (put_axis k 0 idx)) |}
  else Raise AxisError.

Definition sum_axis := reduce (f_add num) (lit num 0).
Definition prod_axis := reduce (f_mul num) (lit num 1).
Definition min_axis := reduce1 (f_minimum num).
Definition max_axis := reduce1 (f_maximum num).

(** [np.mean(a, axis=0)]. *)
Definition mean_axis0 (a : ndarray) : outcome ndarray :=
  s <~ sum_axis a 0 ;;
  Ok (map_array (fun x => f_div num x (lit num (inject_Z (Z.of_nat (nth 0 (shape a) 0))))) s).

(** *** Transposition, joining, indexing *)

(** [a.T]. *)
Definition transpose (a : ndarray) : ndarray :=
  {| shape := rev (shape a); at_ := fun idx => at_ a (rev idx) |}.

(** Position [j] along the joined axis: which array, and where in it. *)
Fixpoint locate (widths : list nat) (j : nat) : nat * nat :=
  match widths with
  | [] => (0, j)
  | w :: ws => if j <? w then (0, j) else let '(a, j') := locate ws (j - w) in (S a, j')
  end.

(** [np.concatenate(l, axis=1)] (and [np.hstack] of two-axis arrays): at least
    one array, two axes or more, equal shapes off axis 1. *)
Definition concatenate_axis1 (l : list ndarray) : outcome ndarray :=
  match l with
  | [] => Raise ValueError
  | a :: _ =>
      if forallb (fun b => 2 <=? ndim b) l then
        if forallb (fun b => shape_eqb (drop_axis 1 (shape b)) (drop_axis 1 (shape a))) l
        then Ok {| shape := firstn 1 (shape a)
                            ++ list_sum (map (fun b => nth 1 (shape b) 0) l)
                            :: skipn 2 (shape a);
                   at_ := fun idx =>
                     let '(which, j) := locate (map (fun b => nth 1 (shape b) 0) l) (nth 1 idx 0) in
                     at_ (nth which l a) (firstn 1 idx ++ j :: skipn 2 idx) |}
        else Raise ValueError
      else Raise AxisError
  end.

(** [a.reshape(-1)]: always possible. *)
Definition flatten (a : ndarray) : ndarray :=
  {| shape := [size a]; at_ := fun idx => at_ a (unravel (shape a) (nth 0 idx 0)) |}.

(** [np.concatenate((a, b), axis=None)]: both flattened, then joined. *)
Definition concatenate_flat (a b : ndarray) : ndarray :=
  {| shape := [size a + size b];
     at_ := fun idx => let k := nth 0 idx 0 in
                       if k <? size a then at_ a (unravel (shape a) k)
                       else at_ b (unravel (shape b) (k - size a)) |}.

(** [np.vstack((a, b))] of two one-axis arrays of the same length. *)
Definition vstack2 (a b : ndarray) : outcome ndarray :=
  if shape_eqb (shape a) (shape b) && (ndim a =? 1) then
    Ok {| shape := 2 :: shape a;
          at_ := fun idx => if nth 0 idx 0 =? 0 then at_ a (tl idx) else at_ b (tl idx) |}
  else Raise ValueError.

(** [a[i]] and [a[i,:]]: the [i]-th entry along the first axis. *)
Definition item (a : ndarray) (i : nat) : outcome ndarray :=
  match shape a with
  | [] => Raise IndexError
  | d :: sh => if i <? d then Ok {| shape := sh; at_ := fun idx => at_ a (i :: idx) |}
               else Raise IndexError
  end.

(** [a[:,j]] of an array with two axes. *)
Definition column (a : ndarray) (j : nat) : outcome ndarray :=
  match shape a with
  | [n; d] => if j <? d then Ok {| shape := [n]; at_ := fun idx => at_ a [nth 0 idx 0; j] |}
              else Raise IndexError
  | _ => Raise IndexError
  end.

(** [a[..., lo:hi, ...]] on axis [k]; the bounds are given the length of the
    axis and are clipped to it. *)
Definition slice_axis (a : ndarray) (k : nat) (lo hi : nat -> nat) : outcome ndarray :=
  if k <? ndim a then
    let d := nth k (shape a) 0 in
    let lo' := Nat.min (lo d) d in
    let hi' := Nat.max lo' (Nat.min (hi d) d) in
    Ok {| shape := firstn k (shape a) ++ (hi' - lo') :: skipn (S k) (shape a);
          at_ := fun idx => at_ a (firstn k idx ++ (nth k idx 0 + lo') :: skipn (S k) idx) |}
  else Raise IndexError.

(** [a[idx,:]] for an integer array [idx] given as a list. *)
Definition take_rows (a : ndarray) (rows : list nat) : outcome ndarray :=
  match shape a with
  | [] => Raise IndexError
  | d :: sh =>
      if forallb (fun i => i <? d) rows then
        Ok {| shape := length rows :: sh;
              at_ := fun idx => at_ a (nth (nth 0 idx 0) rows 0 :: tl idx) |}
      else Raise IndexError
  end.

(** The first entry in row-major order: the value of a one-entry array. *)
Definition first (a : ndarray) : num := at_ a (unravel (shape a) 0).

(** [a[i,0]]: the [i]-th entry of a column. *)
Definition entry (a : ndarray) (i : nat) : num := at_ a [i; 0].

(** The entries in row-major order. *)
Definition to_list (a : ndarray) : list num :=
  map (fun k => at_ a (unravel (shape a) k)) (seq 0 (size a)).

(** A two-axis array as its list of rows, and back. *)
Definition rows (a : ndarray) : list (list num) :=
  map (fun i => map (fun j => at_ a [i; j]) (seq 0 (nth 1 (shape a) 0)))
      (seq 0 (nth 0 (shape a) 0)).

Definition of_rows (ncols : nat) (l : list (list num)) : ndarray :=
  {| shape := [length l; ncols];
     at_ := fun idx => nth (nth 1 idx 0) (nth (nth 0 idx 0) l []) (f_nan num) |}.

Definition of_list (l : list num) : ndarray :=
  {| shape := [length l]; at_ := fun idx => nth (nth 0 idx 0) l (f_nan num) |}.

(** [np.argmax(a)] over the flattened array: the first position of a largest
    entry, or of the first NaN when there is one (the scan takes an entry [y]
    when [not (y <= best)] and stops at a NaN); an empty array raises. *)
Definition argmax_list (l : list num) : outcome nat :=
  match l with
  | [] => Raise ValueError
  | x :: l' =>
      Ok (fst (fst (fold_left (fun '(best, bx, k) y =>
                                 if f_isnan num bx then (best, bx, S k)
                                 else if f_isnan num y || f_ltb num bx y then (k, y, S k)
                                 else (best, bx, S k))
                              l' (0, x, 1))))
  end.

Definition argmax (a : ndarray) : outcome nat := argmax_list (to_list a).

(** [np.amax(a)]: the entry there, so the first NaN when there is one. *)
Definition amax (a : ndarray) : outcome num :=
  k <~ argmax a ;; Ok (nth k (to_list a) (f_nan num)).

(** [np.argmax(a, axis=0)], [np.max(a, axis=0)] of a two-axis array. *)
Definition argmax_axis0 (a : ndarray) : outcome (list nat) :=
  match shape a with
  | [n; d] =>
      outcome_fold (fun acc j => c <~ column a j ;; k <~ argmax c ;; Ok (acc ++ [k]))
                   (seq 0 d) []
  | _ => Raise AxisError
  end.

End Arrays.

End Np.

(** ** The optimiser object and its collaborators *)

Module Optimiser.

(** The body of a [for] loop goes on to the next round or returns. *)
Inductive flow (A R : Type) : Type :=
| Continue (acc : A)
| Return (v : R).
Arguments Continue {A R} acc.
Arguments Return {A R} v.

Section Class.

Variable num : Numeric.

Abbreviation ndarray := (Np.ndarray num).

(** A fitted surrogate model: the noisy and the noise-free posterior, each
    returning (mean, variance). *)
Record Model : Type := {
  predict_y : ndarray -> outcome (ndarray * ndarray);
  predict_f : ndarray -> outcome (ndarray * ndarray)
}.

(** The attributes of an [MVMOO] instance. Those of the second group are
    assigned by the methods below and are [None] until then; [models] and
    [constrainedmodels] hold what [generatemodels] returned, a list or Python's
    [None]. *)
Record MVMOO : Type := {
  k_type : string;
  num_qual : nat;
  num_quant : nat;
  bounds : ndarray;
  num_obj : nat;
  scale : string;
  nsamples : option nat;
  Yscaled : option ndarray;
  Xscaled : option ndarray;
  model : option Model;
  models : option (option (list Model));
  constrainedmodels : option (option (list Model));
  currentfront : option ndarray;
  contextual : option ndarray
}.

Definition set_k_type (v : string) (me : MVMOO) : MVMOO :=
  {| k_type := v; num_qual := num_qual me; num_quant := num_quant me;
     bounds := bounds me; num_obj := num_obj me; scale := scale me;
     nsamples := nsamples me; Yscaled := Yscaled me; Xscaled := Xscaled me;
     model := model me; models := models me;
     constrainedmodels := constrainedmodels me;
     currentfront := currentfront me; contextual := contextual me |}.

Definition set_nsamples (v : nat) (me : MVMOO) : MVMOO :=
  {| k_type := k_type me; num_qual := num_qual me; num_quant := num_quant me;
     bounds := bounds me; num_obj := num_obj me; scale := scale me;
     nsamples := Some v; Yscaled := Yscaled me; Xscaled := Xscaled me;
     model := model me; models := models me;
     constrainedmodels := constrainedmodels me;
     currentfront := currentfront me; contextual := contextual me |}.

Definition set_Yscaled (v : ndarray) (me : MVMOO) : MVMOO :=
  {| k_type := k_type me; num_qual := num_qual me; num_quant := num_quant me;
     bounds := bounds me; num_obj := num_obj me; scale := scale me;
     nsamples := nsamples me; Yscaled := Some v; Xscaled := Xscaled me;
     model := model me; models := models me;
     constrainedmodels := constrainedmodels me;
     currentfront := currentfront me; contextual := contextual me |}.

Definition set_Xscaled (v : ndarray) (me : MVMOO) : MVMOO :=
  {| k_type := k_type me; num_qual := num_qual me; num_quant := num_quant me;
     bounds := bounds me; num_obj := num_obj me; scale := scale me;
     nsamples := nsamples me; Yscaled := Yscaled me; Xscaled := Some v;
     model := model me; models := models me;
     constrainedmodels := constrainedmodels me;
     currentfront := currentfront me; contextual := contextual me |}.

Definition set_model (v : Model) (me : MVMOO) : MVMOO :=
  {| k_type := k_type me; num_qual := num_qual me; num_quant := num_quant me;
     bounds := bounds me; num_obj := num_obj me; scale := scale me;
     nsamples := nsamples me; Yscaled := Yscaled me; Xscaled := Xscaled me;
     model := Some v; models := models me;
     constrainedmodels := constrainedmodels me;
     currentfront := currentfront me; contextual := contextual me |}.

Definition set_models (v : option (list Model)) (me : MVMOO) : MVMOO :=
  {| k_type := k_type me; num_qual := num_qual me; num_quant := num_quant me;
     bounds := bounds me; num_obj := num_obj me; scale := scale me;
     nsamples := nsamples me; Yscaled := Yscaled me; Xscaled := Xscaled me;
     model := model me; models := Some v;
     constrainedmodels := constrainedmodels me;
     currentfront := currentfront me; contextual := contextual me |}.

Definition set_constrainedmodels (v : option (list Model)) (me : MVMOO) : MVMOO :=
  {| k_type := k_type me; num_qual := num_qual me; num_quant := num_quant me;
     bounds := bounds me; num_obj := num_obj me; scale := scale me;
     nsamples := nsamples me; Yscaled := Yscaled me; Xscaled := Xscaled me;
     model := model me; models := models me;
     constrainedmodels := Some v;
     currentfront := currentfront me; contextual := contextual me |}.

Definition set_currentfront (v : ndarray) (me : MVMOO) : MVMOO :=
  {| k_type := k_type me; num_qual := num_qual me; num_quant := num_quant me;
     bounds := bounds me; num_obj := num_obj me; scale := scale me;
     nsamples := nsamples me; Yscaled := Yscaled me; Xscaled := Xscaled me;
     model := model me; models := models me;
     constrainedmodels := constrainedmodels me;
     currentfront := Some v; contextual := contextual me |}.

Definition set_contextual (v : ndarray) (me : MVMOO) : MVMOO :=
  {| k_type := k_type me; num_qual := num_qual me; num_quant := num_quant me;
     bounds := bounds me; num_obj := num_obj me; scale := scale me;
     nsamples := nsamples me; Yscaled := Yscaled me; Xscaled := Xscaled me;
     model := model me; models := models me;
     constrainedmodels := constrainedmodels me;
     currentfront := currentfront me; contextual := Some v |}.

(** The methods inherited from [MVO] ([mixed_optimiser.py]): they read the
    object and return or raise; [fitmodel] returns the model it stores in
    [self.model], its last argument the keyword [variance] when given. *)
Record MVO : Type := {
  fitmodel : MVMOO -> ndarray -> ndarray -> option num -> outcome Model;
  scaley : MVMOO -> ndarray -> outcome ndarray;
  scaleX : MVMOO -> ndarray -> string -> outcome ndarray;
  sample_design : MVMOO -> N -> string -> outcome ndarray
}.

(** What [scipy.optimize] returns: [result.x], [result.fun]. *)
Record OptimizeResult : Type := {
  res_x : ndarray;
  res_fun : num
}.

(** The library routines used as black boxes: the objective, the starting
    point where there is one, and the bounds. *)
Record Library : Type := {
  minimize_SLSQP : (ndarray -> outcome ndarray) -> ndarray -> list (list num)
                   -> outcome OptimizeResult;
  shgo : (ndarray -> outcome ndarray) -> list (list num) -> outcome OptimizeResult;
  differential_evolution : (ndarray -> outcome ndarray) -> list (list num)
                           -> outcome OptimizeResult;
  dual_annealing : (ndarray -> outcome ndarray) -> list (list num)
                   -> outcome OptimizeResult;
  allclose : ndarray -> ndarray -> bool;
  unique_rows_round6 : ndarray -> ndarray
}.

Variable mvo : MVO.
Variable lib : Library.

(** What a method hands back: [None], a float, an array or a tuple. *)
#[warnings="-register-all"]
Inductive pyval : Type :=
| PyNone
| PyFloat (x : num)
| PyArray (a : ndarray)
| PyTuple (l : list pyval).

(** What [print] wrote. *)
Inductive printed : Type :=
| Text (s : string)
| ShapeOf (sh : list nat)
| Indices (l : list nat).

(** ** Methods that change the object: state and exceptions *)

Record world : Type := {
  self : MVMOO;
  stdout : list printed
}.

Definition M (A : Type) : Type := world -> outcome A * world.

Definition ret {A : Type} (a : A) : M A := fun w => (Ok a, w).

Definition bind {A B : Type} (c : M A) (k : A -> M B) : M B :=
  fun w => match c w with
           | (Ok a, w') => k a w'
           | (Raise e, w') => (Raise e, w')
           end.

Notation "x <- c ;; k" := (bind c (fun x => k))
  (at level 61, c at next level, right associativity).
Notation "c ;;; k" := (bind c (fun _ => k))
  (at level 61, right associativity).

Definition raise {A : Type} (e : exn) : M A := fun w => (Raise e, w).

(** A call that only reads the object. *)
Definition call {A : Type} (f : MVMOO -> outcome A) : M A := fun w => (f (self w), w).

Definition lift {A : Type} (c : outcome A) : M A := fun w => (c, w).

(** The world after [self.<attribute> = v], and after a [print]. *)
Definition assigned (set : MVMOO -> MVMOO) (w : world) : world :=
  {| self := set (self w); stdout := stdout w |}.

Definition written (p : printed) (w : world) : world :=
  {| self := self w; stdout := stdout w ++ [p] |}.

Definition assign (set : MVMOO -> MVMOO) : M unit := fun w => (Ok tt, assigned set w).

Definition print (p : printed) : M unit := fun w => (Ok tt, written p w).

(** [try: body / except: handler], a bare [except] catching everything. *)
Definition try_except {A : Type} (body handler : M A) : M A :=
  fun w => match body w with
           | (Ok a, w') => (Ok a, w')
           | (Raise _, w') => handler w'
           end.

Fixpoint for_loop {X A R : Type} (l : list X) (acc : A) (body : A -> X -> M (flow A R))
  : M (flow A R) :=
  match l with
  | [] => ret (Continue acc)
  | x :: l' =>
      r <- body acc x ;;
      match r with
      | Continue acc' => for_loop l' acc' body
      | Return v => ret (Return v)
      end
  end.

(** Reading an attribute that may not have been assigned. *)
Definition attribute {A : Type} (field : MVMOO -> option A) (me : MVMOO) : outcome A :=
  match field me with
  | Some v => Ok v
  | None => Raise AttributeError
  end.

(** Using what [generatemodels] returned as a list. *)
Definition model_list (field : MVMOO -> option (option (list Model))) (me : MVMOO)
  : outcome (list Model) :=
  v <~ attribute field me ;;
  match v with
  | Some l => Ok l
  | None => Raise TypeError
  end.

(** [self.models[i]]. *)
Definition model_at (field : MVMOO -> option (option (list Model))) (me : MVMOO) (i : nat)
  : outcome Model :=
  l <~ model_list field me ;;
  match nth_error l i with
  | Some m => Ok m
  | None => Raise IndexError
  end.

(** ** [generatemodels] *)

(** [self.fitmodel(X, Ys[:,i].reshape((-1,1)), ...); models.append(self.model)]. *)
Definition fit_column (X Ys : ndarray) (variance : option num) (i : nat) : M Model :=
  y <- lift (c <~ Np.column Ys i ;; Np.reshape c [None; Some 1]) ;;
  m <- call (fun me => fitmodel mvo me X y variance) ;;
  assign (set_model m) ;;;
  ret m.

Definition generatemodels (X Y : ndarray) (scale_flag : bool) (variance : num)
  : M (option (list Model)) :=
  match Np.shape Y with
  | [n; nobj] =>
      assign (set_nsamples n) ;;;
      if scale_flag then
        Ys <- call (fun me => scaley mvo me Y) ;;
        assign (set_Yscaled Ys) ;;;
        Xs <- call (fun me => scaleX mvo me X (scale me)) ;;
        assign (set_Xscaled Xs) ;;;
        r <- for_loop (seq 0 nobj) []
               (fun models i =>
                  m <- fit_column Xs Ys (Some variance) i ;;
                  ret (Continue (R := list Model) (models ++ [m]))) ;;
        match r with
        | Continue models => ret (Some models)
        | Return models => ret (Some models)
        end
      else
        r <- for_loop (seq 0 nobj) []
               (fun models i =>
                  m <- fit_column X Y None i ;;
                  ret (Return (A := list Model) (models ++ [m]))) ;;
        match r with
        | Continue _ => ret None
        | Return models => ret (Some models)
        end
  | _ => raise ValueError
  end.

(** ** [paretofront] on arrays *)

(** On two axes, the selected rows. On other arrays: without an axis
    [costs.shape[0]] raises [IndexError]; on one axis [np.any(..., axis=1)]
    raises [AxisError], unless the array is empty, when the loop is skipped
    and [Y[ind,:]] raises [IndexError]; on three axes or more the mask has two
    axes and [is_efficient[mask]] raises [IndexError], unless there is no row,
    when the loop is skipped and [Y[ind,:]] is the empty array [Y] again. *)
Definition paretofront (Y : ndarray) : outcome ndarray :=
  match Np.shape Y with
  | [] => Raise IndexError
  | [n] => if n =? 0 then Raise IndexError else Raise AxisError
  | [_; m] => Ok (Np.of_rows num m (Pareto.paretofront (f_ltb num) (Np.rows Y)))
  | n :: _ => if n =? 0 then Ok Y else Raise IndexError
  end.

(** ** The acquisition functions *)

(** [for iobj in range(n): u, var = bank[iobj].predict(X); ulist.append(u);
    varlist.append(var)]. *)
Definition predict_all (predict : Model -> ndarray -> outcome (ndarray * ndarray))
    (field : MVMOO -> option (option (list Model))) (me : MVMOO) (X : ndarray) (n : nat)
  : outcome (list ndarray * list ndarray) :=
  outcome_fold
    (fun acc iobj =>
       mdl <~ model_at field me iobj ;;
       uv <~ predict mdl X ;;
       Ok (fst acc ++ [fst uv], snd acc ++ [snd uv]))
    (seq 0 n) ([], []).

(** [np.sqrt(np.maximum(0, var))]. *)
Definition std_of (var : ndarray) : ndarray :=
  Np.map_array (f_sqrt num) (Np.map_array (f_maximum num (lit num 0)) var).

(** [r = 1.1 * np.ones((1, nobj))]. *)
Definition reference (nobj : nat) : ndarray :=
  Np.map_array (f_mul num (lit num (11 # 10))) (Np.ones num [1; nobj]).

(** [np.reshape(a.T, (1,nobj,nx)) * np.ones((nfx,1,1))]. *)
Definition per_candidate (a : ndarray) (nfx nobj nx : nat) : outcome ndarray :=
  t <~ Np.reshape (Np.transpose a) [Some 1; Some nobj; Some nx] ;;
  Np.mul t (Np.ones num [nfx; 1; 1]).

(** [a.reshape((nfx,nobj,1)) * np.ones((1,1,nx))]. *)
Definition per_front_point (a : ndarray) (nfx nobj nx : nat) : outcome ndarray :=
  t <~ Np.reshape a [Some nfx; Some nobj; Some 1] ;;
  Np.mul t (Np.ones num [1; 1; nx]).

(** [np.multiply(d, norm.cdf(Z)) + np.multiply(s, norm.pdf(Z))]. *)
Definition expected_improvement (d s Z : ndarray) : outcome ndarray :=
  a <~ Np.mul d (Np.map_array (norm_cdf num) Z) ;;
  b <~ Np.mul s (Np.map_array (norm_pdf num) Z) ;;
  Np.add a b.

(** [np.min(np.sqrt(np.sum(EI_matrix**2,axis=1)),axis=0).reshape(-1,1)]. *)
Definition euclidean_score (EI_matrix : ndarray) : outcome ndarray :=
  s <~ Np.sum_axis (Np.map_array (fun x => f_mul num x x) EI_matrix) 1 ;;
  mn <~ Np.min_axis (Np.map_array (f_sqrt num) s) 0 ;;
  Np.reshape mn [None; Some 1].

(** [np.min(np.prod(r.reshape(1,2,1) - f_matrix + EI_matrix, axis=1)
           - np.prod(r - f, axis=1).reshape((-1,1)),axis=0).reshape((-1,1))]. *)
Definition hypervolume_score (r f f_matrix EI_matrix : ndarray) : outcome ndarray :=
  r3 <~ Np.reshape r [Some 1; Some 2; Some 1] ;;
  a <~ Np.sub r3 f_matrix ;;
  b <~ Np.add a EI_matrix ;;
  p <~ Np.prod_axis b 1 ;;
  c <~ Np.sub r f ;;
  q <~ Np.prod_axis c 1 ;;
  q' <~ Np.reshape q [None; Some 1] ;;
  d <~ Np.sub p q' ;;
  mn <~ Np.min_axis d 0 ;;
  Np.reshape mn [None; Some 1].

(** [np.min(np.max(EI_matrix,axis=1),axis=0).reshape(-1,1)]. *)
Definition maxmin_score (EI_matrix : ndarray) : outcome ndarray :=
  mx <~ Np.max_axis EI_matrix 1 ;;
  mn <~ Np.min_axis mx 0 ;;
  Np.reshape mn [None; Some 1].

Definition EIM (me : MVMOO) (X : ndarray) (mode : string) : outcome ndarray :=
  f <~ attribute currentfront me ;;
  nfx <~ Np.shape_at f 0 ;;
  nobj <~ Np.shape_at f 1 ;;
  nx <~ Np.shape_at X 0 ;;
  let r := reference nobj in
  X <~ scaleX mvo me X "bounds" ;;
  uv <~ predict_all predict_y models me X nobj ;;
  u <~ Np.concatenate_axis1 (fst uv) ;;
  var <~ Np.concatenate_axis1 (snd uv) ;;
  let std := std_of var in
  u_matrix <~ per_candidate u nfx nobj nx ;;
  s_matrix <~ per_candidate std nfx nobj nx ;;
  f_matrix <~ per_front_point f nfx nobj nx ;;
  Z_matrix <~ (d <~ Np.sub f_matrix u_matrix ;; Np.div d s_matrix) ;;
  EI_matrix <~ (d <~ Np.sub f_matrix u_matrix ;; expected_improvement d s_matrix Z_matrix) ;;
  if String.eqb mode "euclidean" then euclidean_score EI_matrix
  else if String.eqb mode "hypervolume" then hypervolume_score r f f_matrix EI_matrix
  else if String.eqb mode "maxmin" then maxmin_score EI_matrix
  else if String.eqb mode "combine" then
    y1 <~ euclidean_score EI_matrix ;;
    y2 <~ hypervolume_score r f f_matrix EI_matrix ;;
    Np.add y1 y2
  else
    y1 <~ euclidean_score EI_matrix ;;
    y2 <~ hypervolume_score r f f_matrix EI_matrix ;;
    Np.concatenate_axis1 [y1; y2].

(** [np.min(a)]: over all entries; an empty array raises. *)
Definition min_all (a : ndarray) : outcome num :=
  match Np.to_list a with
  | [] => Raise ValueError
  | x :: l => Ok (fold_left (f_minimum num) l x)
  end.

(** [y[ix] = v]. *)
Definition set_item (y : ndarray) (ix : nat) (v : num) : ndarray :=
  {| Np.shape := Np.shape y;
     Np.at_ := fun idx => if nth 0 idx 0 =? ix then v else Np.at_ y idx |}.

(** One round of [for ix in range(nx)] in [CEIM_Hypervolume]. *)
Definition hypervolume_at (r f u std : ndarray) (ix : nat) : outcome num :=
  u_ix <~ Np.item u ix ;;
  std_ix <~ Np.item std ix ;;
  Z <~ (d <~ Np.sub f u_ix ;; Np.div d std_ix) ;;
  EIM_ix <~ (d <~ Np.sub f u_ix ;; expected_improvement d std_ix Z) ;;
  p <~ (a <~ Np.sub r f ;; b <~ Np.add a EIM_ix ;; Np.prod_axis b 1) ;;
  q <~ (c <~ Np.sub r f ;; Np.prod_axis c 1) ;;
  d <~ Np.sub p q ;;
  min_all d.

(** [np.prod(norm.cdf((0 - ucon) / stdcon), axis=1).reshape(-1,1)]. *)
Definition probability_of_feasibility (ucon stdcon : ndarray) : outcome ndarray :=
  z <~ Np.div (Np.map_array (f_sub num (lit num 0)) ucon) stdcon ;;
  p <~ Np.prod_axis (Np.map_array (norm_cdf num) z) 1 ;;
  Np.reshape p [None; Some 1].

(** Lines 151 to 175 of [CEIM_Hypervolume]: the hypervolume improvement [y]
    of every candidate. *)
Definition hypervolume_improvement (me : MVMOO) (X : ndarray) : outcome ndarray :=
  f <~ attribute currentfront me ;;
  nobj <~ Np.shape_at f 1 ;;
  nx <~ Np.shape_at X 0 ;;
  let r := reference nobj in
  let y := Np.zeros num [nx; 1] in
  uv <~ predict_all predict_y models me X nobj ;;
  u <~ Np.concatenate_axis1 (fst uv) ;;
  var <~ Np.concatenate_axis1 (snd uv) ;;
  let std := std_of var in
  outcome_fold (fun y ix => v <~ hypervolume_at r f u std ix ;; Ok (set_item y ix v))
    (seq 0 nx) y.

(** Lines 177 to 192: the probability of feasibility [PoF] of every candidate. *)
Definition feasibility (me : MVMOO) (X : ndarray) : outcome ndarray :=
  cm <~ model_list constrainedmodels me ;;
  let ncon := length cm in
  uvcon <~ predict_all predict_y constrainedmodels me X ncon ;;
  ucon <~ Np.concatenate_axis1 (fst uvcon) ;;
  varcon <~ Np.concatenate_axis1 (snd uvcon) ;;
  let stdcon := std_of varcon in
  probability_of_feasibility ucon stdcon.

Definition CEIM_Hypervolume (me : MVMOO) (X : ndarray) : outcome ndarray :=
  y <~ hypervolume_improvement me X ;;
  PoF <~ feasibility me X ;;
  Np.mul y PoF.

Definition AEIM_Hypervolume (me : MVMOO) (X : ndarray) : outcome ndarray :=
  f <~ attribute currentfront me ;;
  c <~ attribute contextual me ;;
  nfx <~ Np.shape_at f 0 ;;
  nobj <~ Np.shape_at f 1 ;;
  nx <~ Np.shape_at X 0 ;;
  let r := reference nobj in
  uv <~ predict_all predict_y models me X nobj ;;
  u <~ Np.concatenate_axis1 (fst uv) ;;
  var <~ Np.concatenate_axis1 (snd uv) ;;
  let std := std_of var in
  u_matrix <~ per_candidate u nfx nobj nx ;;
  s_matrix <~ per_candidate std nfx nobj nx ;;
  f_matrix <~ per_front_point f nfx nobj nx ;;
  c_matrix <~ per_front_point c nfx nobj nx ;;
  Z_matrix <~ (d <~ Np.sub f_matrix u_matrix ;; e <~ Np.sub d c_matrix ;; Np.div e s_matrix) ;;
  EI_matrix <~ (d <~ Np.sub f_matrix u_matrix ;; expected_improvement d s_matrix Z_matrix) ;;
  hypervolume_score r f f_matrix EI_matrix.

Definition AEIM_Euclidean (me : MVMOO) (X : ndarray) : outcome ndarray :=
  f <~ attribute currentfront me ;;
  c <~ attribute contextual me ;;
  nfx <~ Np.shape_at f 0 ;;
  nobj <~ Np.shape_at f 1 ;;
  nx <~ Np.shape_at X 0 ;;
  X <~ scaleX mvo me X "bounds" ;;
  uv <~ predict_all predict_f models me X nobj ;;
  u <~ Np.concatenate_axis1 (fst uv) ;;
  var <~ Np.concatenate_axis1 (snd uv) ;;
  let std := std_of var in
  u_matrix <~ per_candidate u nfx nobj nx ;;
  s_matrix <~ per_candidate std nfx nobj nx ;;
  f_matrix <~ per_front_point f nfx nobj nx ;;
  c_matrix <~ per_front_point c nfx nobj nx ;;
  Z_matrix <~ (d <~ Np.sub f_matrix u_matrix ;; e <~ Np.sub d c_matrix ;; Np.div e s_matrix) ;;
  EI_matrix <~ (d <~ Np.sub f_matrix u_matrix ;; expected_improvement d s_matrix Z_matrix) ;;
  euclidean_score EI_matrix.

(** [-a]. *)
Definition negate (a : ndarray) : ndarray := Np.map_array (f_neg num) a.

(** [np.concatenate((Xcont.reshape((1,-1)), Xqual.reshape((1,-1))), axis=1)]. *)
Definition join_point (Xcont Xqual : ndarray) : outcome ndarray :=
  a <~ Np.reshape Xcont [Some 1; None] ;;
  b <~ Np.reshape Xqual [Some 1; None] ;;
  Np.concatenate_axis1 [a; b].

(** [constraints] is [False] ([None] here) or the matrix of constraint values. *)
Definition EIMoptimiserWrapper (me : MVMOO) (Xcont Xqual : ndarray)
    (constraints : option ndarray) (mode : string) : outcome ndarray :=
  X <~ join_point Xcont Xqual ;;
  match constraints with
  | Some _ => v <~ CEIM_Hypervolume me X ;; Ok (negate v)
  | None => v <~ EIM me X mode ;; Ok (negate (Np.flatten v))
  end.

Definition AEIMoptimiserWrapper (me : MVMOO) (Xcont Xqual : ndarray) : outcome ndarray :=
  X <~ join_point Xcont Xqual ;;
  v <~ AEIM_Euclidean me X ;;
  Ok (negate (Np.flatten v)).

(** ** The mixed optimisers *)

(** [-n] as a slice bound on an axis of length [d]: [-0] is [0]. *)
Definition from_end (n d : nat) : nat := if n =? 0 then 0 else d - n.

(** [list(self.bounds[:,:self.num_quant].T)] as tuples. *)
Definition continuous_bounds (me : MVMOO) : outcome (list (list num)) :=
  b <~ Np.slice_axis (bounds me) 1 (fun _ => 0) (fun _ => num_quant me) ;;
  Ok (Np.rows (Np.transpose b)).

(** [list(self.bounds.T)] as tuples. *)
Definition all_bounds (me : MVMOO) : list (list num) :=
  Np.rows (Np.transpose (bounds me)).

(** [self.EIM(Xsamples, mode=mode)] or [self.CEIM_Hypervolume(Xsamples)]. *)
Definition acquisition (constraints : option ndarray) (mode : string) (Xsamples : ndarray)
  : M ndarray :=
  match constraints with
  | None => call (fun me => EIM me Xsamples mode)
  | Some _ => call (fun me => CEIM_Hypervolume me Xsamples)
  end.

(** [fmax = np.amax(fvals); indymax = np.argmax(fvals); xmax = Xsamples[indymax,:]]. *)
Definition best_sample (fvals Xsamples : ndarray) : outcome (num * ndarray) :=
  fmax <~ Np.amax fvals ;;
  indymax <~ Np.argmax fvals ;;
  xmax <~ Np.item Xsamples indymax ;;
  Ok (fmax, xmax).

(** One round of [for i in range(2)] in the 'all' mode. *)
Definition refine_criterion (me : MVMOO) (constraints : option ndarray)
    (xmax qual : ndarray) (bndlist : list (list num)) (i : nat) (mode_i : string)
  : outcome OptimizeResult :=
  x_i <~ Np.item xmax i ;;
  x0 <~ Np.slice_axis x_i 0 (fun _ => 0) (from_end (num_qual me)) ;;
  q_i <~ Np.item qual i ;;
  minimize_SLSQP lib (fun Xcont => EIMoptimiserWrapper me Xcont q_i constraints mode_i)
                 (Np.flatten x0) bndlist.

(** [values] is [None] when [values_none] holds. *)
Definition EIMmixedoptimiser (constraints : option ndarray) (algorithm : string)
    (values_none : bool) (mode : string) : M pyval :=
  if String.eqb algorithm "Random" then
    Xsamples <- call (fun me => sample_design mvo me 10000%N "halton") ;;
    fvals <- acquisition constraints mode Xsamples ;;
    best <- lift (best_sample fvals Xsamples) ;;
    if values_none then ret (PyTuple [PyFloat (fst best); PyArray (snd best)])
    else ret (PyTuple [PyFloat (fst best); PyArray (snd best); PyArray fvals; PyArray Xsamples])
  else if String.eqb algorithm "Random Local" then
    Xsamples <- call (fun me => sample_design mvo me 10000%N "halton") ;;
    fvals <- acquisition constraints mode Xsamples ;;
    if String.eqb mode "all" then
      fmax <- lift (Np.max_axis fvals 0) ;;
      print (ShapeOf (Np.shape fvals)) ;;;
      print (ShapeOf (Np.shape fmax)) ;;;
      indmax <- lift (Np.argmax_axis0 fvals) ;;
      print (Indices indmax) ;;;
      xmax <- lift (Np.take_rows Xsamples indmax) ;;
      qual <- call (fun me =>
                      q <~ Np.slice_axis xmax 1 (from_end (num_qual me)) (fun d => d) ;;
                      Ok (Np.flatten q)) ;;
      bndlist <- call continuous_bounds ;;
      r0 <- call (fun me => refine_criterion me constraints xmax qual bndlist 0 "euclidean") ;;
      r1 <- call (fun me => refine_criterion me constraints xmax qual bndlist 1 "hypervolume") ;;
      q0 <- lift (Np.item qual 0) ;;
      q1 <- lift (Np.item qual 1) ;;
      xmax <- lift (Np.vstack2 (Np.concatenate_flat (res_x r0) q0)
                               (Np.concatenate_flat (res_x r1) q1)) ;;
      ret (PyTuple [PyArray (Np.of_list num [res_fun r0; res_fun r1]); PyArray xmax])
    else
      best <- lift (best_sample fvals Xsamples) ;;
      let xmax := snd best in
      qual <- call (fun me => Np.slice_axis xmax 0 (fun _ => num_quant me) (fun d => d)) ;;
      bndlist <- call continuous_bounds ;;
      result <- call (fun me =>
                        x0 <~ Np.slice_axis xmax 0 (fun _ => 0) (fun _ => num_quant me) ;;
                        minimize_SLSQP lib
                          (fun Xcont => EIMoptimiserWrapper me Xcont qual constraints mode)
                          (Np.flatten x0) bndlist) ;;
      if values_none then
        ret (PyTuple [PyFloat (res_fun result);
                      PyArray (Np.concatenate_flat (res_x result) qual)])
      else ret (PyTuple [PyFloat (fst best); PyArray xmax; PyArray fvals; PyArray Xsamples])
  else raise NotImplementedError.

(** [ind = resFstore.index(min(resFstore))]: the first position of a smallest
    value; an empty list raises. *)
Definition index_of_min (l : list num) : outcome nat :=
  match l with
  | [] => Raise ValueError
  | x :: l' =>
      Ok (fst (fst (fold_left (fun '(best, bx, k) y =>
                                 if f_ltb num y bx then (k, y, S k) else (best, bx, S k))
                              l' (0, x, 1))))
  end.

(** The branch of 'SHGO' and 'DE' with qualitative variables: one global
    search per sampled assignment, then the best of them. *)
Definition search_per_assignment
    (solver : (ndarray -> outcome ndarray) -> list (list num) -> outcome OptimizeResult)
  : M pyval :=
  sample <- call (fun me => sample_design mvo me 1%N "random") ;;
  contbndlist <- call continuous_bounds ;;
  qual <- call (fun me => Np.slice_axis sample 1 (from_end (num_qual me)) (fun d => d)) ;;
  n <- lift (Np.shape_at qual 0) ;;
  stores <- call (fun me =>
              outcome_fold
                (fun acc i =>
                   q_i <~ Np.item qual i ;;
                   result <~ solver (fun Xcont => AEIMoptimiserWrapper me Xcont q_i)
                                    contbndlist ;;
                   Ok (fst acc ++ [res_x result], snd acc ++ [res_fun result]))
                (seq 0 n) ([], [])) ;;
  ind <- lift (index_of_min (snd stores)) ;;
  q_ind <- lift (Np.item qual ind) ;;
  ret (PyTuple [PyFloat (nth ind (snd stores) (f_nan num));
                PyArray (Np.concatenate_flat (nth ind (fst stores) q_ind) q_ind)]).

(** Lines 385 to 398: the mean posterior variance over a Halton sample,
    divided by the front, becomes [self.contextual]. *)
Definition estimate_contextual : M unit :=
  X <- call (fun me => sample_design mvo me 10000%N "halton") ;;
  X <- call (fun me => scaleX mvo me X "bounds") ;;
  var <- call (fun me =>
                 uv <~ predict_all predict_y models me X (num_obj me) ;;
                 Np.concatenate_axis1 (snd uv)) ;;
  meanvar <- lift (Np.mean_axis0 var) ;;
  f <- call (attribute currentfront) ;;
  ctx <- lift (Np.div meanvar f) ;;
  assign (set_contextual ctx).

Definition AEIMmixedoptimiser (constraints : option ndarray) (algorithm : string)
    (values_none : bool) : M pyval :=
  estimate_contextual ;;;
  if String.eqb algorithm "Random" then
    Xsamples <- call (fun me => sample_design mvo me 10000%N "halton") ;;
    fvals <- call (fun me => AEIM_Hypervolume me Xsamples) ;;
    best <- lift (best_sample fvals Xsamples) ;;
    if values_none then ret (PyTuple [PyFloat (fst best); PyArray (snd best)])
    else ret (PyTuple [PyFloat (fst best); PyArray (snd best); PyArray fvals; PyArray Xsamples])
  else if String.eqb algorithm "Random Local" then
    Xsamples <- call (fun me => sample_design mvo me 10000%N "halton") ;;
    fvals <- match constraints with
             | None => call (fun me => AEIM_Euclidean me Xsamples)
             | Some _ => raise NotImplementedError
             end ;;
    best <- lift (best_sample fvals Xsamples) ;;
    let xmax := snd best in
    qual <- call (fun me => Np.slice_axis xmax 0 (from_end (num_qual me)) (fun d => d)) ;;
    bndlist <- call continuous_bounds ;;
    result <- call (fun me =>
                      x0 <~ Np.slice_axis xmax 0 (fun _ => 0) (from_end (num_qual me)) ;;
                      minimize_SLSQP lib
                        (fun Xcont => AEIMoptimiserWrapper me Xcont qual)
                        (Np.flatten x0) bndlist) ;;
    if values_none then
      ret (PyTuple [PyFloat (res_fun result);
                    PyArray (Np.concatenate_flat (res_x result) qual)])
    else ret (PyTuple [PyFloat (fst best); PyArray xmax; PyArray fvals; PyArray Xsamples])
  else if String.eqb algorithm "SHGO" then
    nq <- call (fun me => Ok (num_qual me)) ;;
    if nq <? 1 then
      result <- call (fun me => shgo lib (AEIM_Hypervolume me) (all_bounds me)) ;;
      ret (PyTuple [PyArray (res_x result); PyFloat (res_fun result)])
    else search_per_assignment (shgo lib)
  else if String.eqb algorithm "DE" then
    nq <- call (fun me => Ok (num_qual me)) ;;
    if nq <? 1 then
      result <- call (fun me => differential_evolution lib (AEIM_Hypervolume me)
                                  (all_bounds me)) ;;
      ret (PyTuple [PyArray (res_x result); PyFloat (res_fun result)])
    else search_per_assignment (dual_annealing lib)
  else ret PyNone.

(** ** [multinextcondition] *)

(** [self.models = self.generatemodels(X, Y, variance=variance)]. *)
Definition refit (X Y : ndarray) (variance : num) : M unit :=
  ms <- generatemodels X Y true variance ;;
  assign (set_models ms).

Definition kernel_failed : printed :=
  Text "Initial model optimisation failed, retrying with new kernel".
Definition variance_failed : printed :=
  Text "Model optimisation failed, retrying with new value of variance".

(** Lines 524 to 528: [for variance in [0.1,1,2,10]: try: ... except: print]. *)
Definition retry_variances (X Y : ndarray) : M unit :=
  r <- for_loop (map (lit num) [1 # 10; 1; 2; 10]%Q) tt
         (fun _ variance =>
            try_except (refit X Y variance) (print variance_failed) ;;;
            ret (Continue (R := unit) tt)) ;;
  ret tt.

(** Lines 514 to 528: the kernels, then the variances. *)
Definition fit_models (X Y : ndarray) : M unit :=
  try_except
    (assign (set_k_type "matern3") ;;; refit X Y (lit num 1))
    (print kernel_failed ;;;
     try_except
       (assign (set_k_type "matern5") ;;; refit X Y (lit num 1))
       (print variance_failed ;;; retry_variances X Y)).

(** [l == x] for a Python list [l] and a float [x]: neither [list.__eq__] nor
    [float.__eq__] knows the other type, so the comparison falls back to
    identity and is [False], whatever the list holds. *)
Definition list_eq_float (l : list ndarray) (x : num) : bool := false.

(** [np.any(b)] of a single boolean. *)
Definition np_any (b : bool) : bool := b.

(** Lines 532 to 538: the check of the predicted means. *)
Definition check_means (X Y : ndarray) : M unit :=
  ms <- call (model_list models) ;;
  r <- for_loop ms []
         (fun means mdl =>
            s <- call (fun me => sample_design mvo me 2%N "halton") ;;
            uv <- lift (predict_y mdl s) ;;
            ret (Continue (R := unit) (means ++ [fst uv]))) ;;
  let means := match r with Continue means => means | Return _ => [] end in
  if np_any (list_eq_float means (f_nan num)) then
    print (Text "Retraining model with new starting variance") ;;;
    refit X Y (lit num (1 # 10))
  else ret tt.

(** [a, b = v]. *)
Definition unpack2 (v : pyval) : outcome (pyval * pyval) :=
  match v with
  | PyTuple [a; b] => Ok (a, b)
  | PyTuple _ => Raise ValueError
  | PyArray arr =>
      if nth 0 (Np.shape arr) 0 =? 2 then
        a <~ Np.item arr 0 ;; b <~ Np.item arr 1 ;; Ok (PyArray a, PyArray b)
      else Raise ValueError
  | _ => Raise TypeError
  end.

(** The value as an array, for a method or an index applied to it. *)
Definition as_array (v : pyval) : outcome ndarray :=
  match v with
  | PyArray a => Ok a
  | PyFloat x => Ok (Np.scalar num x)
  | _ => Raise AttributeError
  end.

(** [v[0]]. *)
Definition first_item (v : pyval) : outcome pyval :=
  match v with
  | PyArray a => x <~ Np.item a 0 ;; Ok (PyArray x)
  | PyTuple (x :: _) => Ok x
  | PyTuple [] => Raise IndexError
  | _ => Raise TypeError
  end.

(** [xmax[i,:]]. *)
Definition row_of (a : ndarray) (i : nat) : outcome ndarray :=
  if 2 <=? Np.ndim a then Np.item a i else Raise IndexError.

(** [xmax.reshape(1,-1), fmax]. *)
Definition point_and_value (xmax fmax : pyval) : outcome pyval :=
  a <~ as_array xmax ;;
  x <~ Np.reshape a [Some 1; None] ;;
  Ok (PyTuple [PyArray x; fmax]).

(** [self.currentfront = self.paretofront(self.Yscaled)]. *)
Definition update_front : M unit :=
  front <- call (fun me => Ys <~ attribute Yscaled me ;; paretofront Ys) ;;
  assign (set_currentfront front).

(** [constraints] where an array is expected: [np.shape(False)] is [()]. *)
Definition constraints_array (constraints : option ndarray) : ndarray :=
  match constraints with
  | Some c => c
  | None => Np.scalar num (lit num 0)
  end.

(** Lines 513 to 550; [None] when the branch ends without returning. *)
Definition unconstrained (X Y : ndarray) (values_none : bool) (method mode : string)
  : M (option pyval) :=
  fit_models X Y ;;;
  update_front ;;;
  check_means X Y ;;;
  r <- (if String.eqb method "AEIM" then AEIMmixedoptimiser None "Random Local" true
        else EIMmixedoptimiser None "Random Local" true mode) ;;
  fx <- lift (unpack2 r) ;;
  let fmax := fst fx in
  let xmax := snd fx in
  if values_none && negb (String.eqb mode "all") then
    v <- lift (point_and_value xmax fmax) ;; ret (Some v)
  else if values_none && String.eqb mode "all" then
    a <- lift (as_array xmax) ;;
    x0 <- lift (row_of a 0) ;;
    x1 <- lift (row_of a 1) ;;
    if allclose lib x0 x1 then
      x <- lift (Np.reshape x0 [Some 1; None]) ;;
      f0 <- lift (first_item fmax) ;;
      ret (Some (PyTuple [PyArray x; f0]))
    else ret (Some (PyTuple [PyArray (unique_rows_round6 lib a); fmax]))
  else ret None.

Definition multinextcondition (X Y : ndarray) (constraints : option ndarray)
    (values_none : bool) (method mode : string) : M pyval :=
  early <- match constraints with
           | None => unconstrained X Y values_none method mode
           | Some _ => ret None
           end ;;
  match early with
  | Some v => ret v
  | None =>
      ms <- generatemodels X Y true (lit num 1) ;;
      assign (set_models ms) ;;;
      update_front ;;;
      cms <- generatemodels X (constraints_array constraints) false (lit num 1) ;;
      assign (set_constrainedmodels cms) ;;;
      r <- EIMmixedoptimiser constraints "Simplical" true "euclidean" ;;
      fx <- lift (unpack2 r) ;;
      if values_none then lift (point_and_value (snd fx) (fst fx))
      else ret PyNone
  end.

End Class.

Arguments PyNone {num}.
Arguments PyFloat {num} x.

End Optimiser.

(** ** The real-number reading of the floats

    Real arithmetic for [float64] arithmetic, with the normal distribution
    function and density as parameters. The reals have no NaN and no
    infinity: [f_nan] is only a filler and [f_isnan] is false; and [x / 0] is
    a real number where the floats give NaN or an infinity, so a property
    that rests on a quotient by [sigma] is stated where [sigma] is positive. *)
Definition real_numeric (Phi phi : R -> R) : Numeric := {|
  F := R;
  lit := Q2R;
  f_add := Rplus;
  f_sub := Rminus;
  f_mul := Rmult;
  f_div := Rdiv;
  f_neg := Ropp;
  f_sqrt := R_sqrt.sqrt;
  f_maximum := Rmax;
  f_minimum := Rmin;
  f_ltb := fun a b => if Rlt_dec a b then true else false;
  f_nan := 0%R;
  f_isnan := fun _ => false;
  norm_cdf := Phi;
  norm_pdf := phi
|}.

(** What the properties below use of [norm.cdf] and [norm.pdf]: a
    distribution function is non-decreasing with values from 0 to 1, a
    density is non-negative. *)
Record distribution (Phi phi : R -> R) : Prop := {
  cdf_monotone : forall a b, (a <= b)%R -> (Phi a <= Phi b)%R;
  cdf_range : forall a, (0 <= Phi a <= 1)%R;
  pdf_nonneg : forall a, (0 <= phi a)%R
}.

(** A distribution to run the code on: the uniform one on [-2, 2]. *)
Definition uniform_cdf (z : R) : R := Rmax 0 (Rmin 1 ((z + 2) / 4)).
Definition uniform_pdf (z : R) : R :=
  if Rle_dec (-2) z then if Rle_dec z 2 then (1 / 4)%R else 0%R else 0%R.
Abbreviation uniform_numeric := (real_numeric uniform_cdf uniform_pdf).

(** ** A small optimiser to run the code on

    Two objectives, one continuous and one qualitative variable; models
    whose posterior is the same at every point; a sampler whose design is
    the single point (0, 0); a local optimiser that stops at its start. *)

Module Sample.
Import Optimiser.

Section Normal.

Variables Phi phi : R -> R.

Abbreviation num := (real_numeric Phi phi).

Definition column (n : nat) (c : R) : Np.ndarray num :=
  Np.Array num [n; 1] (fun _ => c).

Definition matrix (ncols : nat) (l : list (list R)) : Np.ndarray num :=
  Np.of_rows num ncols l.

Definition constant_model (mu var : R) : Model num :=
  {| predict_y := fun X => Ok (column (nth 0 (Np.shape X) 0) mu,
                               column (nth 0 (Np.shape X) 0) var);
     predict_f := fun X => Ok (column (nth 0 (Np.shape X) 0) mu,
                               column (nth 0 (Np.shape X) 0) var) |}.

Definition origin : Np.ndarray num := matrix 2 [[0; 0]]%R.

(** A model whose mean falls with the first coordinate [x0] of the point: it
    is [- x0], with variance 1. *)
Definition sloped_model : Model num :=
  {| predict_y := fun X : Np.ndarray num =>
                    Ok (Np.Array num [nth 0 (Np.shape X) 0; 1]
                                 (fun idx => Ropp (Np.at_ X [nth 0 idx 0; 0])),
                               column (nth 0 (Np.shape X) 0) 1);
     predict_f := fun X : Np.ndarray num =>
                    Ok (Np.Array num [nth 0 (Np.shape X) 0; 1]
                                 (fun idx => Ropp (Np.at_ X [nth 0 idx 0; 0])),
                               column (nth 0 (Np.shape X) 0) 1) |}.

(** Three points, the last two the same. *)
Definition three_points : Np.ndarray num := matrix 2 [[0; 0]; [1; 0]; [1; 0]]%R.

Definition mvo : MVO num :=
  {| fitmodel := fun _ _ _ _ => Ok (constant_model 0 1);
     scaley := fun _ Y => Ok Y;
     scaleX := fun _ X _ => Ok X;
     sample_design := fun _ _ _ => Ok origin |}.

(** The same, with a fit that never converges. *)
Definition failing_mvo : MVO num :=
  {| fitmodel := fun _ _ _ _ => Raise (ExternalError "fitmodel");
     scaley := fun _ Y => Ok Y;
     scaleX := fun _ X _ => Ok X;
     sample_design := fun _ _ _ => Ok origin |}.

(** The same, with a sampler whose design is the three points. *)
Definition three_point_mvo : MVO num :=
  {| fitmodel := fun _ _ _ _ => Ok (constant_model 0 1);
     scaley := fun _ Y => Ok Y;
     scaleX := fun _ X _ => Ok X;
     sample_design := fun _ _ _ => Ok three_points |}.

(** A fit that converges under every kernel but 'matern3'. *)
Definition kernel_mvo : MVO num :=
  {| fitmodel := fun me _ _ _ =>
                   if String.eqb (k_type me) "matern3"
                   then Raise (ExternalError "fitmodel")
                   else Ok (constant_model 0 1);
     scaley := fun _ Y => Ok Y;
     scaleX := fun _ X _ => Ok X;
     sample_design := fun _ _ _ => Ok origin |}.

(** A fit that converges only with a variance above 1, and whose model
    then has that variance. *)
Definition fit_above_1 (variance : option R) : outcome (Model num) :=
  match variance with
  | Some v => if Rlt_dec 1 v then Ok (constant_model 0 v)
              else Raise (ExternalError "fitmodel")
  | None => Raise (ExternalError "fitmodel")
  end.

Definition variance_mvo : MVO num :=
  {| fitmodel := fun (_ : MVMOO num) (_ _ : Np.ndarray num) (variance : option (F num)) =>
                   fit_above_1 variance;
     scaley := fun _ Y => Ok Y;
     scaleX := fun _ X _ => Ok X;
     sample_design := fun _ _ _ => Ok origin |}.

Definition stop_at_start (f : Np.ndarray num -> outcome (Np.ndarray num))
    (x0 : Np.ndarray num) : outcome (OptimizeResult num) :=
  a <~ f x0 ;; Ok {| res_x := x0; res_fun := Np.first a |}.

Definition lib : Library num :=
  {| minimize_SLSQP := fun f x0 _ => stop_at_start f x0;
     shgo := fun f _ => stop_at_start f (Np.flatten origin);
     differential_evolution := fun f _ => stop_at_start f (Np.flatten origin);
     dual_annealing := fun f _ => stop_at_start f (Np.flatten origin);
     allclose := fun _ _ => true;
     unique_rows_round6 := fun a => a |}.

(** The same behind a check of the bounds against the start vector: as
    many bounds as entries. *)
Definition checked_lib : Library num :=
  {| minimize_SLSQP := fun f x0 bnds =>
                         if length bnds =? Np.size x0 then stop_at_start f x0
                         else Raise ValueError;
     shgo := fun f _ => stop_at_start f (Np.flatten origin);
     differential_evolution := fun f _ => stop_at_start f (Np.flatten origin);
     dual_annealing := fun f _ => stop_at_start f (Np.flatten origin);
     allclose := fun _ _ => true;
     unique_rows_round6 := fun a => a |}.

(** An instance whose front is [front] and whose banks are [bank] and [cbank]. *)
Definition optimiser (front : Np.ndarray num) (bank cbank : list (Model num)) : MVMOO num :=
  {| k_type := "matern3"; num_qual := 1; num_quant := 1;
     bounds := matrix 2 [[0; 0]; [1; 1]]%R; num_obj := 2; scale := "bounds";
     nsamples := None; Yscaled := None; Xscaled := None; model := None;
     models := Some (Some bank); constrainedmodels := Some (Some cbank);
     currentfront := Some front; contextual := None |}.

(** A freshly constructed instance: nothing fitted yet. *)
Definition fresh : MVMOO num :=
  {| k_type := "matern3"; num_qual := 1; num_quant := 1;
     bounds := matrix 2 [[0; 0]; [1; 1]]%R; num_obj := 2; scale := "bounds";
     nsamples := None; Yscaled := None; Xscaled := None; model := None;
     models := None; constrainedmodels := None;
     currentfront := None; contextual := None |}.

Definition start (me : MVMOO num) : world num := {| self := me; stdout := [] |}.

(** Two objectives with the single front point (0, 0); one constraint. *)
Definition two_objective : MVMOO num :=
  optimiser origin [constant_model 0 1; constant_model 0 1] [constant_model 0 1].

(** The same with objective models whose mean falls along the first
    coordinate. *)
Definition sloped : MVMOO num :=
  optimiser origin [sloped_model; sloped_model] [constant_model 0 1].

(** Two objectives whose front point (2.1, 2.1) lies beyond the reference
    point (1.1, 1.1); the models predict the front point itself. *)
Definition beyond_reference : MVMOO num :=
  optimiser (matrix 2 [[21 / 10; 21 / 10]]%R)
            [constant_model (21 / 10) 1; constant_model (21 / 10) 1]
            [constant_model 0 1].

(** Three objectives with the single front point (0, 0, 0). *)
Definition three_objective : MVMOO num :=
  optimiser (matrix 3 [[0; 0; 0]]%R)
            [constant_model 0 1; constant_model 0 1; constant_model 0 1] [].

(** Two objectives, two continuous variables and no qualitative one; the
    front point is (1, 1). *)
Definition continuous : MVMOO num :=
  {| k_type := "matern3"; num_qual := 0; num_quant := 2;
     bounds := matrix 2 [[0; 0]; [1; 1]]%R; num_obj := 2; scale := "bounds";
     nsamples := None; Yscaled := None; Xscaled := None; model := None;
     models := Some (Some [constant_model 0 1; constant_model 0 1]);
     constrainedmodels := Some (Some []);
     currentfront := Some (matrix 2 [[1; 1]]%R); contextual := None |}.

End Normal.

End Sample.

(** The small optimiser on the uniform distribution. *)

Module UniformSample.

Abbreviation num := uniform_numeric.
Abbreviation column := (@Sample.column uniform_cdf uniform_pdf).
Abbreviation matrix := (@Sample.matrix uniform_cdf uniform_pdf).
Abbreviation constant_model := (@Sample.constant_model uniform_cdf uniform_pdf).
Abbreviation origin := (@Sample.origin uniform_cdf uniform_pdf).
Abbreviation mvo := (@Sample.mvo uniform_cdf uniform_pdf).
Abbreviation failing_mvo := (@Sample.failing_mvo uniform_cdf uniform_pdf).
Abbreviation three_point_mvo := (@Sample.three_point_mvo uniform_cdf uniform_pdf).
Abbreviation sloped_model := (@Sample.sloped_model uniform_cdf uniform_pdf).
Abbreviation three_points := (@Sample.three_points uniform_cdf uniform_pdf).
Abbreviation sloped := (@Sample.sloped uniform_cdf uniform_pdf).
Abbreviation kernel_mvo := (@Sample.kernel_mvo uniform_cdf uniform_pdf).
Abbreviation variance_mvo := (@Sample.variance_mvo uniform_cdf uniform_pdf).
Abbreviation stop_at_start := (@Sample.stop_at_start uniform_cdf uniform_pdf).
Abbreviation lib := (@Sample.lib uniform_cdf uniform_pdf).
Abbreviation checked_lib := (@Sample.checked_lib uniform_cdf uniform_pdf).
Abbreviation optimiser := (@Sample.optimiser uniform_cdf uniform_pdf).
Abbreviation fresh := (@Sample.fresh uniform_cdf uniform_pdf).
Abbreviation start := (@Sample.start uniform_cdf uniform_pdf).
Abbreviation two_objective := (@Sample.two_objective uniform_cdf uniform_pdf).
Abbreviation beyond_reference := (@Sample.beyond_reference uniform_cdf uniform_pdf).
Abbreviation three_objective := (@Sample.three_objective uniform_cdf uniform_pdf).
Abbreviation continuous := (@Sample.continuous uniform_cdf uniform_pdf).

End UniformSample.

(** * The vocabulary of the properties *)

(** ** The Pareto loop as a sweep over (index, row) entries *)

Module ParetoSpec.
Import Pareto.

Section Sweep.

Variable T : Type.
Variable ltb : T -> T -> bool.

(** An index into the original [costs] with the row it names. *)
Abbreviation entry := (nat * list T)%type.

(** [x] survives the round whose pivot is [p]. *)
Definition keep (p x : entry) : bool := any_lt ltb (snd x) (snd p).

(** The loop on the entries already used as pivots and those still to come. *)
Fixpoint sweep (fuel : nat) (done todo : list entry) : list entry * list entry :=
  match fuel, todo with
  | S fuel', p :: t => sweep fuel' (filter (keep p) done ++ [p]) (filter (keep p) t)
  | _, _ => (done, todo)
  end.

Definition concrete (done todo : list entry) : loop_state T :=
  {| is_efficient := map fst (done ++ todo);
     costs := map snd (done ++ todo);
     next_point_index := length done |}.

(** The comparison never separates [a] from [c] through a [b] that lies
    between them: it holds of [<] on numbers, and fails once a NaN occurs. *)
Definition negatively_transitive : Prop :=
  forall a b c, ltb a b = false -> ltb b c = false -> ltb a c = false.

(** Rows with the same entries, up to the comparison. *)
Definition same_row (r s : list T) : Prop :=
  Forall2 (fun a b => ltb a b = false /\ ltb b a = false) r s.

Definition lt_fst (x y : entry) : Prop := fst x < fst y.

Definition entries (cs : list (list T)) : list entry :=
  combine (seq 0 (length cs)) cs.

(** The rows left when the loop exits, with their original indices. *)
Definition front (cs : list (list T)) : list entry :=
  fst (sweep (length cs) [] (entries cs)).

(** What every round of the loop preserves. *)
Record invariant (cs : list (list T)) (d t : list entry) : Prop := {
  inv_filter : exists P, d ++ t = filter P (entries cs);
  inv_done : forall x y, In x d -> In y d -> fst x <> fst y -> keep y x = true;
  inv_todo : forall x y, In x d -> In y t -> keep x y = true;
  inv_dom : forall x, In x (entries cs) -> ~ In x (d ++ t) ->
            exists y, In y (d ++ t) /\ any_lt ltb (snd x) (snd y) = false;
  inv_dup : forall x y, In x (entries cs) -> In y (entries cs) ->
            fst x < fst y -> same_row (snd x) (snd y) -> In y (d ++ t) -> In x t
}.

End Sweep.

End ParetoSpec.

(** ** The Pareto filter on numbers

    A finite float is a rational and [<] on finite floats is [<] on those
    rationals, so a finite cost matrix is read as a matrix over [Q]. *)

Definition Qltb (a b : Q) : bool := negb (Qle_bool b a).

(** [p] is nowhere above [r]. *)
Definition weakly_dominates (p r : list Q) : Prop := Forall2 Qle p r.

(** Domination for minimisation: nowhere above and somewhere strictly below. *)
Definition dominates (p r : list Q) : Prop :=
  Forall2 Qle p r /\ Exists (fun ab => (fst ab < snd ab)%Q) (combine p r).

(** The same numbers in every column. *)
Definition identical (p r : list Q) : Prop := Forall2 Qeq p r.

Definition rectangular (costs : list (list Q)) (m : nat) : Prop :=
  forall r, In r costs -> length r = m.

Definition row (costs : list (list Q)) (i : nat) : list Q := nth i costs [].

(** Point [i] is in the set [is_pareto_efficient(costs)] selects. *)
Definition selected (costs : list (list Q)) (i : nat) : Prop :=
  nth i (Pareto.efficient_mask Qltb costs) false = true.

Definition selected_rows (costs : list (list Q)) : list (list Q) :=
  compress (Pareto.efficient_mask Qltb costs) costs.

(** The three properties of the mask as the specification words them. *)
Definition pareto_correctness (costs : list (list Q)) : Prop :=
  (forall i j, selected costs i -> selected costs j -> i <> j ->
               ~ dominates (row costs j) (row costs i))
  /\ (forall i, i < length costs -> ~ selected costs i ->
                exists j, selected costs j /\ dominates (row costs j) (row costs i))
  /\ Pareto.is_pareto_efficient Qltb (selected_rows costs) true
     = inl (repeat true (length (selected_rows costs))).

(** The same, with an unselected point dominated by a selected one or a copy
    of it. *)
Definition pareto_correctness_up_to_copies (costs : list (list Q)) : Prop :=
  (forall i j, selected costs i -> selected costs j -> i <> j ->
               ~ dominates (row costs j) (row costs i))
  /\ (forall i, i < length costs -> ~ selected costs i ->
                exists j, selected costs j
                          /\ (dominates (row costs j) (row costs i)
                              \/ identical (row costs j) (row costs i)))
  /\ Pareto.is_pareto_efficient Qltb (selected_rows costs) true
     = inl (repeat true (length (selected_rows costs))).

(** Equal rows that no row dominates are all selected: how the
    specification words the treatment of copies. *)
Definition copies_retained (costs : list (list Q)) : Prop :=
  forall i j, i < length costs -> j < length costs -> i <> j ->
    identical (row costs i) (row costs j) ->
    (forall k, k < length costs -> ~ dominates (row costs k) (row costs i)) ->
    selected costs i /\ selected costs j.

(** ** The optimiser *)

Module OptimiserSpec.
Import Optimiser.

Section Vocabulary.

Variable num : Numeric.
Variable mvo : MVO num.
Variable lib : Library num.

Abbreviation ndarray := (Np.ndarray num).

(** The front has exactly two objectives. *)
Definition two_objectives (me : MVMOO num) : Prop :=
  exists f, currentfront me = Some f /\ nth_error (Np.shape f) 1 = Some 2.

(** The modes of [EIM] that compute the hypervolume score: 'hypervolume',
    'combine' and every name the [else] branch takes, 'all' among them. *)
Definition uses_hypervolume (mode : string) : Prop :=
  mode <> "euclidean"%string /\ mode <> "maxmin"%string.

(** [generatemodels] leaves the model bank, the kernel and the output alone. *)
Definition keeps_bank (w w' : world num) : Prop :=
  models (self w') = models (self w)
  /\ k_type (self w') = k_type (self w)
  /\ stdout w' = stdout w.

(** One attempt with a fixed variance: the bank is overwritten on success,
    a message is printed on failure. *)
Definition attempted (X Y : ndarray) (variance : num) (w w' : world num) : Prop :=
  (exists ms w1, generatemodels mvo X Y true variance w = (Ok ms, w1)
                 /\ w' = assigned (set_models ms) w1)
  \/ (exists e w1, generatemodels mvo X Y true variance w = (Raise e, w1)
                   /\ w' = written variance_failed w1).

(** The same attempt, read off the attributes: the kernel stays; on success
    [self.models] is the list just fitted and nothing is printed, on failure
    [self.models] is what it was and the message is printed. *)
Definition attempt_seen (X Y : ndarray) (variance : num) (w w' : world num) : Prop :=
  k_type (self w') = k_type (self w)
  /\ match fst (generatemodels mvo X Y true variance w) with
     | Ok ms => models (self w') = Some ms /\ stdout w' = stdout w
     | Raise _ => models (self w') = models (self w)
                  /\ stdout w' = stdout w ++ [variance_failed]
     end.

(** [Phi((0 - u) / sigma)] for one constraint. *)
Definition feasible (u sigma : num) : num :=
  norm_cdf num (f_div num (f_sub num (lit num 0) u) sigma).

(** The model [m] answers the query [X] with a mean and a variance column
    of [n] rows. *)
Definition posterior (X : ndarray) (n : nat) (m : Model num) (p : ndarray * ndarray) : Prop :=
  predict_y m X = Ok p /\ Np.shape (fst p) = [n; 1] /\ Np.shape (snd p) = [n; 1].

(** [sigma = sqrt(max(0, var))] of candidate [i]. *)
Definition sigma (p : ndarray * ndarray) (i : nat) : num :=
  f_sqrt num (f_maximum num (lit num 0) (Np.at_ (snd p) [i; 0])).

(** [PoF] of candidate [i]: the product over the constraint models. *)
Definition PoF_at (preds : list (ndarray * ndarray)) (i : nat) : num :=
  fold_left (f_mul num)
    (map (fun p => feasible (Np.at_ (fst p) [i; 0]) (sigma p i)) preds)
    (lit num 1).

(** The acquisition the mixed optimiser maximises. *)
Definition acquire (me : MVMOO num) (constraints : option ndarray) (mode : string)
    (X : ndarray) : outcome ndarray :=
  match constraints with
  | None => EIM mvo me X mode
  | Some _ => CEIM_Hypervolume me X
  end.

(** The returned scalar is the acquisition value at the returned point: how
    the specification words the result of 'Random Local'. *)
Definition returns_acquisition_value (mode : string) (w : world num) : Prop :=
  forall fv xr w',
    EIMmixedoptimiser mvo lib None "Random Local" true mode w
    = (Ok (PyTuple [PyFloat fv; PyArray xr]), w') ->
    exists X v, Np.reshape xr [Some 1; None] = Ok X
                /\ EIM mvo (self w') X mode = Ok v
                /\ fv = Np.first v.

(** What [scipy.optimize.minimize] checks before it starts: the bounds must
    fit the start vector. Two or more bounds that are not one per entry are
    refused, with [IndexError] or [ValueError] by the version; a single bound
    may be stretched over the entries. *)
Definition checks_bounds : Prop :=
  forall objective x0 bnds,
    1 < length bnds -> length bnds <> Np.size x0 ->
    exists e, minimize_SLSQP lib objective x0 bnds = Raise e.

End Vocabulary.

Section Weighting.

Variables Phi phi : R -> R.

Abbreviation num := (real_numeric Phi phi).
Abbreviation ndarray := (Np.ndarray num).

(** The second list of answers has means no lower than the first, and the
    same variances. *)
Definition means_raised (n : nat) (preds preds' : list (ndarray * ndarray)) : Prop :=
  Forall2 (fun p p' : ndarray * ndarray =>
             forall i, i < n ->
               (Np.entry (fst p) i <= Np.entry (fst p') i)%R
               /\ Np.entry (snd p') i = Np.entry (snd p) i)
          preds preds'.

(** How [CEIM_Hypervolume] answers when the constraint means are raised,
    for the candidates and banks that [pre] admits. *)
Definition feasibility_weighting
    (pre : ndarray -> nat -> list (ndarray * ndarray) -> Prop) : Prop :=
  forall (me : MVMOO num) (X y : ndarray) (n : nat)
         (cm cm' : list (Model num)) (preds preds' : list (ndarray * ndarray)),
    nth_error (Np.shape X) 0 = Some n ->
    hypervolume_improvement me X = Ok y ->
    constrainedmodels me = Some (Some cm) -> cm <> [] ->
    Forall2 (posterior X n) cm preds ->
    Forall2 (posterior X n) cm' preds' ->
    means_raised n preds preds' ->
    pre y n preds ->
    exists out out',
      CEIM_Hypervolume me X = Ok out
      /\ CEIM_Hypervolume (set_constrainedmodels (Some cm') me) X = Ok out'
      /\ forall i, i < n ->
           Np.entry out i = (Np.entry y i * PoF_at preds i)%R
           /\ (Np.entry out' i <= Np.entry out i)%R.

(** Every answer of [preds] has a positive [sigma] for candidate [i], so
    that [(0 - u) / sigma] divides by a positive number there. *)
Definition positive_spread (preds : list (ndarray * ndarray)) (i : nat) : Prop :=
  forall p, In p preds -> (0 < sigma p i)%R.

(** The same for the objective models that the acquisition functions read,
    one per column of the front, on the query [X]. *)
Definition objective_spread (me : MVMOO num) (X : ndarray) (i : nat) : Prop :=
  forall f nobj k m p,
    currentfront me = Some f -> nth_error (Np.shape f) 1 = Some nobj -> k < nobj ->
    model_at (@models num) me k = Ok m -> predict_y m X = Ok p ->
    (0 < sigma p i)%R.

(** Every model of the two banks answers every query with positive
    variances, as a Gaussian process with a noise term does. *)
Definition positive_variances (me : MVMOO num) : Prop :=
  forall k m X p i,
    model_at (@models num) me k = Ok m \/ model_at (@constrainedmodels num) me k = Ok m ->
    predict_y m X = Ok p -> i < nth 0 (Np.shape (snd p)) 0 ->
    (0 < sigma p i)%R.

End Weighting.

End OptimiserSpec.

(** ** Rows, shapes and modes *)

(** Column [k] of every row goes through [fs k]: a change of scale or of
    units, column by column. *)
Definition columnwise (A B : Type) (fs : nat -> A -> B) (r : list A) : list B :=
  map (fun kx => fs (fst kx) (snd kx)) (combine (seq 0 (length r)) r).

(** An entry of the sweep with its row replaced. *)
Definition lifted (A B : Type) (g : list A -> list B) (x : nat * list A) : nat * list B :=
  (fst x, g (snd x)).

(** The length [d] of an axis of [a op b] when the operands have [d1] and [d2]
    there: equal lengths, or one of them 1. *)
Definition joined (d1 d2 d : nat) : Prop :=
  (d1 = d2 /\ d = d1) \/ (d1 = 1 /\ d = d2) \/ (d2 = 1 /\ d = d1).

(** The modes of [EIM] that return one column. *)
Definition single_criterion (mode : string) : bool :=
  String.eqb mode "euclidean" || String.eqb mode "hypervolume"
  || String.eqb mode "maxmin" || String.eqb mode "combine".

(** * Properties *)

(** ** Facts about the boolean-mask helpers *)

Lemma compress_app (A : Type) (m1 m2 : list bool) (l1 l2 : list A) :
  length m1 = length l1 ->
  compress (m1 ++ m2) (l1 ++ l2) = compress m1 l1 ++ compress m2 l2.
Proof.
  revert l1; induction m1 as [|b m1 IH]; intros [|x l1] H; simpl in *; try discriminate.
  - reflexivity.
  - injection H as H. rewrite (IH _ H). destruct b; reflexivity.
Qed.

Lemma compress_map (A B : Type) (f : A -> bool) (g : A -> B) (l : list A) :
  compress (map f l) (map g l) = map g (filter f l).
Proof.
  induction l as [|x l IH]; simpl; [reflexivity|].
  rewrite IH. destruct (f x); reflexivity.
Qed.

Lemma set_true_app (m1 m2 : list bool) (b : bool) :
  set_true (length m1) (m1 ++ b :: m2) = m1 ++ true :: m2.
Proof. induction m1 as [|c m1 IH]; simpl; [reflexivity | now rewrite IH]. Qed.

Lemma set_true_length (k : nat) (m : list bool) : length (set_true k m) = length m.
Proof.
  revert k; induction m as [|b m IH]; intros [|k]; simpl; auto.
Qed.

Lemma set_true_nth (k i : nat) (m : list bool) :
  nth i (set_true k m) false = ((i =? k) && (i <? length m)) || nth i m false.
Proof.
  revert k i; induction m as [|b m IH]; intros k i.
  - destruct k, i; simpl; try reflexivity; now rewrite andb_false_r.
  - destruct k as [|k], i as [|i]; simpl; try reflexivity.
    rewrite IH. reflexivity.
Qed.

Lemma count_true_map (A : Type) (f : A -> bool) (l : list A) :
  count_true (map f l) = length (filter f l).
Proof.
  unfold count_true. induction l as [|x l IH]; simpl; [reflexivity|].
  destruct (f x); simpl; now rewrite IH.
Qed.

Lemma compress_all_true (A : Type) (l : list A) :
  compress (repeat true (length l)) l = l.
Proof. induction l as [|x l IH]; simpl; [reflexivity | now rewrite IH]. Qed.

Lemma filter_all (A : Type) (f : A -> bool) (l : list A) :
  (forall x, In x l -> f x = true) -> filter f l = l.
Proof.
  induction l as [|x l IH]; intros H; simpl; [reflexivity|].
  rewrite (H x (or_introl eq_refl)), IH; [reflexivity|].
  intros y Hy. apply H. now right.
Qed.

Lemma combine_map_fst (A B : Type) (l : list A) (l' : list B) :
  length l = length l' -> map fst (combine l l') = l.
Proof.
  revert l'; induction l as [|x l IH]; intros [|y l'] H; simpl in *;
    try discriminate; [reflexivity|].
  injection H as H. now rewrite IH.
Qed.

Lemma combine_map_snd (A B : Type) (l : list A) (l' : list B) :
  length l = length l' -> map snd (combine l l') = l'.
Proof.
  revert l'; induction l as [|x l IH]; intros [|y l'] H; simpl in *;
    try discriminate; [reflexivity|].
  injection H as H. now rewrite IH.
Qed.

(** ** The Pareto loop as a sweep over (index, row) entries *)

Module ParetoFacts.
Import Pareto ParetoSpec.

Section Sweep.

Variable T : Type.
Variable ltb : T -> T -> bool.

Abbreviation entry := (nat * list T)%type.
Abbreviation keep := (ParetoSpec.keep ltb).
Abbreviation sweep := (ParetoSpec.sweep ltb).
Abbreviation concrete := (@ParetoSpec.concrete T).
Abbreviation negatively_transitive := (ParetoSpec.negatively_transitive ltb).
Abbreviation same_row := (ParetoSpec.same_row ltb).
Abbreviation lt_fst := (@ParetoSpec.lt_fst T).
Abbreviation entries := (@ParetoSpec.entries T).
Abbreviation front := (ParetoSpec.front ltb).

Lemma loop_body_concrete (d t : list entry) (p : entry) :
  loop_body ltb (concrete d (p :: t))
  = concrete (filter (keep p) d ++ [p]) (filter (keep p) t).
Proof.
  unfold loop_body, ParetoSpec.concrete, nondominated_point_mask; simpl.
  assert (Hp : nth (length d) (map snd (d ++ p :: t)) [] = snd p).
  { rewrite map_app, app_nth2; rewrite length_map; [|lia].
    now rewrite Nat.sub_diag. }
  rewrite Hp.
  assert (Hm : set_true (length d)
                 (map (fun r => any_lt ltb r (snd p)) (map snd (d ++ p :: t)))
               = map (keep p) d ++ true :: map (keep p) t).
  { rewrite map_map, map_app. simpl.
    rewrite <- (length_map (keep p) d) at 1.
    apply set_true_app. }
  rewrite Hm.
  f_equal.
  - rewrite !map_app. simpl.
    rewrite compress_app by now rewrite !length_map.
    simpl. rewrite !compress_map, <- app_assoc. reflexivity.
  - rewrite !map_app. simpl.
    rewrite compress_app by now rewrite !length_map.
    simpl. rewrite !compress_map, <- app_assoc. reflexivity.
  - rewrite <- (length_map (keep p) d) at 1.
    rewrite firstn_app, firstn_all, Nat.sub_diag. simpl.
    rewrite app_nil_r, count_true_map, length_app. reflexivity.
Qed.

Lemma while_loop_concrete (fuel : nat) (d t : list entry) :
  while_loop ltb fuel (concrete d t)
  = concrete (fst (sweep fuel d t)) (snd (sweep fuel d t)).
Proof.
  revert d t; induction fuel as [|fuel IH]; intros d t; [reflexivity|].
  destruct t as [|p t].
  - simpl. rewrite app_nil_r, length_map, Nat.ltb_irrefl. reflexivity.
  - cbn [while_loop ParetoSpec.sweep].
    replace (next_point_index (concrete d (p :: t))
             <? length (costs (concrete d (p :: t)))) with true.
    + rewrite loop_body_concrete. apply IH.
    + symmetry. apply Nat.ltb_lt. simpl. rewrite length_map, length_app. simpl. lia.
Qed.

Lemma sweep_exhausts (fuel : nat) (d t : list entry) :
  length t <= fuel -> snd (sweep fuel d t) = [].
Proof.
  revert d t; induction fuel as [|fuel IH]; intros d [|p t] H; simpl in *;
    try reflexivity; try lia.
  apply IH. pose proof (filter_length_le (keep p) t). lia.
Qed.

(** *** Comparing whole rows *)

Hypothesis ltb_neg_trans : negatively_transitive.

Lemma any_lt_cons (a b : T) (r s : list T) :
  any_lt ltb (a :: r) (b :: s) = ltb a b || any_lt ltb r s.
Proof. reflexivity. Qed.

Lemma any_lt_false_trans (x y p : list T) :
  length x = length y -> length y = length p ->
  any_lt ltb x y = false -> any_lt ltb y p = false -> any_lt ltb x p = false.
Proof.
  revert y p; induction x as [|a x IH]; intros [|b y] [|c p] Hxy Hyp; simpl in *;
    try discriminate; try reflexivity.
  rewrite !any_lt_cons, !orb_false_iff.
  intros [H1 H2] [H3 H4]. split.
  - exact (ltb_neg_trans H1 H3).
  - apply (IH y p); auto.
Qed.

Lemma any_lt_same_row (x y : list T) : same_row x y -> any_lt ltb y x = false.
Proof.
  induction 1 as [|a b x y [_ Hba] _ IH]; [reflexivity|].
  rewrite any_lt_cons, Hba, IH. reflexivity.
Qed.

Lemma any_lt_same_row_l (x y p : list T) :
  same_row x y -> any_lt ltb x p = any_lt ltb y p.
Proof.
  intros H; revert p; induction H as [|a b x y [Hab Hba] _ IH]; intros [|c p];
    try reflexivity.
  rewrite !any_lt_cons, IH. f_equal.
  destruct (ltb a c) eqn:Ha, (ltb b c) eqn:Hb; try reflexivity.
  - now rewrite (ltb_neg_trans Hab Hb) in Ha.
  - now rewrite (ltb_neg_trans Hba Ha) in Hb.
Qed.

(** *** The entries of a cost matrix *)

Lemma entries_fst (cs : list (list T)) : map fst (entries cs) = seq 0 (length cs).
Proof. unfold ParetoSpec.entries. rewrite combine_map_fst; [reflexivity | now rewrite length_seq]. Qed.

Lemma entries_snd (cs : list (list T)) : map snd (entries cs) = cs.
Proof. unfold ParetoSpec.entries. rewrite combine_map_snd; [reflexivity | now rewrite length_seq]. Qed.

Lemma entries_length (cs : list (list T)) : length (entries cs) = length cs.
Proof. unfold ParetoSpec.entries. rewrite length_combine, length_seq. lia. Qed.

Lemma entries_nth (cs : list (list T)) (i : nat) :
  i < length cs -> nth i (entries cs) (0, []) = (i, nth i cs []).
Proof.
  intros H. unfold ParetoSpec.entries.
  rewrite combine_nth by now rewrite length_seq.
  now rewrite seq_nth.
Qed.

Lemma entries_In (cs : list (list T)) (x : entry) :
  In x (entries cs) <-> fst x < length cs /\ snd x = nth (fst x) cs [].
Proof.
  split.
  - intros H. destruct (In_nth _ _ (0, []) H) as (i & Hi & Hx).
    rewrite entries_length in Hi. rewrite entries_nth in Hx by assumption.
    subst x. simpl. auto.
  - intros [H1 H2]. destruct x as [i r]; simpl in *. subst r.
    rewrite <- entries_nth by assumption. apply nth_In.
    now rewrite entries_length.
Qed.

Lemma entries_unique (cs : list (list T)) (x y : entry) :
  In x (entries cs) -> In y (entries cs) -> fst x = fst y -> x = y.
Proof.
  intros Hx Hy E. apply entries_In in Hx, Hy.
  destruct x, y; simpl in *. subst. f_equal. destruct Hx, Hy. congruence.
Qed.

Lemma combine_seq_sorted (a : nat) (cs : list (list T)) :
  StronglySorted lt_fst (combine (seq a (length cs)) cs).
Proof.
  revert a; induction cs as [|r cs IH]; intros a; simpl; constructor.
  - apply IH.
  - apply Forall_forall. intros [i s] H. apply in_combine_l in H.
    apply in_seq in H. unfold ParetoSpec.lt_fst. simpl. lia.
Qed.

Lemma sorted_filter (P : entry -> bool) (l : list entry) :
  StronglySorted lt_fst l -> StronglySorted lt_fst (filter P l).
Proof.
  induction 1 as [|x l _ IH Hx]; simpl; [constructor|].
  destruct (P x); [constructor|]; auto.
  apply Forall_forall. intros y Hy. apply filter_In in Hy.
  rewrite Forall_forall in Hx. apply Hx, Hy.
Qed.

Lemma sorted_middle (d t : list entry) (p : entry) :
  StronglySorted lt_fst (d ++ p :: t) ->
  (forall x, In x d -> fst x < fst p) /\ (forall x, In x t -> fst p < fst x).
Proof.
  induction d as [|a d IH]; simpl; intros H; inversion H as [|? ? Hs Hf]; subst.
  - split; [contradiction|]. rewrite Forall_forall in Hf. exact Hf.
  - destruct (IH Hs) as [H1 H2]. split; auto.
    intros x [->|Hx]; auto.
    rewrite Forall_forall in Hf. apply Hf, in_elt.
Qed.

Lemma sorted_NoDup (l : list entry) :
  StronglySorted lt_fst l -> NoDup (map fst l).
Proof.
  induction 1 as [|x l _ IH Hx]; simpl; constructor; auto.
  rewrite in_map_iff. intros (y & E & Hy).
  rewrite Forall_forall in Hx. specialize (Hx y Hy). unfold ParetoSpec.lt_fst in Hx. lia.
Qed.

Lemma filter_filter (P Q : entry -> bool) (l : list entry) :
  filter Q (filter P l) = filter (fun x => P x && Q x) l.
Proof.
  induction l as [|x l IH]; simpl; [reflexivity|].
  destruct (P x); simpl; [destruct (Q x)|]; now rewrite IH.
Qed.

(** *** The loop ends, and where *)

Lemma initial_state_concrete (cs : list (list T)) :
  initial_state cs = concrete [] (entries cs).
Proof.
  unfold initial_state, ParetoSpec.concrete. simpl. now rewrite entries_fst, entries_snd.
Qed.

Lemma sweep_fuel (f1 f2 : nat) (d t : list entry) :
  length t <= f1 -> length t <= f2 -> sweep f1 d t = sweep f2 d t.
Proof.
  revert f2 d t; induction f1 as [|f1 IH]; intros [|f2] d [|p t] H1 H2; simpl in *;
    try reflexivity; try lia.
  pose proof (filter_length_le (keep p) t) as Hle.
  apply IH; lia.
Qed.

Lemma sweep_stable (fuel : nat) (d t : list entry) :
  length t <= fuel -> sweep fuel d t = sweep (length t) d t.
Proof. intros H. now apply sweep_fuel. Qed.

Lemma while_loop_front (fuel : nat) (cs : list (list T)) :
  length cs <= fuel ->
  while_loop ltb fuel (initial_state cs) = concrete (front cs) [].
Proof.
  intros H. rewrite initial_state_concrete, while_loop_concrete.
  rewrite sweep_stable by now rewrite entries_length.
  rewrite entries_length. unfold ParetoSpec.front. f_equal.
  apply sweep_exhausts. now rewrite entries_length.
Qed.

Lemma final_state_front (cs : list (list T)) :
  final_state ltb cs = concrete (front cs) [].
Proof. apply while_loop_front. reflexivity. Qed.

(** One round per row is enough: the loop test fails in the final state, and
    more fuel changes nothing. *)
Lemma while_loop_exits (cs : list (list T)) :
  (next_point_index (final_state ltb cs) <? length (costs (final_state ltb cs))) = false
  /\ forall fuel, length cs <= fuel ->
       while_loop ltb fuel (initial_state cs) = final_state ltb cs.
Proof.
  split.
  - rewrite final_state_front. simpl. rewrite app_nil_r, length_map.
    apply Nat.ltb_irrefl.
  - intros fuel H. now rewrite final_state_front, while_loop_front.
Qed.

Lemma efficient_indices_front (cs : list (list T)) :
  efficient_indices ltb cs = map fst (front cs).
Proof.
  unfold efficient_indices. rewrite final_state_front. simpl.
  now rewrite app_nil_r.
Qed.

(** *** The mask built from the surviving indices *)

Lemma fold_set_true_length (idx : list nat) (m0 : list bool) :
  length (fold_left (fun m i => set_true i m) idx m0) = length m0.
Proof.
  revert m0; induction idx as [|j idx IH]; intros m0; simpl; [reflexivity|].
  now rewrite IH, set_true_length.
Qed.

Lemma fold_set_true_nth (idx : list nat) (m0 : list bool) (i : nat) :
  nth i (fold_left (fun m j => set_true j m) idx m0) false
  = ((i <? length m0) && existsb (Nat.eqb i) idx) || nth i m0 false.
Proof.
  revert m0; induction idx as [|j idx IH]; intros m0; simpl.
  - now rewrite andb_false_r.
  - rewrite IH, set_true_length, set_true_nth.
    destruct (i <? length m0), (i =? j), (existsb (Nat.eqb i) idx),
      (nth i m0 false); reflexivity.
Qed.

Lemma index_mask_length (n : nat) (idx : list nat) : length (index_mask n idx) = n.
Proof. unfold index_mask. now rewrite fold_set_true_length, repeat_length. Qed.

Lemma index_mask_nth (n : nat) (idx : list nat) (i : nat) :
  nth i (index_mask n idx) false = (i <? n) && existsb (Nat.eqb i) idx.
Proof.
  unfold index_mask. rewrite fold_set_true_nth, repeat_length.
  replace (nth i (repeat false n) false) with false; [now rewrite orb_false_r|].
  symmetry. destruct (Nat.ltb_spec i n).
  - now apply nth_repeat_lt.
  - apply nth_overflow. now rewrite repeat_length.
Qed.

Lemma existsb_eqb_In (i : nat) (l : list nat) : existsb (Nat.eqb i) l = true <-> In i l.
Proof.
  rewrite existsb_exists. split.
  - intros (j & Hj & E). apply Nat.eqb_eq in E. now subst.
  - intros H. exists i. split; [assumption | apply Nat.eqb_refl].
Qed.

Lemma index_mask_map (n : nat) (idx : list nat) :
  index_mask n idx = map (fun i => existsb (Nat.eqb i) idx) (seq 0 n).
Proof.
  apply (nth_ext _ _ false false).
  - now rewrite index_mask_length, length_map, length_seq.
  - intros i Hi. rewrite index_mask_length in Hi.
    rewrite index_mask_nth.
    rewrite (nth_indep _ false (existsb (Nat.eqb 0) idx))
      by now rewrite length_map, length_seq.
    rewrite (map_nth (fun i => existsb (Nat.eqb i) idx)), seq_nth by assumption.
    simpl. destruct (Nat.ltb_spec i n); [reflexivity | lia].
Qed.

Lemma compress_entries (f : nat -> bool) (a : nat) (cs : list (list T)) :
  compress (map f (seq a (length cs))) cs
  = map snd (filter (fun x : entry => f (fst x)) (combine (seq a (length cs)) cs)).
Proof.
  revert a; induction cs as [|r cs IH]; intros a; simpl; [reflexivity|].
  rewrite IH. destruct (f a); reflexivity.
Qed.

(** *** A matrix whose rows all survive one another is left whole *)

Lemma sweep_pairwise (fuel : nat) (d t : list entry) :
  (forall x y, In x (d ++ t) -> In y (d ++ t) -> fst x <> fst y -> keep y x = true) ->
  NoDup (map fst (d ++ t)) -> length t <= fuel ->
  sweep fuel d t = (d ++ t, []).
Proof.
  revert d t; induction fuel as [|fuel IH]; intros d [|p t] H ND Hf; simpl in *;
    try lia; try now rewrite app_nil_r.
  assert (Hne : forall x, In x (d ++ t) -> fst x <> fst p).
  { intros x Hx E. rewrite map_app in ND. simpl in ND.
    apply NoDup_remove_2 in ND. apply ND. rewrite <- E, <- map_app.
    now apply in_map. }
  assert (Hk : forall x, In x (d ++ t) -> keep p x = true).
  { intros x Hx. apply H; [| apply in_elt | now apply Hne].
    apply in_app_or in Hx. apply in_or_app. simpl. tauto. }
  rewrite !filter_all by (intros; apply Hk, in_or_app; auto).
  rewrite IH; rewrite <- ?app_assoc; simpl; auto. lia.
Qed.

(** *** What every round of the loop preserves *)

Variable cs : list (list T).

Abbreviation invariant := (ParetoSpec.invariant ltb cs).

Variable m : nat.
Hypothesis cs_rectangular : forall r, In r cs -> length r = m.

Lemma entries_row_length (x : entry) : In x (entries cs) -> length (snd x) = m.
Proof.
  intros H. apply entries_In in H. destruct H as [H1 H2].
  rewrite H2. apply cs_rectangular, nth_In, H1.
Qed.

Lemma invariant_sorted (d t : list entry) :
  invariant d t -> StronglySorted lt_fst (d ++ t).
Proof.
  intros [[P HP] _ _ _ _]. rewrite HP.
  apply sorted_filter, combine_seq_sorted.
Qed.

Lemma invariant_incl (d t : list entry) (x : entry) :
  invariant d t -> In x (d ++ t) -> In x (entries cs).
Proof.
  intros [[P HP] _ _ _ _] H. rewrite HP in H. now apply filter_In in H.
Qed.

Lemma invariant_initial : invariant [] (entries cs).
Proof.
  split; simpl; try contradiction.
  - exists (fun _ => true). symmetry. apply filter_all. reflexivity.
  - intros x y Hx Hy Hlt Hsame _. exact Hx.
Qed.

Lemma split_step (d t : list entry) (p x : entry) :
  In x (d ++ p :: t) ->
  x = p \/ (In x (d ++ t) /\
            (keep p x = true -> In x ((filter (keep p) d ++ [p]) ++ filter (keep p) t))).
Proof.
  intros H. apply in_app_or in H. destruct H as [H | [H | H]].
  - right. split; [apply in_or_app; now left|].
    intros K. apply in_or_app. left. apply in_or_app. left. now apply filter_In.
  - left. now symmetry.
  - right. split; [apply in_or_app; now right|].
    intros K. apply in_or_app. right. now apply filter_In.
Qed.

Lemma step_incl (d t : list entry) (p x : entry) :
  In x ((filter (keep p) d ++ [p]) ++ filter (keep p) t) ->
  In x (d ++ p :: t) /\ (x = p \/ keep p x = true).
Proof.
  intros H. apply in_app_or in H. destruct H as [H | H].
  - apply in_app_or in H. destruct H as [H | [H | []]].
    + apply filter_In in H. destruct H. split; [apply in_or_app|]; auto.
    + subst. split; [apply in_elt | now left].
  - apply filter_In in H. destruct H. split; [|now right].
    apply in_or_app. right. now right.
Qed.

Lemma invariant_step (d t : list entry) (p : entry) :
  invariant d (p :: t) ->
  invariant (filter (keep p) d ++ [p]) (filter (keep p) t).
Proof.
  intros I.
  pose proof (invariant_sorted I) as Hs.
  destruct (sorted_middle _ _ _ Hs) as [Hd Ht].
  assert (Hp : In p (entries cs)) by (apply (invariant_incl _ I), in_elt).
  destruct I as [[P HP] Idone Itodo Idom Idup].
  split.
  - exists (fun x => P x && ((fst x =? fst p) || keep p x)).
    rewrite <- filter_filter, <- HP, filter_app. simpl.
    rewrite Nat.eqb_refl. simpl. rewrite <- app_assoc. simpl. f_equal; [|f_equal].
    + apply filter_ext_in. intros x Hx. specialize (Hd x Hx).
      destruct (Nat.eqb_spec (fst x) (fst p)); [lia | reflexivity].
    + apply filter_ext_in. intros x Hx. specialize (Ht x Hx).
      destruct (Nat.eqb_spec (fst x) (fst p)); [lia | reflexivity].
  - intros x y Hx Hy Hne.
    apply in_app_or in Hx, Hy.
    destruct Hx as [Hx | [<- | []]], Hy as [Hy | [<- | []]].
    + apply filter_In in Hx, Hy. apply Idone; tauto.
    + apply filter_In in Hx. tauto.
    + apply filter_In in Hy. apply Itodo; [tauto | now left].
    + congruence.
  - intros x y Hx Hy. apply filter_In in Hy. destruct Hy as [Hy Ky].
    apply in_app_or in Hx. destruct Hx as [Hx | [<- | []]]; [|assumption].
    apply filter_In in Hx. apply Itodo; [tauto | now right].
  - intros x Hx Hnot.
    assert (Hpnew : In p ((filter (keep p) d ++ [p]) ++ filter (keep p) t)).
    { apply in_or_app. left. apply in_or_app. right. now left. }
    assert (Hrem : forall z, In z (d ++ p :: t) ->
              ~ In z ((filter (keep p) d ++ [p]) ++ filter (keep p) t) ->
              any_lt ltb (snd z) (snd p) = false).
    { intros z Hz Hnz. destruct (split_step _ _ _ _ Hz) as [-> | [_ K]];
        [contradiction|].
      destruct (keep p z) eqn:E; [elim Hnz; now apply K | exact E]. }
    destruct (in_dec Nat.eq_dec (fst x) (map fst (d ++ p :: t))) as [Hin | Hout].
    + apply in_map_iff in Hin. destruct Hin as (z & E & Hz).
      assert (z = x) as ->.
      { apply (entries_unique cs); auto. rewrite HP in Hz. now apply filter_In in Hz. }
      exists p. split; [assumption | now apply Hrem].
    + assert (Hout' : ~ In x (d ++ p :: t)).
      { intros H. apply Hout. now apply in_map. }
      destruct (Idom x Hx Hout') as (y & Hy & Hyx).
      destruct (keep p y) eqn:E.
      * destruct (split_step _ _ _ _ Hy) as [-> | [_ K]];
          [exists p; now split | exists y; split; auto].
      * destruct (split_step _ _ _ _ Hy) as [-> | [_ K]];
          [exists p; now split|].
        exists p. split; [assumption|].
        assert (Hyall : In y (entries cs)).
        { rewrite HP in Hy. now apply filter_In in Hy. }
        apply (any_lt_false_trans (snd x) (snd y) (snd p)); auto;
          rewrite !entries_row_length; auto.
  - intros x y Hx Hy Hlt Hsame Hynew.
    apply step_incl in Hynew. destruct Hynew as [Hyold Hy'].
    pose proof (Idup x y Hx Hy Hlt Hsame Hyold) as Hxt.
    destruct Hxt as [<- | Hxt].
    + destruct Hy' as [-> | K]; [lia|].
      unfold ParetoSpec.keep in K. rewrite (any_lt_same_row Hsame) in K. discriminate.
    + apply filter_In. split; [assumption|].
      destruct Hy' as [-> | K]; [specialize (Ht x Hxt); lia|].
      unfold ParetoSpec.keep in *. now rewrite (any_lt_same_row_l _ Hsame).
Qed.

Lemma invariant_sweep (fuel : nat) (d t : list entry) :
  invariant d t -> invariant (fst (sweep fuel d t)) (snd (sweep fuel d t)).
Proof.
  revert d t; induction fuel as [|fuel IH]; intros d [|p t] I; simpl; auto.
  apply IH, invariant_step, I.
Qed.

(** *** The surviving rows *)

Lemma front_invariant : invariant (front cs) [].
Proof.
  pose proof (invariant_sweep (length cs) invariant_initial) as I.
  rewrite sweep_exhausts in I by now rewrite entries_length.
  exact I.
Qed.

Lemma front_In (x : entry) : In x (front cs) -> In x (entries cs).
Proof.
  intros H. apply (invariant_incl x front_invariant). now rewrite app_nil_r.
Qed.

Lemma front_NoDup : NoDup (map fst (front cs)).
Proof.
  apply sorted_NoDup. rewrite <- (app_nil_r (front cs)).
  apply invariant_sorted, front_invariant.
Qed.

Lemma efficient_In (i : nat) :
  In i (efficient_indices ltb cs) <-> In (i, nth i cs []) (front cs).
Proof.
  rewrite efficient_indices_front, in_map_iff. split.
  - intros ([j r] & E & H). simpl in E. subst j.
    pose proof (front_In _ H) as Ha. apply entries_In in Ha. simpl in Ha.
    destruct Ha as [_ ->]. exact H.
  - intros H. now exists (i, nth i cs []).
Qed.

Lemma efficient_lt (i : nat) : In i (efficient_indices ltb cs) -> i < length cs.
Proof.
  intros H. apply efficient_In, front_In, entries_In in H. tauto.
Qed.

Lemma front_filter :
  front cs = filter (fun x : entry => existsb (Nat.eqb (fst x)) (efficient_indices ltb cs))
               (entries cs).
Proof.
  destruct front_invariant as [[P HP] _ _ _ _]. rewrite app_nil_r in HP.
  rewrite HP at 1. apply filter_ext_in. intros x Hx.
  destruct (P x) eqn:E; symmetry.
  - apply existsb_eqb_In. rewrite efficient_indices_front, HP.
    apply in_map, filter_In. auto.
  - apply not_true_is_false. intros H. apply existsb_eqb_In in H.
    rewrite efficient_indices_front, HP in H. apply in_map_iff in H.
    destruct H as (y & Ey & Hy). apply filter_In in Hy. destruct Hy as [Hy Py].
    rewrite (entries_unique cs y x) in Py by auto. congruence.
Qed.

Lemma efficient_mask_length : length (efficient_mask ltb cs) = length cs.
Proof. apply index_mask_length. Qed.

Lemma efficient_mask_nth (i : nat) :
  nth i (efficient_mask ltb cs) false = true <-> In i (efficient_indices ltb cs).
Proof.
  unfold efficient_mask. rewrite index_mask_nth, andb_true_iff, existsb_eqb_In.
  split; [tauto|]. intros H. split; [|assumption].
  apply Nat.ltb_lt, efficient_lt, H.
Qed.

Lemma compress_mask_front :
  compress (efficient_mask ltb cs) cs = map snd (front cs).
Proof.
  unfold efficient_mask. rewrite index_mask_map, compress_entries.
  fold (entries cs). now rewrite <- front_filter.
Qed.

(** Two surviving rows each have an entry strictly below the other's. *)
Lemma efficient_mutual (i j : nat) :
  In i (efficient_indices ltb cs) -> In j (efficient_indices ltb cs) -> i <> j ->
  any_lt ltb (nth i cs []) (nth j cs []) = true.
Proof.
  intros Hi Hj Hne. apply efficient_In in Hi, Hj.
  exact (inv_done front_invariant _ _ Hi Hj Hne).
Qed.

(** A row that was removed has no entry below some surviving row's. *)
Lemma efficient_cover (i : nat) :
  i < length cs -> ~ In i (efficient_indices ltb cs) ->
  exists j, In j (efficient_indices ltb cs)
            /\ any_lt ltb (nth i cs []) (nth j cs []) = false.
Proof.
  intros Hi Hn.
  destruct (inv_dom front_invariant (i, nth i cs [])) as ([j r] & Hy & Hd).
  - now apply entries_In.
  - rewrite app_nil_r. intros H. now apply Hn, efficient_In.
  - rewrite app_nil_r in Hy. pose proof (front_In _ Hy) as Ha.
    apply entries_In in Ha. simpl in *. destruct Ha as [_ ->].
    exists j. split; [now apply efficient_In | exact Hd].
Qed.

(** Of two rows with the same entries the later one is removed. *)
Lemma efficient_duplicate (i j : nat) :
  i < j -> j < length cs -> same_row (nth i cs []) (nth j cs []) ->
  ~ In j (efficient_indices ltb cs).
Proof.
  intros Hij Hj Hsame H. apply efficient_In in H.
  refine (inv_dup front_invariant (i, nth i cs []) (j, nth j cs []) _ _ Hij Hsame _).
  - apply entries_In. simpl. split; [lia | reflexivity].
  - apply entries_In. simpl. auto.
  - now rewrite app_nil_r.
Qed.

(** Filtering the surviving rows again keeps all of them. *)
Lemma efficient_idempotent :
  efficient_mask ltb (compress (efficient_mask ltb cs) cs)
  = repeat true (length (compress (efficient_mask ltb cs) cs)).
Proof.
  rewrite compress_mask_front.
  set (cs' := map snd (front cs)).
  assert (Hidx : efficient_indices ltb cs' = seq 0 (length cs')).
  { rewrite efficient_indices_front. unfold ParetoSpec.front.
    rewrite (@sweep_pairwise (length cs') [] (entries cs')).
    - simpl. apply entries_fst.
    - simpl. intros x y Hx Hy Hne.
      apply entries_In in Hx, Hy. destruct Hx as [Hx Ex], Hy as [Hy Ey].
      unfold ParetoSpec.keep. rewrite Ex, Ey. unfold cs' in *. rewrite length_map in Hx, Hy.
      change (@nil T) with (snd (0, @nil T)). rewrite !map_nth.
      apply (inv_done front_invariant); try now apply nth_In.
      intros E. apply Hne.
      apply (proj1 (NoDup_nth (map fst (front cs)) 0) front_NoDup);
        rewrite ?length_map; auto.
      change 0 with (fst (0, @nil T)). now rewrite !map_nth.
    - simpl. rewrite entries_fst. apply seq_NoDup.
    - now rewrite entries_length. }
  unfold efficient_mask. rewrite Hidx.
  apply (nth_ext _ _ false false).
  - now rewrite index_mask_length, repeat_length.
  - intros i Hi. rewrite index_mask_length in Hi.
    rewrite index_mask_nth, nth_repeat_lt by assumption.
    apply andb_true_iff. split; [now apply Nat.ltb_lt|].
    apply existsb_eqb_In, in_seq. lia.
Qed.

End Sweep.

Lemma in_dec_selected (T : Type) (ltb : T -> T -> bool) (cs : list (list T)) (i : nat) :
  {In i (efficient_indices ltb cs)} + {~ In i (efficient_indices ltb cs)}.
Proof. apply in_dec, Nat.eq_dec. Qed.

End ParetoFacts.

(** ** The Pareto filter on numbers

    A finite float is a rational and [<] on finite floats is [<] on those
    rationals, so a finite cost matrix is read as a matrix over [Q]. *)

Lemma Qltb_true (a b : Q) : Qltb a b = true <-> (a < b)%Q.
Proof.
  unfold Qltb. rewrite negb_true_iff, <- not_true_iff_false, Qle_bool_iff.
  split; [apply Qnot_le_lt | apply Qlt_not_le].
Qed.

Lemma Qltb_false (a b : Q) : Qltb a b = false <-> (b <= a)%Q.
Proof. unfold Qltb. now rewrite negb_false_iff, Qle_bool_iff. Qed.

Lemma Qltb_neg_trans : ParetoSpec.negatively_transitive Qltb.
Proof.
  intros a b c. rewrite !Qltb_false. intros H1 H2. now apply Qle_trans with b.
Qed.

Lemma any_lt_false_weakly (x p : list Q) :
  length x = length p -> Pareto.any_lt Qltb x p = false -> weakly_dominates p x.
Proof.
  revert p; induction x as [|a x IH]; intros [|b p] H; simpl in *; try discriminate.
  - constructor.
  - rewrite ParetoFacts.any_lt_cons, orb_false_iff, Qltb_false.
    intros [H1 H2]. injection H as H. constructor; [assumption | now apply IH].
Qed.

Lemma weakly_any_lt_false (x p : list Q) :
  weakly_dominates p x -> Pareto.any_lt Qltb x p = false.
Proof.
  induction 1 as [|b a p x Hba _ IH]; [reflexivity|].
  rewrite ParetoFacts.any_lt_cons, IH, orb_false_r. now apply Qltb_false.
Qed.

Lemma any_lt_true_Exists (x p : list Q) :
  Pareto.any_lt Qltb x p = true <-> Exists (fun ab => (fst ab < snd ab)%Q) (combine x p).
Proof.
  unfold Pareto.any_lt. rewrite existsb_exists, Exists_exists.
  split; intros (ab & H1 & H2); exists ab; (split; [assumption|]);
    now apply Qltb_true.
Qed.

Lemma weakly_split (p x : list Q) :
  weakly_dominates p x -> dominates p x \/ identical p x.
Proof.
  intros H. pose proof H as H'.
  induction H as [|a b p x Hab Hpx IH].
  - right. constructor.
  - destruct (Qle_lt_or_eq _ _ Hab) as [Hlt | Heq].
    + left. split; [assumption|]. simpl. now left.
    + destruct (IH Hpx) as [[_ Hd] | Hi].
      * left. split; [assumption|]. simpl. now right.
      * right. now constructor.
Qed.

Lemma identical_same_row (p x : list Q) :
  identical p x <-> ParetoSpec.same_row Qltb p x.
Proof.
  unfold identical, ParetoSpec.same_row. split; intros H.
  - induction H as [|a b p x E _ IH]; constructor; auto.
    rewrite !Qltb_false, E. split; apply Qle_refl.
  - induction H as [|a b p x [E1 E2] _ IH]; constructor; auto.
    apply Qltb_false in E1, E2. now apply Qle_antisym.
Qed.

Lemma identical_sym (p x : list Q) : identical p x -> identical x p.
Proof. induction 1; constructor; auto. now symmetry. Qed.

Lemma identical_weakly (p x : list Q) : identical p x -> weakly_dominates p x.
Proof.
  induction 1 as [|a b p x E _ IH]; constructor; auto.
  rewrite E. apply Qle_refl.
Qed.

Lemma weakly_antisym (p x : list Q) :
  weakly_dominates p x -> weakly_dominates x p -> identical p x.
Proof.
  induction 1 as [|a b p x Hab _ IH]; intros H; inversion H; subst;
    constructor.
  - now apply Qle_antisym.
  - now apply IH.
Qed.

Section ParetoNumbers.

Variable costs : list (list Q).
Variable m : nat.
Hypothesis costs_rectangular : rectangular costs m.

Lemma selected_In (i : nat) :
  selected costs i <-> In i (Pareto.efficient_indices Qltb costs).
Proof. exact (ParetoFacts.efficient_mask_nth Qltb_neg_trans costs costs_rectangular i). Qed.

Lemma selected_lt (i : nat) : selected costs i -> i < length costs.
Proof.
  intros H. apply selected_In in H.
  exact (ParetoFacts.efficient_lt Qltb_neg_trans costs costs_rectangular i H).
Qed.

Lemma row_length (i : nat) : i < length costs -> length (row costs i) = m.
Proof. intros H. apply costs_rectangular, nth_In, H. Qed.

Lemma selected_not_weakly_dominated (i j : nat) :
  selected costs i -> selected costs j -> i <> j ->
  ~ weakly_dominates (row costs j) (row costs i).
Proof.
  intros Hi Hj Hne Hw. apply selected_In in Hi, Hj.
  pose proof (ParetoFacts.efficient_mutual Qltb_neg_trans costs costs_rectangular
                Hi Hj Hne) as H.
  apply weakly_any_lt_false in Hw. unfold row in Hw. congruence.
Qed.

Lemma unselected_weakly_dominated (i : nat) :
  i < length costs -> ~ selected costs i ->
  exists j, selected costs j /\ weakly_dominates (row costs j) (row costs i).
Proof.
  intros Hi Hn. rewrite selected_In in Hn.
  destruct (ParetoFacts.efficient_cover Qltb_neg_trans costs costs_rectangular Hi Hn)
    as (j & Hj & Hd).
  apply selected_In in Hj. exists j. split; [assumption|].
  apply any_lt_false_weakly; [|exact Hd].
  fold (row costs i) (row costs j).
  rewrite !row_length; auto using selected_lt.
Qed.

Lemma later_duplicate_unselected (i j : nat) :
  i < j -> j < length costs -> identical (row costs i) (row costs j) ->
  ~ selected costs j.
Proof.
  intros Hij Hj Hsame. rewrite selected_In.
  apply (ParetoFacts.efficient_duplicate Qltb_neg_trans costs costs_rectangular Hij Hj).
  now apply identical_same_row.
Qed.

Lemma weakly_trans (p q r : list Q) :
  weakly_dominates p q -> weakly_dominates q r -> weakly_dominates p r.
Proof.
  intros H; revert r; induction H as [|a b p q Hab _ IH]; intros r Hr;
    inversion Hr; subst; constructor.
  - now apply Qle_trans with b.
  - now apply IH.
Qed.

(** The survivors are exactly the rows that no row weakly dominates, but for
    the later copies of the row itself. *)
Lemma selected_characterised (i : nat) :
  i < length costs ->
  (selected costs i <->
   forall k, k < length costs -> k <> i ->
             weakly_dominates (row costs k) (row costs i) ->
             i < k /\ identical (row costs i) (row costs k)).
Proof.
  intros Hi. split.
  - intros Hs k Hk Hne Hw.
    destruct (ParetoFacts.in_dec_selected Qltb costs k) as [Hsk | Hnk].
    + apply selected_In in Hsk.
      elim (selected_not_weakly_dominated Hs Hsk (not_eq_sym Hne) Hw).
    + rewrite <- selected_In in Hnk.
      destruct (unselected_weakly_dominated Hk Hnk) as (j & Hj & Hjk).
      destruct (Nat.eq_dec j i) as [-> | Hji].
      * assert (Hid : identical (row costs i) (row costs k))
          by now apply weakly_antisym.
        split; [|assumption].
        destruct (Nat.lt_total i k) as [Hlt | [E | Hgt]]; [assumption | congruence |].
        elim (later_duplicate_unselected Hgt Hi (identical_sym Hid) Hs).
      * elim (selected_not_weakly_dominated Hs Hj (not_eq_sym Hji)).
        now apply weakly_trans with (row costs k).
  - intros H.
    destruct (ParetoFacts.in_dec_selected Qltb costs i) as [Hs | Hn];
      [now apply selected_In|].
    rewrite <- selected_In in Hn.
    destruct (unselected_weakly_dominated Hi Hn) as (j & Hj & Hji).
    assert (Hne : j <> i) by (intros ->; contradiction).
    destruct (H j (selected_lt Hj) Hne Hji) as [Hlt Hid].
    elim (later_duplicate_unselected Hlt (selected_lt Hj) Hid Hj).
Qed.

End ParetoNumbers.

(** ** Pareto correctness (C1, C2, C8) *)

(** C1, as stated, fails on a matrix with a repeated row: the second copy is
    unselected and no selected point dominates it. *)
Lemma pareto_correctness_fails_on_copies :
  ~ pareto_correctness [[1; 2]; [1; 2]]%Q.
Proof.
  intros (_ & H & _).
  destruct (H 1) as (j & Hj & _ & Hd).
  - simpl. lia.
  - unfold selected. vm_compute. discriminate.
  - destruct j as [|[|j]]; unfold selected in Hj;
      try (vm_compute in Hj; discriminate).
    + vm_compute in Hd.
      repeat match goal with
             | H : Exists _ _ |- _ => inversion H; clear H; subst
             end; simpl in *; discriminate.
    + vm_compute in Hj. destruct j; discriminate.
Qed.

(** C1, amended: for every rectangular matrix of finite costs no selected
    point is dominated by another selected point, every unselected point is
    dominated by a selected point or is a copy of one, and the mask of the
    selected rows is all true. *)
Theorem pareto_correctness_amended (costs : list (list Q)) (m : nat) :
  rectangular costs m -> pareto_correctness_up_to_copies costs.
Proof.
  intros R. repeat split.
  - intros i j Hi Hj Hne [Hw _].
    exact (selected_not_weakly_dominated R Hi Hj Hne Hw).
  - intros i Hi Hn.
    destruct (unselected_weakly_dominated R Hi Hn) as (j & Hj & Hw).
    exists j. split; [assumption | now apply weakly_split].
  - unfold Pareto.is_pareto_efficient, selected_rows. f_equal.
    exact (ParetoFacts.efficient_idempotent Qltb_neg_trans costs R).
Qed.

Lemma pareto_correctness_amended_witness :
  rectangular [[1; 2]; [1; 2]; [0; 3]]%Q 2
  /\ pareto_correctness_up_to_copies [[1; 2]; [1; 2]; [0; 3]]%Q.
Proof.
  assert (R : rectangular [[1; 2]; [1; 2]; [0; 3]]%Q 2).
  { intros r [<- | [<- | [<- | []]]]; reflexivity. }
  split; [exact R | exact (pareto_correctness_amended R)].
Defined.

(** C2, as stated, fails: the mask of Scenario A is not true at 0, 1 and 4. *)
Lemma scenario_A_mask_is_not_0_1_4 :
  Pareto.is_pareto_efficient PrimFloat.ltb
    [[1; 2]; [2; 1]; [1.5; 1.5]; [3; 3]; [0.5; 0.5]]%float true
  <> inl [true; true; false; false; true].
Proof. vm_compute. discriminate. Qed.

(** C2, amended: on Scenario A the mask is true exactly at index 4, the
    point (0.5, 0.5) that dominates every other one. *)
Theorem scenario_A_mask :
  Pareto.is_pareto_efficient PrimFloat.ltb
    [[1; 2]; [2; 1]; [1.5; 1.5]; [3; 3]; [0.5; 0.5]]%float true
  = inl [false; false; false; false; true].
Proof. vm_compute. reflexivity. Qed.

(** The same trace over the rationals, and why: row 4 dominates rows 0 to 3. *)
Example scenario_A_rational :
  Pareto.efficient_mask Qltb [[1; 2]; [2; 1]; [3#2; 3#2]; [3; 3]; [1#2; 1#2]]%Q
  = [false; false; false; false; true]
  /\ Forall (dominates [1#2; 1#2]%Q) [[1; 2]; [2; 1]; [3#2; 3#2]; [3; 3]]%Q.
Proof.
  split; [reflexivity|].
  repeat constructor; simpl; try (left; reflexivity); discriminate.
Qed.

(** C8, as stated, fails: of two equal undominated rows the second is dropped. *)
Lemma copies_are_not_retained : ~ copies_retained [[1; 2]; [1; 2]]%Q.
Proof.
  intros H. destruct (H 0 1) as [_ H1]; simpl; try lia.
  - repeat constructor; reflexivity.
  - intros k Hk [_ Hd]. destruct k as [|[|k]]; [| |lia]; vm_compute in Hd;
      repeat match goal with
             | H : Exists _ _ |- _ => inversion H; clear H; subst
             end; simpl in *; discriminate.
  - unfold selected in H1. vm_compute in H1. discriminate.
Qed.

(** C8, amended: in a rectangular matrix of finite costs a row is selected
    exactly when no row dominates it and no earlier row is a copy of it; so of
    equal rows only the first encountered can be retained, and every later
    copy is dropped. *)
Theorem copies_first_index_wins (costs : list (list Q)) (m : nat) :
  rectangular costs m ->
  (forall i, i < length costs ->
     (selected costs i <->
      (forall k, k < length costs -> ~ dominates (row costs k) (row costs i))
      /\ (forall k, k < i -> ~ identical (row costs k) (row costs i))))
  /\ (forall i j, i < j -> j < length costs ->
        identical (row costs i) (row costs j) -> ~ selected costs j).
Proof.
  intros R. split.
  - intros i Hi. rewrite (selected_characterised R Hi). split.
    + intros H. split.
      * intros k Hk [Hw Hd].
        destruct (Nat.eq_dec k i) as [-> | Hne].
        -- apply any_lt_true_Exists in Hd.
           rewrite (weakly_any_lt_false Hw) in Hd. discriminate.
        -- destruct (H k Hk Hne Hw) as [_ Hid].
           apply any_lt_true_Exists in Hd.
           rewrite (weakly_any_lt_false (identical_weakly Hid)) in Hd. discriminate.
      * intros k Hk Hid.
        destruct (H k) as [Hlt _]; try lia.
        now apply identical_weakly.
    + intros [Hnd Hfirst] k Hk Hne Hw.
      destruct (weakly_split Hw) as [Hd | Hid]; [elim (Hnd k Hk Hd)|].
      split; [|now apply identical_sym].
      destruct (Nat.lt_total i k) as [Hlt | [E | Hgt]]; [assumption | congruence |].
      elim (Hfirst k Hgt Hid).
  - intros i j Hij Hj Hid. exact (later_duplicate_unselected R Hij Hj Hid).
Qed.

Lemma copies_first_index_wins_witness :
  rectangular [[1; 2]; [1; 2]]%Q 2
  /\ ~ selected [[1; 2]; [1; 2]]%Q 1.
Proof.
  assert (R : rectangular [[1; 2]; [1; 2]]%Q 2).
  { intros r [<- | [<- | []]]; reflexivity. }
  split; [exact R|].
  apply (proj2 (copies_first_index_wins R) 0 1); simpl; try lia.
  repeat constructor; reflexivity.
Defined.

(** ** Facts about the error monad and the array fragment *)

Lemma outcome_bind_Ok (A B : Type) (c : outcome A) (k : A -> outcome B) (b : B) :
  outcome_bind c k = Ok b -> exists a, c = Ok a /\ k a = Ok b.
Proof. destruct c as [a | e]; simpl; [eauto | discriminate]. Qed.

Module OptimiserFacts.
Import Optimiser OptimiserSpec.

Section Facts.

Variable num : Numeric.
Variable mvo : MVO num.
Variable lib : Library num.

Abbreviation ndarray := (Np.ndarray num).
Abbreviation attempted := (OptimiserSpec.attempted mvo).
Abbreviation acquire := (OptimiserSpec.acquire mvo).
Abbreviation feasible := (OptimiserSpec.feasible num).

(** *** The reshape of the reference vector *)

Lemma reference_size (nobj : nat) : Np.size (reference num nobj) = nobj.
Proof. unfold Np.size, reference. simpl. lia. Qed.

Lemma reference_reshape (nobj : nat) :
  (exists r3, Np.reshape (reference num nobj) [Some 1; Some 2; Some 1] = Ok r3)
  <-> nobj = 2.
Proof.
  unfold Np.reshape. rewrite reference_size. unfold Np.resolve_shape. simpl.
  destruct (Nat.eqb_spec nobj 2) as [E | E]; split; intros H; auto.
  - eauto.
  - destruct H as [r3 H]. discriminate.
  - contradiction.
Qed.

Lemma hypervolume_score_Ok (nobj : nat) (f f_matrix EI_matrix v : ndarray) :
  hypervolume_score (reference num nobj) f f_matrix EI_matrix = Ok v -> nobj = 2.
Proof.
  unfold hypervolume_score. intros H.
  apply outcome_bind_Ok in H. destruct H as (r3 & Hr & _).
  apply reference_reshape. eauto.
Qed.

Lemma attribute_Ok (A : Type) (field : MVMOO num -> option A) (me : MVMOO num) (v : A) :
  attribute field me = Ok v -> field me = Some v.
Proof. unfold attribute. destruct (field me); congruence. Qed.

Lemma shape_at_Ok (a : ndarray) (k d : nat) :
  Np.shape_at a k = Ok d -> nth_error (Np.shape a) k = Some d.
Proof. unfold Np.shape_at. destruct (nth_error (Np.shape a) k); congruence. Qed.

Lemma EIM_Ok_two_objectives (me : MVMOO num) (X : ndarray) (mode : string) (v : ndarray) :
  uses_hypervolume mode -> EIM mvo me X mode = Ok v -> two_objectives me.
Proof.
  intros [Hm1 Hm2] H. unfold EIM in H.
  apply outcome_bind_Ok in H. destruct H as (f & Hf & H).
  apply outcome_bind_Ok in H. destruct H as (nfx & Hnfx & H).
  apply outcome_bind_Ok in H. destruct H as (nobj & Hnobj & H).
  exists f. split; [now apply attribute_Ok|].
  apply shape_at_Ok in Hnobj. rewrite Hnobj. f_equal.
  do 10 (apply outcome_bind_Ok in H; destruct H as (? & _ & H)).
  apply String.eqb_neq in Hm1, Hm2. rewrite Hm1, Hm2 in H.
  destruct (String.eqb mode "hypervolume").
  - eapply hypervolume_score_Ok, H.
  - destruct (String.eqb mode "combine").
    + apply outcome_bind_Ok in H. destruct H as (? & _ & H).
      apply outcome_bind_Ok in H. destruct H as (? & H & _).
      eapply hypervolume_score_Ok, H.
    + apply outcome_bind_Ok in H. destruct H as (? & _ & H).
      apply outcome_bind_Ok in H. destruct H as (? & H & _).
      eapply hypervolume_score_Ok, H.
Qed.

Lemma AEIM_Hypervolume_Ok_two_objectives (me : MVMOO num) (X v : ndarray) :
  AEIM_Hypervolume me X = Ok v -> two_objectives me.
Proof.
  intros H. unfold AEIM_Hypervolume in H.
  apply outcome_bind_Ok in H. destruct H as (f & Hf & H).
  apply outcome_bind_Ok in H. destruct H as (c & _ & H).
  apply outcome_bind_Ok in H. destruct H as (nfx & Hnfx & H).
  apply outcome_bind_Ok in H. destruct H as (nobj & Hnobj & H).
  exists f. split; [now apply attribute_Ok|].
  apply shape_at_Ok in Hnobj. rewrite Hnobj. f_equal.
  do 10 (apply outcome_bind_Ok in H; destruct H as (? & _ & H)).
  eapply hypervolume_score_Ok, H.
Qed.

(** *** The dispatch on the algorithm name *)

Lemma EIMmixedoptimiser_unknown (constraints : option ndarray) (algorithm : string)
    (values_none : bool) (mode : string) (w : world num) :
  algorithm <> "Random"%string -> algorithm <> "Random Local"%string ->
  EIMmixedoptimiser mvo lib constraints algorithm values_none mode w
  = (Raise NotImplementedError, w).
Proof.
  intros H1 H2. apply String.eqb_neq in H1, H2.
  unfold EIMmixedoptimiser. rewrite H1, H2. reflexivity.
Qed.

Lemma AEIMmixedoptimiser_unknown (constraints : option ndarray) (algorithm : string)
    (values_none : bool) (w : world num) :
  algorithm <> "Random"%string -> algorithm <> "Random Local"%string ->
  algorithm <> "SHGO"%string -> algorithm <> "DE"%string ->
  AEIMmixedoptimiser mvo lib constraints algorithm values_none w
  = bind (estimate_contextual mvo) (fun _ => ret PyNone) w.
Proof.
  intros H1 H2 H3 H4. apply String.eqb_neq in H1, H2, H3, H4.
  unfold AEIMmixedoptimiser. rewrite H1, H2, H3, H4. reflexivity.
Qed.

(** *** The size of the model bank *)

Lemma for_loop_Continue (X A R : Type) (l : list X) (acc : list A)
    (body : list A -> X -> M num (flow (list A) R)) (w w' : world num)
    (r : flow (list A) R) :
  (forall acc x w r w', body acc x w = (Ok r, w') -> exists m, r = Continue (acc ++ [m])) ->
  for_loop l acc body w = (Ok r, w') ->
  exists ms, r = Continue ms /\ length ms = length acc + length l.
Proof.
  intros Hb. revert acc w; induction l as [|x l IH]; intros acc w H; simpl in H.
  - injection H as <- _. exists acc. split; [reflexivity | simpl; lia].
  - unfold bind in H at 1. destruct (body acc x w) as [[rb | e] wb] eqn:E;
      [|discriminate].
    destruct (Hb _ _ _ _ _ E) as (m & ->).
    destruct (IH _ _ H) as (ms & -> & Hl). exists ms. split; [reflexivity|].
    rewrite length_app in Hl. simpl in *. lia.
Qed.

Lemma generatemodels_scaled_length (X Y : ndarray) (variance : num) (n k : nat)
    (w w' : world num) (r : option (list (Model num))) :
  Np.shape Y = [n; k] ->
  generatemodels mvo X Y true variance w = (Ok r, w') ->
  exists ms, r = Some ms /\ length ms = k.
Proof.
  intros Hs H. unfold generatemodels in H. rewrite Hs in H.
  unfold bind at 1 in H. simpl in H.
  unfold bind at 1 in H. destruct (call _ _) as [[Ys | e] w1]; [|discriminate].
  unfold bind at 1 in H. simpl in H.
  unfold bind at 1 in H. destruct (call _ _) as [[Xs | e] w2]; [|discriminate].
  unfold bind at 1 in H. simpl in H.
  unfold bind at 1 in H.
  destruct (for_loop _ _ _ _) as [[rl | e] w3] eqn:E; [|discriminate].
  apply for_loop_Continue in E.
  - destruct E as (ms & -> & Hl). injection H as <- _.
    exists ms. split; [reflexivity|]. rewrite length_seq in Hl. exact Hl.
  - intros acc x wa ra wa' Hb. unfold bind in Hb.
    destruct (fit_column _ _ _ _ _ _) as [[m | e] wb]; [|discriminate].
    injection Hb as <- _. eauto.
Qed.

Lemma generatemodels_unscaled (X Y : ndarray) (variance : num) (n k : nat)
    (w w' : world num) (r : option (list (Model num))) :
  Np.shape Y = [n; k] ->
  generatemodels mvo X Y false variance w = (Ok r, w') ->
  (k = 0 /\ r = None) \/ (0 < k /\ exists m, r = Some [m]).
Proof.
  intros Hs H. unfold generatemodels in H. rewrite Hs in H.
  unfold bind at 1 in H. simpl in H.
  destruct k as [|k]; simpl in H.
  - left. unfold bind, ret in H. simpl in H. injection H as <- _. auto.
  - right. split; [lia|].
    unfold bind at 1 in H. unfold bind at 1 in H.
    unfold bind at 1 in H.
    destruct (fit_column _ _ _ _ _ _) as [[m | e] wb]; [|discriminate].
    simpl in H. unfold bind, ret in H. simpl in H. injection H as <- _. eauto.
Qed.

(** *** The check of the predicted means *)

Lemma for_loop_reads (X A R : Type) (l : list X) (acc : A)
    (body : A -> X -> M num (flow A R)) (w : world num) :
  (forall acc x w, snd (body acc x w) = w) ->
  snd (for_loop l acc body w) = w.
Proof.
  intros Hb. revert acc; induction l as [|x l IH]; intros acc; simpl; [reflexivity|].
  unfold bind. specialize (Hb acc x w).
  destruct (body acc x w) as [[[acc' | v] | e] wb]; simpl in *; subst; auto.
Qed.

Lemma check_means_reads (X Y : ndarray) (w : world num) :
  snd (check_means mvo X Y w) = w.
Proof.
  unfold check_means. unfold bind at 1. unfold call at 1.
  destruct (model_list _ _) as [ms | e]; [|reflexivity].
  unfold bind at 1.
  match goal with
  | |- context [for_loop ?l ?acc ?body w] =>
      pose proof (@for_loop_reads _ _ _ l acc body w) as Hw;
      destruct (for_loop l acc body w) as [[r | e] wl]
  end; simpl in Hw |- *.
  - apply Hw. intros acc x w0. unfold bind, call, lift, ret.
    destruct (sample_design mvo (self w0) 2 "halton"); [|reflexivity].
    destruct (predict_y x a); reflexivity.
  - apply Hw. intros acc x w0. unfold bind, call, lift, ret.
    destruct (sample_design mvo (self w0) 2 "halton"); [|reflexivity].
    destruct (predict_y x a); reflexivity.
Qed.

(** *** The retry ladder of the model fit *)

Lemma keeps_bank_refl (w : world num) : keeps_bank w w.
Proof. repeat split. Qed.

Lemma keeps_bank_trans (w1 w2 w3 : world num) :
  keeps_bank w1 w2 -> keeps_bank w2 w3 -> keeps_bank w1 w3.
Proof. unfold keeps_bank. intuition congruence. Qed.

Lemma for_loop_keeps_bank (X A R : Type) (l : list X) (acc : A)
    (body : A -> X -> M num (flow A R)) (w : world num) :
  (forall acc x w, keeps_bank w (snd (body acc x w))) ->
  keeps_bank w (snd (for_loop l acc body w)).
Proof.
  intros Hb. revert acc w; induction l as [|x l IH]; intros acc w; simpl.
  - apply keeps_bank_refl.
  - unfold bind. specialize (Hb acc x w).
    destruct (body acc x w) as [[[acc' | v] | e] wb]; simpl in *; auto.
    eapply keeps_bank_trans; [exact Hb | apply IH].
Qed.

Lemma fit_column_keeps_bank (X Ys : ndarray) (variance : option num) (i : nat)
    (w : world num) :
  keeps_bank w (snd (fit_column mvo X Ys variance i w)).
Proof.
  unfold fit_column, bind, lift, call, assign, ret.
  destruct (outcome_bind _ _); simpl; [|apply keeps_bank_refl].
  destruct (fitmodel _ _ _ _ _); simpl; repeat split.
Qed.

Lemma generatemodels_keeps_bank (X Y : ndarray) (scale_flag : bool) (variance : num)
    (w : world num) :
  keeps_bank w (snd (generatemodels mvo X Y scale_flag variance w)).
Proof.
  unfold generatemodels.
  destruct (Np.shape Y) as [|n [|nobj [|? ?]]]; try apply keeps_bank_refl.
  unfold bind at 1. simpl.
  destruct scale_flag.
  - unfold bind at 1. unfold call at 1.
    destruct (scaley _ _ _) as [Ys | e]; simpl; [|repeat split].
    unfold bind at 1. simpl. unfold bind at 1. unfold call at 1. simpl.
    destruct (scaleX _ _ _ _) as [Xs | e]; simpl; [|repeat split].
    unfold bind at 1. simpl. unfold bind at 1.
    match goal with
    | |- context [for_loop ?l ?acc ?body ?w0] =>
        pose proof (@for_loop_keeps_bank _ _ _ l acc body w0) as Hl;
        destruct (for_loop l acc body w0) as [[[ms | ms] | e] wl]
    end; simpl in *;
      (eapply keeps_bank_trans; [|apply Hl; intros; unfold bind;
         match goal with
         | |- context [fit_column ?a ?b ?c ?d ?e ?f] =>
             pose proof (fit_column_keeps_bank b c d e f) as Hf;
             destruct (fit_column a b c d e f) as [[? | ?] ?]; simpl in *; exact Hf
         end]); repeat split.
  - unfold bind at 1.
    match goal with
    | |- context [for_loop ?l ?acc ?body ?w0] =>
        pose proof (@for_loop_keeps_bank _ _ _ l acc body w0) as Hl;
        destruct (for_loop l acc body w0) as [[[ms | ms] | e] wl]
    end; simpl in *;
      (eapply keeps_bank_trans; [|apply Hl; intros; unfold bind;
         match goal with
         | |- context [fit_column ?a ?b ?c ?d ?e ?f] =>
             pose proof (fit_column_keeps_bank b c d e f) as Hf;
             destruct (fit_column a b c d e f) as [[? | ?] ?]; simpl in *; exact Hf
         end]); repeat split.
Qed.

Lemma refit_run (X Y : ndarray) (variance : num) (w : world num) :
  refit mvo X Y variance w
  = match generatemodels mvo X Y true variance w with
    | (Ok ms, w1) => (Ok tt, assigned (set_models ms) w1)
    | (Raise e, w1) => (Raise e, w1)
    end.
Proof.
  unfold refit, bind. destruct (generatemodels _ _ _ _ _ _) as [[ms | e] w1];
    reflexivity.
Qed.

Lemma attempt_run (X Y : ndarray) (variance : num) (w : world num) :
  exists w', attempted X Y variance w w'
             /\ try_except (refit mvo X Y variance) (print variance_failed) w = (Ok tt, w').
Proof.
  unfold try_except. rewrite refit_run. unfold OptimiserSpec.attempted.
  destruct (generatemodels _ _ _ _ _ _) as [[ms | e] w1]; eexists; split;
    try reflexivity; eauto.
Qed.

Lemma retry_variances_run (X Y : ndarray) (w : world num) :
  exists w1 w2 w3 w4,
    attempted X Y (lit num (1 # 10)) w w1
    /\ attempted X Y (lit num 1) w1 w2
    /\ attempted X Y (lit num 2) w2 w3
    /\ attempted X Y (lit num 10) w3 w4
    /\ retry_variances mvo X Y w = (Ok tt, w4).
Proof.
  destruct (attempt_run X Y (lit num (1 # 10)) w) as (w1 & A1 & E1).
  destruct (attempt_run X Y (lit num 1) w1) as (w2 & A2 & E2).
  destruct (attempt_run X Y (lit num 2) w2) as (w3 & A3 & E3).
  destruct (attempt_run X Y (lit num 10) w3) as (w4 & A4 & E4).
  exists w1, w2, w3, w4. repeat (split; [assumption|]).
  unfold retry_variances. simpl. unfold bind.
  rewrite E1. simpl. rewrite E2. simpl. rewrite E3. simpl. rewrite E4. reflexivity.
Qed.

Lemma fit_models_default_kernel (X Y : ndarray) (w w1 : world num)
    (ms : option (list (Model num))) :
  generatemodels mvo X Y true (lit num 1) (assigned (set_k_type "matern3") w) = (Ok ms, w1) ->
  fit_models mvo X Y w = (Ok tt, assigned (set_models ms) w1).
Proof.
  intros H. unfold fit_models, try_except. unfold bind at 1. simpl.
  rewrite refit_run, H. reflexivity.
Qed.

Lemma fit_models_alternate_kernel (X Y : ndarray) (w w1 w2 : world num) (e : exn)
    (ms : option (list (Model num))) :
  generatemodels mvo X Y true (lit num 1) (assigned (set_k_type "matern3") w) = (Raise e, w1) ->
  generatemodels mvo X Y true (lit num 1)
    (assigned (set_k_type "matern5") (written kernel_failed w1)) = (Ok ms, w2) ->
  fit_models mvo X Y w = (Ok tt, assigned (set_models ms) w2).
Proof.
  intros H1 H2. unfold fit_models, try_except. unfold bind at 1. simpl.
  rewrite refit_run, H1. unfold bind at 1. simpl. unfold bind at 1. simpl.
  rewrite refit_run, H2. reflexivity.
Qed.

Lemma fit_models_variances (X Y : ndarray) (w w1 w2 : world num) (e1 e2 : exn) :
  generatemodels mvo X Y true (lit num 1) (assigned (set_k_type "matern3") w) = (Raise e1, w1) ->
  generatemodels mvo X Y true (lit num 1)
    (assigned (set_k_type "matern5") (written kernel_failed w1)) = (Raise e2, w2) ->
  fit_models mvo X Y w = retry_variances mvo X Y (written variance_failed w2).
Proof.
  intros H1 H2. unfold fit_models, try_except. unfold bind at 1. simpl.
  rewrite refit_run, H1. unfold bind at 1. simpl. unfold bind at 1. simpl.
  rewrite refit_run, H2. reflexivity.
Qed.

Lemma fit_models_returns (X Y : ndarray) (w : world num) :
  exists w', fit_models mvo X Y w = (Ok tt, w').
Proof.
  destruct (generatemodels mvo X Y true (lit num 1) (assigned (set_k_type "matern3") w))
    as [[ms | e1] w1] eqn:E1.
  - eexists. eapply fit_models_default_kernel, E1.
  - destruct (generatemodels mvo X Y true (lit num 1)
                (assigned (set_k_type "matern5") (written kernel_failed w1)))
      as [[ms | e2] w2] eqn:E2.
    + eexists. eapply fit_models_alternate_kernel; eassumption.
    + rewrite (fit_models_variances _ _ _ E1 E2).
      destruct (retry_variances_run X Y (written variance_failed w2))
        as (? & ? & ? & w6 & _ & _ & _ & _ & E).
      eauto.
Qed.

Lemma attempted_failed (X Y : ndarray) (variance : num) (w w' : world num) :
  (forall v w0, exists e w1, generatemodels mvo X Y true v w0 = (Raise e, w1)) ->
  attempted X Y variance w w' ->
  models (self w') = models (self w)
  /\ k_type (self w') = k_type (self w)
  /\ stdout w' = stdout w ++ [variance_failed].
Proof.
  intros Hall [(ms & w1 & H & _) | (e & w1 & H & ->)].
  - destruct (Hall variance w) as (e & w1' & H'). congruence.
  - pose proof (generatemodels_keeps_bank X Y true variance w) as K.
    rewrite H in K. destruct K as (K1 & K2 & K3). simpl in *.
    rewrite K3. auto.
Qed.

Lemma attempted_seen (X Y : ndarray) (variance : num) (w w' : world num) :
  attempted X Y variance w w' -> attempt_seen mvo X Y variance w w'.
Proof.
  pose proof (generatemodels_keeps_bank X Y true variance w) as K.
  intros [(ms & w1 & H & ->) | (e & w1 & H & ->)];
    rewrite H in K; destruct K as (K1 & K2 & K3);
    unfold attempt_seen; rewrite H; simpl in *; rewrite ?K3; auto.
Qed.

Lemma generatemodels_kernel (X Y : ndarray) (variance : num) (w w1 : world num)
    (r : outcome (option (list (Model num)))) :
  generatemodels mvo X Y true variance w = (r, w1) ->
  models (self w1) = models (self w)
  /\ k_type (self w1) = k_type (self w)
  /\ stdout w1 = stdout w.
Proof.
  intros H. pose proof (generatemodels_keeps_bank X Y true variance w) as K.
  rewrite H in K. exact K.
Qed.

Lemma fit_models_exhausted (X Y : ndarray) (w : world num) :
  (forall v w0, exists e w1, generatemodels mvo X Y true v w0 = (Raise e, w1)) ->
  exists w', fit_models mvo X Y w = (Ok tt, w')
             /\ models (self w') = models (self w)
             /\ k_type (self w') = "matern5"%string
             /\ stdout w' = stdout w ++ [kernel_failed; variance_failed; variance_failed;
                                         variance_failed; variance_failed; variance_failed].
Proof.
  intros Hall.
  destruct (Hall (lit num 1) (assigned (set_k_type "matern3") w)) as (e1 & w1 & E1).
  destruct (Hall (lit num 1) (assigned (set_k_type "matern5") (written kernel_failed w1)))
    as (e2 & w2 & E2).
  rewrite (fit_models_variances _ _ _ E1 E2).
  destruct (retry_variances_run X Y (written variance_failed w2))
    as (w3 & w4 & w5 & w6 & A1 & A2 & A3 & A4 & E).
  exists w6. split; [exact E|].
  pose proof (generatemodels_keeps_bank X Y true (lit num 1)
                (assigned (set_k_type "matern3") w)) as K1.
  rewrite E1 in K1. destruct K1 as (K1m & K1k & K1s).
  pose proof (generatemodels_keeps_bank X Y true (lit num 1)
                (assigned (set_k_type "matern5") (written kernel_failed w1))) as K2.
  rewrite E2 in K2. destruct K2 as (K2m & K2k & K2s).
  destruct (attempted_failed Hall A1) as (B1m & B1k & B1s).
  destruct (attempted_failed Hall A2) as (B2m & B2k & B2s).
  destruct (attempted_failed Hall A3) as (B3m & B3k & B3s).
  destruct (attempted_failed Hall A4) as (B4m & B4k & B4s).
  simpl in *. repeat split.
  - congruence.
  - congruence.
  - rewrite B4s, B3s, B2s, B1s, K2s, K1s. rewrite <- !app_assoc. reflexivity.
Qed.

(** *** Arrays of matching shapes *)

Lemma broadcast_rev_same (sh : list nat) : Np.broadcast_rev sh sh = Some sh.
Proof.
  induction sh as [|d sh IH]; simpl; [reflexivity|].
  now rewrite IH, Nat.eqb_refl.
Qed.

Lemma broadcast_shape_same (sh : list nat) : Np.broadcast_shape sh sh = Some sh.
Proof.
  unfold Np.broadcast_shape. rewrite broadcast_rev_same. simpl.
  now rewrite rev_involutive.
Qed.

Lemma broadcast_index_2 (n c i k : nat) :
  i < n -> k < c -> Np.broadcast_index [n; c] [i; k] = [i; k].
Proof.
  intros Hi Hk. unfold Np.broadcast_index. simpl.
  destruct (Nat.eqb_spec n 1), (Nat.eqb_spec c 1); repeat f_equal; lia.
Qed.

Lemma binary_same_shape (op : num -> num -> num) (a b : ndarray) (n c : nat) :
  Np.shape a = [n; c] -> Np.shape b = [n; c] ->
  exists r, Np.binary op a b = Ok r
            /\ Np.shape r = [n; c]
            /\ forall i k, i < n -> k < c ->
                 Np.at_ r [i; k] = op (Np.at_ a [i; k]) (Np.at_ b [i; k]).
Proof.
  intros Ha Hb. unfold Np.binary. rewrite Ha, Hb, broadcast_shape_same.
  eexists. split; [reflexivity|]. split; [reflexivity|].
  intros i k Hi Hk. simpl. now rewrite broadcast_index_2.
Qed.

Lemma locate_ones (n k : nat) : k < n -> Np.locate (repeat 1 n) k = (k, 0).
Proof.
  revert k; induction n as [|n IH]; intros k Hk; [lia|].
  simpl. destruct k as [|k]; [reflexivity|].
  simpl. rewrite Nat.sub_0_r, IH by lia. reflexivity.
Qed.

(** Joining columns: entry [(i, k)] of the result is entry [(i, 0)] of the
    [k]-th column. *)
Lemma concatenate_columns (l : list ndarray) (a : ndarray) (l' : list ndarray) (n : nat) :
  l = a :: l' -> Forall (fun b => Np.shape b = [n; 1]) l ->
  exists c, Np.concatenate_axis1 l = Ok c
            /\ Np.shape c = [n; length l]
            /\ forall i k, k < length l ->
                 Np.at_ c [i; k] = Np.at_ (nth k l a) [i; 0].
Proof.
  intros El Hl. unfold Np.concatenate_axis1.
  assert (Hw : map (fun b : ndarray => nth 1 (Np.shape b) 0) l = repeat 1 (length l)).
  { clear El. induction Hl as [|b l Hb _ IH]; simpl; [reflexivity|].
    now rewrite IH, Hb. }
  assert (Hd : forallb (fun b : ndarray => 2 <=? Np.ndim b) l = true).
  { apply forallb_forall. intros b Hb. rewrite Forall_forall in Hl.
    unfold Np.ndim. now rewrite (Hl b Hb). }
  assert (Ha : Np.shape a = [n; 1]).
  { rewrite Forall_forall in Hl. apply Hl. rewrite El. now left. }
  assert (He : forallb (fun b : ndarray =>
                          Np.shape_eqb (Np.drop_axis 1 (Np.shape b))
                                       (Np.drop_axis 1 (Np.shape a))) l = true).
  { apply forallb_forall. intros b Hb. rewrite Forall_forall in Hl.
    rewrite (Hl b Hb), Ha. simpl. now rewrite Nat.eqb_refl. }
  rewrite El in *. rewrite Hd, He, Hw, Ha.
  eexists. split; [reflexivity|]. split.
  - simpl. do 3 f_equal. clear. induction (length l') as [|m IH]; simpl; auto.
  - intros i k Hk. cbn [Np.at_].
    change (nth 1 [i; k] 0) with k.
    rewrite (locate_ones Hk). reflexivity.
Qed.

(** *** The probability of feasibility, entry by entry *)

Lemma fold_left_mul_map (g h : nat -> num) (l : list nat) (e : num) :
  (forall k, In k l -> g k = h k) ->
  fold_left (fun acc k => f_mul num acc (g k)) l e = fold_left (f_mul num) (map h l) e.
Proof.
  revert e; induction l as [|k l IH]; intros e H; simpl; [reflexivity|].
  rewrite (H k) by now left. apply IH. intros; apply H; now right.
Qed.

Lemma reshape_column (p : ndarray) (n : nat) :
  Np.shape p = [n] ->
  exists r, Np.reshape p [None; Some 1] = Ok r
            /\ Np.shape r = [n; 1]
            /\ forall i, Np.at_ r [i; 0] = Np.at_ p [i].
Proof.
  intros Hp. unfold Np.reshape, Np.size. rewrite Hp.
  unfold Np.resolve_shape. cbn -[Nat.div Nat.modulo].
  rewrite Nat.mul_1_r, Nat.mod_1_r, Nat.div_1_r. cbn -[Nat.div Nat.modulo].
  eexists. split; [reflexivity|]. split; [reflexivity|].
  intros i. cbn -[Nat.div Nat.modulo].
  rewrite Nat.mul_1_r, Nat.add_0_r, Nat.div_1_r. reflexivity.
Qed.

Lemma probability_of_feasibility_entries (ucon stdcon : ndarray) (n c : nat) :
  Np.shape ucon = [n; c] -> Np.shape stdcon = [n; c] ->
  exists PoF, probability_of_feasibility ucon stdcon = Ok PoF
              /\ Np.shape PoF = [n; 1]
              /\ forall i, i < n ->
                   Np.at_ PoF [i; 0]
                   = fold_left (f_mul num)
                       (map (fun k => feasible (Np.at_ ucon [i; k]) (Np.at_ stdcon [i; k]))
                            (seq 0 c))
                       (lit num 1).
Proof.
  intros Hu Hs. unfold probability_of_feasibility.
  destruct (@binary_same_shape (f_div num)
              (Np.map_array (f_sub num (lit num 0)) ucon) stdcon n c Hu Hs)
    as (z & Ez & Hz & Vz).
  unfold Np.div. rewrite Ez. simpl outcome_bind.
  unfold Np.prod_axis, Np.reduce. unfold Np.ndim. simpl Np.shape. rewrite Hz.
  simpl outcome_bind.
  match goal with
  | |- context [Np.reshape ?p _] =>
      destruct (@reshape_column p n eq_refl) as (r & Er & Hr & Vr)
  end.
  exists r. split; [exact Er|]. split; [exact Hr|].
  intros i Hi. rewrite Vr. cbn [Np.at_ nth].
  apply fold_left_mul_map. intros k Hk. apply in_seq in Hk.
  unfold Np.put_axis. simpl. rewrite Vz by (auto; lia).
  reflexivity.
Qed.

(** *** Querying a bank of models *)

Lemma model_at_app (field : MVMOO num -> option (option (list (Model num))))
    (me : MVMOO num) (done rest : list (Model num)) (m : Model num) :
  model_list field me = Ok (done ++ m :: rest) ->
  model_at field me (length done) = Ok m.
Proof.
  intros H. unfold model_at. rewrite H. simpl.
  rewrite nth_error_app2, Nat.sub_diag by lia. reflexivity.
Qed.

Lemma predict_all_from (predict : Model num -> ndarray -> outcome (ndarray * ndarray))
    (field : MVMOO num -> option (option (list (Model num))))
    (me : MVMOO num) (X : ndarray) (rest : list (Model num))
    (preds : list (ndarray * ndarray)) :
  Forall2 (fun m p => predict m X = Ok p) rest preds ->
  forall (done : list (Model num)) (acc : list ndarray * list ndarray),
    model_list field me = Ok (done ++ rest) ->
    outcome_fold
      (fun acc iobj =>
         mdl <~ model_at field me iobj ;;
         uv <~ predict mdl X ;;
         Ok (fst acc ++ [fst uv], snd acc ++ [snd uv]))
      (seq (length done) (length rest)) acc
    = Ok (fst acc ++ map fst preds, snd acc ++ map snd preds).
Proof.
  induction 1 as [|m p rest preds Hp _ IH]; intros done acc Hl; simpl.
  - now rewrite !app_nil_r, <- surjective_pairing.
  - rewrite (@model_at_app field me done rest m Hl). simpl. rewrite Hp. simpl.
    specialize (IH (done ++ [m]) (fst acc ++ [fst p], snd acc ++ [snd p])).
    rewrite length_app, Nat.add_1_r in IH. rewrite IH.
    + simpl. now rewrite <- !app_assoc.
    + now rewrite <- app_assoc.
Qed.

Lemma predict_all_run (predict : Model num -> ndarray -> outcome (ndarray * ndarray))
    (field : MVMOO num -> option (option (list (Model num))))
    (me : MVMOO num) (X : ndarray) (cm : list (Model num))
    (preds : list (ndarray * ndarray)) :
  model_list field me = Ok cm ->
  Forall2 (fun m p => predict m X = Ok p) cm preds ->
  predict_all predict field me X (length cm) = Ok (map fst preds, map snd preds).
Proof.
  intros Hl Hp. unfold predict_all.
  exact (@predict_all_from predict field me X cm preds Hp [] ([], []) Hl).
Qed.

Lemma map_nth_seq (A B : Type) (g : A -> B) (l : list A) (d : A) :
  map (fun k => g (nth k l d)) (seq 0 (length l)) = map g l.
Proof.
  induction l as [|x l IH]; simpl; [reflexivity|].
  f_equal. rewrite <- seq_shift, map_map. exact IH.
Qed.

(** *** [CEIM_Hypervolume], entry by entry *)

Lemma feasibility_entries (me : MVMOO num) (X : ndarray) (n : nat)
    (cm : list (Model num)) (preds : list (ndarray * ndarray)) :
  constrainedmodels me = Some (Some cm) -> cm <> [] ->
  Forall2 (posterior X n) cm preds ->
  exists PoF, feasibility me X = Ok PoF
              /\ Np.shape PoF = [n; 1]
              /\ forall i, i < n -> Np.at_ PoF [i; 0] = PoF_at preds i.
Proof.
  intros Hc Hne Hp.
  assert (Hl : model_list (@constrainedmodels num) me = Ok cm).
  { unfold model_list, attribute. now rewrite Hc. }
  assert (Hlen : length preds = length cm) by (symmetry; eapply Forall2_length, Hp).
  unfold feasibility. rewrite Hl. simpl outcome_bind.
  rewrite (@predict_all_run (@predict_y num) (@constrainedmodels num) me X cm preds Hl).
  2:{ eapply Forall2_impl; [|exact Hp]. intros m p H. apply H. }
  simpl outcome_bind.
  destruct preds as [|p0 preds0] eqn:Ep.
  { destruct cm; [congruence | discriminate]. }
  rewrite <- Ep in *.
  assert (Hu : Forall (fun b : ndarray => Np.shape b = [n; 1]) (map fst preds)).
  { apply Forall_map. clear -Hp. induction Hp as [|m p cm preds H _ IH]; constructor; auto.
    apply H. }
  assert (Hv : Forall (fun b : ndarray => Np.shape b = [n; 1]) (map snd preds)).
  { apply Forall_map. clear -Hp. induction Hp as [|m p cm preds H _ IH]; constructor; auto.
    apply H. }
  destruct (@concatenate_columns (map fst preds) (fst p0) (map fst preds0) n)
    as (ucon & Eu & Su & Vu); [now rewrite Ep | exact Hu |].
  destruct (@concatenate_columns (map snd preds) (snd p0) (map snd preds0) n)
    as (varcon & Ev & Sv & Vv); [now rewrite Ep | exact Hv |].
  rewrite Eu. simpl outcome_bind. rewrite Ev. simpl outcome_bind.
  rewrite length_map in Su, Sv.
  destruct (@probability_of_feasibility_entries ucon (std_of varcon) n (length preds))
    as (PoF & EP & SP & VP); [exact Su | exact Sv |].
  exists PoF. split; [exact EP|]. split; [exact SP|].
  intros i Hi. rewrite (VP i Hi). unfold PoF_at. f_equal.
  rewrite <- (map_nth_seq (fun p => feasible (Np.at_ (fst p) [i; 0]) (sigma p i))
                preds p0).
  apply map_ext_in. intros k Hk. apply in_seq in Hk.
  rewrite Vu by (rewrite length_map; lia).
  unfold sigma, std_of. cbn [Np.at_ Np.map_array].
  rewrite Vv by (rewrite length_map; lia).
  rewrite <- (map_nth fst preds p0 k), <- (map_nth snd preds p0 k). reflexivity.
Qed.

Lemma set_item_fold_shape (body : nat -> outcome num) (l : list nat) (y y' : ndarray) :
  outcome_fold (fun y ix => v <~ body ix ;; Ok (set_item y ix v)) l y = Ok y' ->
  Np.shape y' = Np.shape y.
Proof.
  revert y; induction l as [|ix l IH]; intros y H; simpl in H.
  - now injection H as <-.
  - destruct (body ix) as [v | e]; simpl in H; [|discriminate].
    now rewrite (IH _ H).
Qed.

Lemma hypervolume_improvement_shape (me : MVMOO num) (X y : ndarray) (n : nat) :
  nth_error (Np.shape X) 0 = Some n ->
  hypervolume_improvement me X = Ok y -> Np.shape y = [n; 1].
Proof.
  intros Hn H. unfold hypervolume_improvement in H.
  apply outcome_bind_Ok in H. destruct H as (f & _ & H).
  apply outcome_bind_Ok in H. destruct H as (nobj & _ & H).
  apply outcome_bind_Ok in H. destruct H as (nx & Hnx & H).
  apply shape_at_Ok in Hnx. rewrite Hn in Hnx. injection Hnx as <-.
  do 3 (apply outcome_bind_Ok in H; destruct H as (? & _ & H)).
  now apply set_item_fold_shape in H.
Qed.

Lemma CEIM_entries (me : MVMOO num) (X y : ndarray) (n : nat)
    (cm : list (Model num)) (preds : list (ndarray * ndarray)) :
  nth_error (Np.shape X) 0 = Some n ->
  hypervolume_improvement me X = Ok y ->
  constrainedmodels me = Some (Some cm) -> cm <> [] ->
  Forall2 (posterior X n) cm preds ->
  exists out, CEIM_Hypervolume me X = Ok out
              /\ Np.shape out = [n; 1]
              /\ forall i, i < n ->
                   Np.at_ out [i; 0] = f_mul num (Np.at_ y [i; 0]) (PoF_at preds i).
Proof.
  intros Hn Hy Hc Hne Hp.
  destruct (feasibility_entries me Hc Hne Hp) as (PoF & EP & SP & VP).
  pose proof (@hypervolume_improvement_shape me X y n Hn Hy) as Sy.
  destruct (@binary_same_shape (f_mul num) y PoF n 1 Sy SP) as (out & Eo & So & Vo).
  exists out. split; [|split; [exact So|]].
  - unfold CEIM_Hypervolume. rewrite Hy. simpl. rewrite EP. simpl. exact Eo.
  - intros i Hi. rewrite Vo by lia. now rewrite VP.
Qed.

(** *** The refinement step of 'Random Local' *)

Lemma acquisition_run (constraints : option ndarray) (mode : string) (Xsamples : ndarray)
    (w : world num) :
  acquisition mvo constraints mode Xsamples w
  = (acquire (self w) constraints mode Xsamples, w).
Proof. destruct constraints; reflexivity. Qed.

(** The objective handed to the minimiser is the acquisition, negated. *)
Lemma wrapper_negates (me : MVMOO num) (Xcont Xqual : ndarray)
    (constraints : option ndarray) (mode : string) (a : ndarray) :
  EIMoptimiserWrapper mvo me Xcont Xqual constraints mode = Ok a ->
  exists X v, join_point Xcont Xqual = Ok X
              /\ acquire me constraints mode X = Ok v
              /\ Np.first a = f_neg num (Np.first v).
Proof.
  unfold EIMoptimiserWrapper. intros H.
  apply outcome_bind_Ok in H. destruct H as (X & HX & H).
  exists X. destruct constraints as [c|]; simpl in *.
  - apply outcome_bind_Ok in H. destruct H as (v & Hv & H).
    injection H as <-. exists v. auto.
  - apply outcome_bind_Ok in H. destruct H as (v & Hv & H).
    injection H as <-. exists v. auto.
Qed.

Lemma random_local_single (constraints : option ndarray) (mode : string) (w : world num)
    (Xsamples fvals xmax qual x0 : ndarray) (fmax : num) (bndlist : list (list num))
    (result : OptimizeResult num) :
  mode <> "all"%string ->
  sample_design mvo (self w) 10000%N "halton" = Ok Xsamples ->
  acquire (self w) constraints mode Xsamples = Ok fvals ->
  best_sample fvals Xsamples = Ok (fmax, xmax) ->
  Np.slice_axis xmax 0 (fun _ => num_quant (self w)) (fun d => d) = Ok qual ->
  continuous_bounds (self w) = Ok bndlist ->
  Np.slice_axis xmax 0 (fun _ => 0) (fun _ => num_quant (self w)) = Ok x0 ->
  minimize_SLSQP lib
    (fun Xcont => EIMoptimiserWrapper mvo (self w) Xcont qual constraints mode)
    (Np.flatten x0) bndlist = Ok result ->
  EIMmixedoptimiser mvo lib constraints "Random Local" true mode w
  = (Ok (PyTuple [PyFloat (res_fun result);
                  PyArray (Np.concatenate_flat (res_x result) qual)]), w).
Proof.
  intros Hm Hs Ha Hb Hq Hbd Hx Hr. apply String.eqb_neq in Hm.
  unfold EIMmixedoptimiser.
  change (String.eqb "Random Local" "Random") with false.
  change (String.eqb "Random Local" "Random Local") with true.
  cbv iota.
  unfold bind at 1. unfold call at 1. rewrite Hs.
  unfold bind at 1. rewrite acquisition_run, Ha. rewrite Hm.
  unfold bind at 1. unfold lift at 1. rewrite Hb. cbn [snd fst].
  unfold bind at 1. unfold call at 1. rewrite Hq.
  unfold bind at 1. unfold call at 1. rewrite Hbd.
  unfold bind at 1. unfold call at 1. rewrite Hx. simpl outcome_bind. rewrite Hr.
  reflexivity.
Qed.

End Facts.

End OptimiserFacts.

(** ** Feasibility weighting over the reals (C6) *)

Module FeasibilityFacts.
Import Optimiser OptimiserSpec OptimiserFacts.

Section Weighting.

Variables Phi phi : R -> R.
Hypothesis normal : distribution Phi phi.

Abbreviation num := (real_numeric Phi phi).
Abbreviation ndarray := (Np.ndarray num).

Lemma product_monotone (l l' : list R) (e e' : R) :
  Forall2 (fun a b => 0 <= a <= b)%R l l' -> (0 <= e <= e')%R ->
  (0 <= fold_left Rmult l e <= fold_left Rmult l' e')%R.
Proof.
  intros H; revert e e'; induction H as [|a b l l' Hab _ IH]; intros e e' He; simpl.
  - exact He.
  - apply IH. split; [apply Rmult_le_pos; lra|].
    apply Rmult_le_compat; lra.
Qed.

Lemma feasible_monotone (u u' s : R) :
  (u <= u')%R -> (0 < s)%R ->
  (0 <= feasible num u' s <= feasible num u s)%R.
Proof.
  intros Hu Hs. unfold feasible. simpl. split.
  - apply (cdf_range normal).
  - apply (cdf_monotone normal). rewrite RMicromega.Q2R_0.
    unfold Rdiv. apply Rmult_le_compat_r; [|lra].
    left. now apply Rinv_0_lt_compat.
Qed.

Lemma PoF_monotone (n i : nat) (preds preds' : list (ndarray * ndarray)) :
  i < n -> means_raised n preds preds' ->
  (forall p, In p preds -> 0 < sigma p i)%R ->
  (0 <= PoF_at preds' i <= PoF_at preds i)%R.
Proof.
  intros Hi Hr Hs. unfold PoF_at. apply product_monotone.
  - induction Hr as [|p p' preds preds' Hp _ IH]; cbn [map]; constructor.
    + destruct (Hp i Hi) as [Hu Hv].
      assert (E : sigma p' i = sigma p i).
      { unfold sigma. unfold Np.entry in Hv. now rewrite Hv. }
      rewrite E. apply feasible_monotone; [exact Hu|].
      apply Hs. now left.
    + apply IH. intros q Hq. apply Hs. now right.
  - simpl. rewrite RMicromega.Q2R_1. lra.
Qed.

(** The two runs of [CEIM_Hypervolume], before and after the constraint
    means are raised, candidate by candidate. *)
Lemma feasibility_weighting_each (me : MVMOO num) (X y : ndarray) (n : nat)
    (cm cm' : list (Model num)) (preds preds' : list (ndarray * ndarray)) :
  nth_error (Np.shape X) 0 = Some n ->
  hypervolume_improvement me X = Ok y ->
  constrainedmodels me = Some (Some cm) -> cm <> [] ->
  Forall2 (posterior X n) cm preds ->
  Forall2 (posterior X n) cm' preds' ->
  means_raised n preds preds' ->
  exists out out',
    CEIM_Hypervolume me X = Ok out
    /\ CEIM_Hypervolume (set_constrainedmodels (Some cm') me) X = Ok out'
    /\ forall i, i < n ->
         Np.entry out i = (Np.entry y i * PoF_at preds i)%R
         /\ Np.entry out' i = (Np.entry y i * PoF_at preds' i)%R
         /\ (positive_spread preds i ->
             (PoF_at preds' i <= PoF_at preds i)%R
             /\ ((0 <= Np.entry y i)%R -> (Np.entry out' i <= Np.entry out i)%R)
             /\ ((Np.entry y i <= 0)%R -> (Np.entry out i <= Np.entry out' i)%R)).
Proof.
  intros Hn Hy Hc Hne Hp Hp' Hr.
  assert (Hne' : cm' <> []).
  { intros ->. inversion Hp'; subst. inversion Hr; subst.
    inversion Hp; subst. congruence. }
  destruct (@CEIM_entries num me X y n cm preds Hn Hy Hc Hne Hp) as (out & Eo & _ & Vo).
  destruct (@CEIM_entries num (set_constrainedmodels (Some cm') me) X y n cm' preds'
              Hn Hy eq_refl Hne' Hp') as (out' & Eo' & _ & Vo').
  exists out, out'. split; [exact Eo|]. split; [exact Eo'|].
  intros i Hi.
  assert (E : Np.entry out i = (Np.entry y i * PoF_at preds i)%R) by now apply Vo.
  assert (E' : Np.entry out' i = (Np.entry y i * PoF_at preds' i)%R) by now apply Vo'.
  split; [exact E|]. split; [exact E'|].
  intros Hs. destruct (PoF_monotone Hi Hr Hs) as [_ Hm].
  split; [exact Hm|]. rewrite E, E'. split; intros Hy0; nra.
Qed.

End Weighting.

End FeasibilityFacts.

(** ** The model bank, the retry ladder and the dispatch (C3, C4, C5, C9, C10) *)

Section ControllerClaims.
Import Optimiser OptimiserSpec OptimiserFacts.

Variable num : Numeric.
Variable mvo : MVO num.
Variable lib : Library num.

(** C3: on a matrix [Y] of [k] columns [generatemodels] returns [k] models
    when it scales, but with [scale=False], the call that builds the
    constraint bank, it returns after the first column: one model when
    [k >= 1], and [None] when [k = 0]. *)
Theorem generatemodels_bank_size (X Y : Np.ndarray num) (variance : num) (n k : nat)
    (w : world num) :
  Np.shape Y = [n; k] ->
  (forall r w', generatemodels mvo X Y true variance w = (Ok r, w') ->
                exists ms, r = Some ms /\ length ms = k)
  /\ (forall r w', generatemodels mvo X Y false variance w = (Ok r, w') ->
                   (k = 0 /\ r = None) \/ (0 < k /\ exists m, r = Some [m])).
Proof.
  intros Hs. split; intros r w' H.
  - exact (generatemodels_scaled_length mvo X Y variance w Hs H).
  - exact (generatemodels_unscaled mvo X Y variance w Hs H).
Qed.

(** C4: the check of the predicted means changes nothing: whatever the
    models predict, NaN included, the test [np.any(means == np.nan)] is
    false, so no refit happens, nothing is printed and the bank stays. *)
Theorem check_means_never_refits (X Y : Np.ndarray num) (w : world num) :
  (forall means : list (Np.ndarray num), np_any (list_eq_float means (f_nan num)) = false)
  /\ snd (check_means mvo X Y w) = w.
Proof. split; [reflexivity | apply check_means_reads]. Qed.

(** C5: the fit never raises. The default kernel 'matern3' is in force for
    the first attempt, and its success ends the phase with the fitted list
    in [self.models]; else the alternate kernel 'matern5' is in force for one
    more attempt, with the same ending on success; else each of the variances
    0.1, 1, 2, 10 is tried in turn under 'matern5', whatever the earlier ones
    gave, a success putting its list in [self.models] and a failure leaving
    [self.models] alone; and when every attempt raises the phase still
    returns, [self.models] being what it was at the start. *)
Theorem fit_models_retry_ladder (X Y : Np.ndarray num) (w : world num) :
  (exists w', fit_models mvo X Y w = (Ok tt, w'))
  /\ (forall ms w1,
        generatemodels mvo X Y true (lit num 1) (assigned (set_k_type "matern3") w)
        = (Ok ms, w1) ->
        fit_models mvo X Y w = (Ok tt, assigned (set_models ms) w1)
        /\ k_type (self w1) = "matern3"%string
        /\ exists w', fit_models mvo X Y w = (Ok tt, w')
                      /\ models (self w') = Some ms
                      /\ k_type (self w') = "matern3"%string
                      /\ stdout w' = stdout w)
  /\ (forall e w1 ms w2,
        generatemodels mvo X Y true (lit num 1) (assigned (set_k_type "matern3") w)
        = (Raise e, w1) ->
        generatemodels mvo X Y true (lit num 1)
          (assigned (set_k_type "matern5") (written kernel_failed w1))
        = (Ok ms, w2) ->
        fit_models mvo X Y w = (Ok tt, assigned (set_models ms) w2)
        /\ k_type (self w1) = "matern3"%string
        /\ k_type (self w2) = "matern5"%string
        /\ exists w', fit_models mvo X Y w = (Ok tt, w')
                      /\ models (self w') = Some ms
                      /\ k_type (self w') = "matern5"%string
                      /\ stdout w' = stdout w ++ [kernel_failed])
  /\ (forall e1 w1 e2 w2,
        generatemodels mvo X Y true (lit num 1) (assigned (set_k_type "matern3") w)
        = (Raise e1, w1) ->
        generatemodels mvo X Y true (lit num 1)
          (assigned (set_k_type "matern5") (written kernel_failed w1))
        = (Raise e2, w2) ->
        exists w3 w4 w5 w6,
          k_type (self (written variance_failed w2)) = "matern5"%string
          /\ models (self (written variance_failed w2)) = models (self w)
          /\ stdout (written variance_failed w2)
             = stdout w ++ [kernel_failed; variance_failed]
          /\ attempted mvo X Y (lit num (1 # 10)) (written variance_failed w2) w3
          /\ attempted mvo X Y (lit num 1) w3 w4
          /\ attempted mvo X Y (lit num 2) w4 w5
          /\ attempted mvo X Y (lit num 10) w5 w6
          /\ attempt_seen mvo X Y (lit num (1 # 10)) (written variance_failed w2) w3
          /\ attempt_seen mvo X Y (lit num 1) w3 w4
          /\ attempt_seen mvo X Y (lit num 2) w4 w5
          /\ attempt_seen mvo X Y (lit num 10) w5 w6
          /\ k_type (self w6) = "matern5"%string
          /\ fit_models mvo X Y w = (Ok tt, w6))
  /\ ((forall v w0, exists e w1, generatemodels mvo X Y true v w0 = (Raise e, w1)) ->
      exists w', fit_models mvo X Y w = (Ok tt, w')
                 /\ models (self w') = models (self w)
                 /\ k_type (self w') = "matern5"%string
                 /\ stdout w' = stdout w ++ [kernel_failed; variance_failed;
                                             variance_failed; variance_failed;
                                             variance_failed; variance_failed]).
Proof.
  split; [apply fit_models_returns|].
  split.
  { intros ms w1 H.
    destruct (generatemodels_kernel mvo X Y _ _ H) as (_ & K & S).
    split; [now apply fit_models_default_kernel|]. split; [exact K|].
    exists (assigned (set_models ms) w1).
    split; [now apply fit_models_default_kernel|]. repeat split; assumption. }
  split.
  { intros e w1 ms w2 H1 H2.
    destruct (generatemodels_kernel mvo X Y _ _ H1) as (_ & K1 & S1).
    destruct (generatemodels_kernel mvo X Y _ _ H2) as (_ & K2 & S2).
    split; [now apply fit_models_alternate_kernel with w1 e|].
    split; [exact K1|]. split; [exact K2|].
    exists (assigned (set_models ms) w2).
    split; [now apply fit_models_alternate_kernel with w1 e|].
    split; [reflexivity|]. split; [exact K2|].
    simpl in S1, S2. simpl. now rewrite S2, S1. }
  split.
  - intros e1 w1 e2 w2 H1 H2.
    destruct (generatemodels_kernel mvo X Y _ _ H1) as (M1 & K1 & S1).
    destruct (generatemodels_kernel mvo X Y _ _ H2) as (M2 & K2 & S2).
    rewrite (fit_models_variances mvo X Y w H1 H2).
    destruct (retry_variances_run mvo X Y (written variance_failed w2))
      as (w3 & w4 & w5 & w6 & A1 & A2 & A3 & A4 & E).
    pose proof (attempted_seen A1) as B1. pose proof (attempted_seen A2) as B2.
    pose proof (attempted_seen A3) as B3. pose proof (attempted_seen A4) as B4.
    exists w3, w4, w5, w6.
    assert (K : k_type (self (written variance_failed w2)) = "matern5"%string)
      by exact K2.
    split; [exact K|].
    simpl in M1, M2, S1, S2.
    split; [simpl; congruence|].
    split; [simpl; rewrite S2, S1, <- app_assoc; reflexivity|].
    repeat (split; [assumption|]).
    split; [|exact E].
    destruct B1 as [B1 _], B2 as [B2 _], B3 as [B3 _], B4 as [B4 _]. congruence.
  - intros Hall. destruct (fit_models_exhausted mvo X Y w Hall) as (w' & E & Hm & Hk & Hs).
    exists w'. auto.
Qed.

(** C9: [EIMmixedoptimiser] raises [NotImplementedError] at once for a name
    other than 'Random' and 'Random Local'; [AEIMmixedoptimiser] does not:
    for a name other than its four it computes the contextual offset and
    returns [None]. *)
Theorem unknown_algorithm_dispatch (constraints : option (Np.ndarray num))
    (algorithm : string) (values_none : bool) (mode : string) (w : world num) :
  algorithm <> "Random"%string -> algorithm <> "Random Local"%string ->
  EIMmixedoptimiser mvo lib constraints algorithm values_none mode w
  = (Raise NotImplementedError, w)
  /\ (algorithm <> "SHGO"%string -> algorithm <> "DE"%string ->
      AEIMmixedoptimiser mvo lib constraints algorithm values_none w
      = bind (estimate_contextual mvo) (fun _ => ret PyNone) w).
Proof.
  intros H1 H2. split.
  - now apply EIMmixedoptimiser_unknown.
  - intros H3 H4. now apply AEIMmixedoptimiser_unknown.
Qed.

(** C10: the reference vector reshapes to (1,2,1) exactly when there are two
    objectives, and so [EIM] in a mode that computes the hypervolume score,
    and [AEIM_Hypervolume], raise unless the front has two objectives. *)
Theorem hypervolume_needs_two_objectives :
  (forall nobj,
     (exists r3, Np.reshape (reference num nobj) [Some 1; Some 2; Some 1] = Ok r3)
     <-> nobj = 2)
  /\ (forall (me : MVMOO num) (X : Np.ndarray num) (mode : string),
        uses_hypervolume mode -> ~ two_objectives me ->
        exists e, EIM mvo me X mode = Raise e)
  /\ (forall (me : MVMOO num) (X : Np.ndarray num),
        ~ two_objectives me -> exists e, AEIM_Hypervolume me X = Raise e).
Proof.
  split; [apply reference_reshape|]. split.
  - intros me X mode Hm Hn.
    destruct (EIM mvo me X mode) as [v | e] eqn:E; [|eauto].
    elim Hn. eapply EIM_Ok_two_objectives; eassumption.
  - intros me X Hn.
    destruct (AEIM_Hypervolume me X) as [v | e] eqn:E; [|eauto].
    elim Hn. eapply AEIM_Hypervolume_Ok_two_objectives; eassumption.
Qed.

(** C7, amended: in 'Random Local' mode with a single criterion the
    optimiser returns the refined continuous coordinates joined with the
    qualitative part of the best sample, together with [result.fun], the
    minimiser's objective: the acquisition value at the returned point with
    its sign reversed. *)
Theorem random_local_returns_negated_value (constraints : option (Np.ndarray num))
    (mode : string) (w : world num) (Xsamples fvals xmax qual x0 : Np.ndarray num)
    (fmax : num) (bndlist : list (list num)) (result : OptimizeResult num) :
  mode <> "all"%string ->
  sample_design mvo (self w) 10000%N "halton" = Ok Xsamples ->
  acquire mvo (self w) constraints mode Xsamples = Ok fvals ->
  best_sample fvals Xsamples = Ok (fmax, xmax) ->
  Np.slice_axis xmax 0 (fun _ => num_quant (self w)) (fun d => d) = Ok qual ->
  continuous_bounds (self w) = Ok bndlist ->
  Np.slice_axis xmax 0 (fun _ => 0) (fun _ => num_quant (self w)) = Ok x0 ->
  minimize_SLSQP lib
    (fun Xcont => EIMoptimiserWrapper mvo (self w) Xcont qual constraints mode)
    (Np.flatten x0) bndlist = Ok result ->
  (exists a, EIMoptimiserWrapper mvo (self w) (res_x result) qual constraints mode = Ok a
             /\ Np.first a = res_fun result) ->
  EIMmixedoptimiser mvo lib constraints "Random Local" true mode w
  = (Ok (PyTuple [PyFloat (res_fun result);
                  PyArray (Np.concatenate_flat (res_x result) qual)]), w)
  /\ exists X v, join_point (res_x result) qual = Ok X
                 /\ acquire mvo (self w) constraints mode X = Ok v
                 /\ res_fun result = f_neg num (Np.first v).
Proof.
  intros Hm Hs Ha Hb Hq Hbd Hx Hr (a & Hw & Hf). split.
  - eapply random_local_single; eassumption.
  - destruct (wrapper_negates mvo _ _ _ _ _ Hw) as (X & v & HX & Hv & Hn).
    exists X, v. repeat split; auto. congruence.
Qed.

End ControllerClaims.

(** *** The same on the small optimiser *)

Section ControllerWitnesses.
Import Optimiser OptimiserSpec OptimiserFacts UniformSample.

(** On a constraint matrix of two columns the bank has one model. *)
Lemma generatemodels_bank_size_witness :
  exists m, fst (generatemodels mvo origin origin false (lit num 1) (start fresh))
            = Ok (Some [m]).
Proof.
  destruct (@generatemodels_bank_size num mvo origin origin (lit num 1) 1 2
              (start fresh) eq_refl) as [_ H].
  destruct (generatemodels mvo origin origin false (lit num 1) (start fresh))
    as [[r | e] w'] eqn:E.
  - destruct (H r w' eq_refl) as [[E0 _] | [_ (m & ->)]]; [discriminate E0|].
    exists m. reflexivity.
  - lazy in E. discriminate E.
Defined.

(** The same matrix as objectives, scaled: one model per column. *)
Example generatemodels_scaled_two_columns :
  exists m1 m2, fst (generatemodels mvo origin origin true (lit num 1) (start fresh))
                = Ok (Some [m1; m2]).
Proof. eexists. eexists. vm_compute. reflexivity. Qed.

Lemma failing_fit_always_raises (v : num) (w0 : world num) :
  exists e w1, generatemodels failing_mvo origin origin true v w0 = (Raise e, w1).
Proof. eexists. eexists. reflexivity. Qed.

(** The fit that needs a variance above 1, at any variance and in any state. *)
Lemma variance_fit (v : num) (w0 : world num) :
  fst (generatemodels variance_mvo origin origin true v w0)
  = if Rlt_dec 1 v then Ok (Some [constant_model 0 v; constant_model 0 v])
    else Raise (ExternalError "fitmodel").
Proof.
  cbv -[Rlt_dec Q2R IZR Rplus Rmult Ropp Rinv]. destruct (Rlt_dec 1 v); reflexivity.
Qed.

Lemma variances_tried :
  (~ 1 < Q2R (1 # 10))%R /\ (~ 1 < Q2R 1)%R /\ (1 < Q2R 2)%R /\ (1 < Q2R 10)%R.
Proof. unfold Q2R. simpl. repeat split; lra. Qed.

(** The four ways through the ladder: a fit that converges at once; one that
    needs the alternate kernel; one that needs a variance above 1, where the
    attempts with 0.1 and 1 fail and those with 2 and 10 both overwrite the
    bank; and one that never converges. *)
Lemma fit_models_retry_ladder_witness :
  (exists w', fit_models mvo origin origin (start fresh) = (Ok tt, w')
              /\ models (self w') = Some (Some [constant_model 0 1; constant_model 0 1])
              /\ k_type (self w') = "matern3"%string
              /\ stdout w' = [])
  /\ (exists w', fit_models kernel_mvo origin origin (start fresh) = (Ok tt, w')
                 /\ models (self w') = Some (Some [constant_model 0 1; constant_model 0 1])
                 /\ k_type (self w') = "matern5"%string
                 /\ stdout w' = [kernel_failed])
  /\ (exists w', fit_models variance_mvo origin origin (start fresh) = (Ok tt, w')
                 /\ models (self w')
                    = Some (Some [constant_model 0 (Q2R 10); constant_model 0 (Q2R 10)])
                 /\ k_type (self w') = "matern5"%string
                 /\ stdout w' = [kernel_failed; variance_failed; variance_failed;
                                 variance_failed])
  /\ (exists w', fit_models failing_mvo origin origin (start fresh) = (Ok tt, w')
                 /\ models (self w') = None
                 /\ k_type (self w') = "matern5"%string
                 /\ length (stdout w') = 6).
Proof.
  split; [|split; [|split]].
  - destruct (@fit_models_retry_ladder num mvo origin origin (start fresh))
      as (_ & H & _).
    destruct (H _ _ eq_refl) as (_ & _ & w' & E & Hm & Hk & Hs).
    exists w'. repeat split; assumption.
  - destruct (@fit_models_retry_ladder num kernel_mvo origin origin (start fresh))
      as (_ & _ & H & _).
    destruct (H _ _ _ _ eq_refl eq_refl) as (_ & _ & _ & w' & E & Hm & Hk & Hs).
    exists w'. repeat split; assumption.
  - destruct variances_tried as (V1 & V2 & V3 & V4).
    destruct (@fit_models_retry_ladder num variance_mvo origin origin (start fresh))
      as (_ & _ & _ & H & _).
    destruct (generatemodels variance_mvo origin origin true (lit num 1)
                (assigned (set_k_type "matern3") (start fresh))) as [[ms | e1] w1] eqn:E1.
    { pose proof (variance_fit (lit num 1) (assigned (set_k_type "matern3") (start fresh)))
        as F. rewrite E1 in F. simpl in F.
      destruct (Rlt_dec 1 (Q2R 1)); [contradiction | discriminate]. }
    destruct (generatemodels variance_mvo origin origin true (lit num 1)
                (assigned (set_k_type "matern5") (written kernel_failed w1)))
      as [[ms | e2] w2] eqn:E2.
    { pose proof (variance_fit (lit num 1)
                    (assigned (set_k_type "matern5") (written kernel_failed w1))) as F.
      rewrite E2 in F. simpl in F.
      destruct (Rlt_dec 1 (Q2R 1)); [contradiction | discriminate]. }
    destruct (H _ _ _ _ eq_refl E2)
      as (w3 & w4 & w5 & w6 & _ & _ & S0 & _ & _ & _ & _ & B1 & B2 & B3 & B4 & K & E).
    destruct B1 as [_ B1], B2 as [_ B2], B3 as [_ B3], B4 as [_ B4].
    rewrite variance_fit in B1, B2, B3, B4. simpl in B1, B2, B3, B4.
    destruct (Rlt_dec 1 (Q2R (1 # 10))); [contradiction|].
    destruct (Rlt_dec 1 (Q2R 1)); [contradiction|].
    destruct (Rlt_dec 1 (Q2R 2)); [|contradiction].
    destruct (Rlt_dec 1 (Q2R 10)); [|contradiction].
    destruct B1 as [_ B1], B2 as [_ B2], B3 as [_ B3], B4 as [B4m B4].
    exists w6. split; [exact E|]. split; [exact B4m|]. split; [exact K|].
    simpl in S0. rewrite B4, B3, B2, B1, S0. reflexivity.
  - destruct (proj2 (proj2 (proj2 (proj2
                (@fit_models_retry_ladder num failing_mvo origin origin (start fresh)))))
                failing_fit_always_raises) as (w' & E & Hm & Hk & Hs).
    exists w'. split; [exact E|]. split; [exact Hm|]. split; [exact Hk|].
    rewrite Hs. reflexivity.
Defined.

(** 'Simplical' is what the constrained path asks for: the one raises, the
    other returns [None]. *)
Lemma unknown_algorithm_dispatch_witness :
  fst (EIMmixedoptimiser mvo lib None "Simplical" true "euclidean" (start two_objective))
  = Raise NotImplementedError
  /\ fst (AEIMmixedoptimiser mvo lib None "Simplical" true (start two_objective))
     = Ok PyNone.
Proof.
  destruct (@unknown_algorithm_dispatch num mvo lib None "Simplical" true "euclidean"
              (start two_objective)) as [H1 H2]; try discriminate.
  rewrite H1, H2 by discriminate. split; reflexivity.
Defined.

Lemma three_objective_front : ~ two_objectives three_objective.
Proof. intros (f & Hf & Hn). injection Hf as <-. discriminate Hn. Qed.

(** With three objectives the hypervolume mode raises, the Euclidean mode
    does not. *)
Lemma hypervolume_needs_two_objectives_witness :
  exists e, EIM mvo three_objective origin "hypervolume" = Raise e.
Proof.
  apply (proj1 (proj2 (@hypervolume_needs_two_objectives num mvo))).
  - split; discriminate.
  - exact three_objective_front.
Defined.

Example euclidean_takes_three_objectives :
  exists v, EIM mvo three_objective origin "euclidean" = Ok v.
Proof. eexists. vm_compute. reflexivity. Qed.

Example hypervolume_takes_two_objectives :
  exists v, EIM mvo two_objective origin "hypervolume" = Ok v.
Proof. eexists. vm_compute. reflexivity. Qed.

End ControllerWitnesses.

(** ** Feasibility weighting (C6) *)

Section FeasibilityClaims.
Import Optimiser OptimiserSpec OptimiserFacts FeasibilityFacts UniformSample.

Lemma uniform_distribution : distribution uniform_cdf uniform_pdf.
Proof.
  split.
  - intros a b H. unfold uniform_cdf.
    apply Rle_max_compat_l, Rle_min_compat_l. lra.
  - intros a. unfold uniform_cdf. split; [apply Rmax_l|].
    apply Rmax_lub; [lra | apply Rmin_l].
  - intros a. unfold uniform_pdf.
    destruct (Rle_dec (-2) a); [destruct (Rle_dec a 2)|]; lra.
Qed.

Lemma uniform_cdf_value (z : R) : (-2 <= z <= 2)%R -> uniform_cdf z = ((z + 2) / 4)%R.
Proof.
  intros H. unfold uniform_cdf.
  rewrite Rmin_right by lra. rewrite Rmax_right by lra. reflexivity.
Qed.

Lemma uniform_pdf_value (z : R) : (-2 <= z <= 2)%R -> uniform_pdf z = (1 / 4)%R.
Proof.
  intros H. unfold uniform_pdf.
  destruct (Rle_dec (-2) z); [destruct (Rle_dec z 2)|]; lra.
Qed.

Lemma unit_spread : R_sqrt.sqrt (Rmax (Q2R 0) 1) = 1%R.
Proof. rewrite RMicromega.Q2R_0, Rmax_right by lra. apply R_sqrt.sqrt_1. Qed.

Lemma reference_value : Q2R (11 # 10) = (11 / 10)%R.
Proof. unfold Q2R. simpl. lra. Qed.

Ltac evaluate :=
  cbv -[Rplus Rminus Rmult Rdiv Ropp Rinv R_sqrt.sqrt Rmax Rmin Q2R IZR
        uniform_cdf uniform_pdf Rle Rlt].

Ltac real_values :=
  rewrite ?unit_spread, ?reference_value, ?RMicromega.Q2R_0, ?RMicromega.Q2R_1;
  repeat match goal with
         | |- context [uniform_cdf ?z] =>
             rewrite (@uniform_cdf_value z) by lra
         | |- context [uniform_pdf ?z] =>
             rewrite (@uniform_pdf_value z) by lra
         end.

Lemma sample_improvement :
  exists y, hypervolume_improvement two_objective origin = Ok y
            /\ Np.entry y 0 = (49 / 80)%R.
Proof.
  eexists. split; [evaluate; reflexivity|].
  evaluate. real_values. lra.
Qed.

Lemma column_posterior (mu var : R) :
  posterior origin 1 (constant_model mu var) (column 1 mu, column 1 var).
Proof. repeat split. Qed.

(** *** A front beyond the reference point *)

Section BeyondReference.

Variables Phi phi : R -> R.
Hypothesis density_at_0 : (0 < phi 0 < 2)%R.
Hypothesis cdf_falls : (Phi (-1) < Phi 0)%R.

Abbreviation normal_numeric := (real_numeric Phi phi).

Lemma beyond_improvement :
  exists y, hypervolume_improvement (Sample.beyond_reference Phi phi) (Sample.origin Phi phi)
            = Ok y
            /\ Np.entry y 0 = (phi 0 * (phi 0 - 2))%R.
Proof.
  eexists. split; [evaluate; reflexivity|].
  evaluate. rewrite ?unit_spread, ?reference_value.
  replace ((21 / 10 - 21 / 10) / 1)%R with 0%R by lra.
  rewrite RMicromega.Q2R_1. lra.
Qed.

Lemma beyond_posterior (mu : R) :
  posterior (Sample.origin Phi phi) 1 (Sample.constant_model Phi phi mu 1)
    (Sample.column Phi phi 1 mu, Sample.column Phi phi 1 1%R).
Proof. repeat split. Qed.

Lemma beyond_PoF (mu : R) :
  PoF_at [(Sample.column Phi phi 1 mu, Sample.column Phi phi 1 1%R)] 0 = Phi (- mu)%R.
Proof.
  evaluate. rewrite ?unit_spread, ?RMicromega.Q2R_0, ?RMicromega.Q2R_1.
  replace ((0 - mu) / 1)%R with (- mu)%R by lra. lra.
Qed.

(** With a density between 0 and 2 at 0 and a distribution function lower
    at -1 than at 0, as the normal ones are (0.399; 0.159 and 0.5), the
    hypervolume improvement of the candidate is negative and raising the
    constraint mean from 0 to 1 raises the output. *)
Lemma feasibility_weighting_fails_for :
  ~ @feasibility_weighting Phi phi (fun _ _ _ => True).
Proof.
  intros H.
  destruct beyond_improvement as (y & Hy & Vy).
  assert (Hr : @means_raised Phi phi 1
                 [(Sample.column Phi phi 1 0%R, Sample.column Phi phi 1 1%R)]
                 [(Sample.column Phi phi 1 1%R, Sample.column Phi phi 1 1%R)]).
  { constructor; [|constructor]. intros i Hi. split; [simpl; lra | reflexivity]. }
  destruct (H (Sample.beyond_reference Phi phi) (Sample.origin Phi phi) y 1
              [Sample.constant_model Phi phi 0 1] [Sample.constant_model Phi phi 1 1]
              _ _ eq_refl Hy eq_refl ltac:(discriminate)
              (Forall2_cons _ _ (beyond_posterior 0) (Forall2_nil _))
              (Forall2_cons _ _ (beyond_posterior 1) (Forall2_nil _))
              Hr I) as (out & out' & Eo & Eo' & V).
  destruct (V 0 (Nat.lt_0_succ 0)) as [V1 V2].
  destruct (@CEIM_entries normal_numeric
              (set_constrainedmodels (Some [Sample.constant_model Phi phi 1 1])
                 (Sample.beyond_reference Phi phi))
              (Sample.origin Phi phi) y 1 [Sample.constant_model Phi phi 1 1] _
              eq_refl Hy eq_refl ltac:(discriminate)
              (Forall2_cons _ _ (beyond_posterior 1) (Forall2_nil _)))
    as (o & Eo2 & _ & Vo2).
  pose proof (eq_trans (eq_sym Eo') Eo2) as E. injection E as E. subst o.
  specialize (Vo2 0 (Nat.lt_0_succ 0)).
  unfold Np.entry in *. rewrite Vo2, V1 in V2.
  cbn [f_mul real_numeric] in V2. rewrite Vy in V2.
  rewrite !beyond_PoF in V2.
  replace (- 0)%R with 0%R in V2 by lra.
  replace (- (1))%R with (-1)%R in V2 by lra.
  assert (phi 0 * (phi 0 - 2) < 0)%R by nra.
  nra.
Qed.

End BeyondReference.


(** The objective models of the small optimiser have variance 1. *)
Lemma sample_objective_spread : objective_spread two_objective origin 0.
Proof.
  intros f nobj k m p Hf Hn Hk Hm Hp.
  injection Hf as <-. injection Hn as <-.
  destruct k as [|[|k]]; [| |lia]; injection Hm as <-; injection Hp as <-;
    unfold sigma; simpl; rewrite unit_spread; lra.
Qed.

Lemma column_spread (mu : R) : positive_spread [(column 1 mu, column 1 1)] 0.
Proof. intros p [<- | []]. unfold sigma. simpl. rewrite unit_spread. lra. Qed.



(** *** The sign of the refined value (C7) *)

Lemma sample_refinement :
  exists fv xr X v,
    EIMmixedoptimiser mvo lib None "Random Local" true "euclidean" (start two_objective)
    = (Ok (PyTuple [PyFloat fv; PyArray xr]), start two_objective)
    /\ Np.reshape xr [Some 1; None] = Ok X
    /\ EIM mvo two_objective X "euclidean" = Ok v
    /\ Np.first v = R_sqrt.sqrt (1 / 8)
    /\ fv = (- R_sqrt.sqrt (1 / 8))%R.
Proof.
  do 4 eexists.
  split; [evaluate; reflexivity|].
  split; [evaluate; reflexivity|].
  split; [evaluate; reflexivity|].
  split; evaluate; real_values; [f_equal | do 2 f_equal]; field.
Qed.

(** C7, as stated, fails: on the small optimiser the acquisition value at
    the returned point is sqrt(1/8) and the returned scalar is -sqrt(1/8). *)
Lemma refined_value_is_not_negated_back :
  ~ returns_acquisition_value mvo lib "euclidean" (start two_objective).
Proof.
  intros H.
  destruct sample_refinement as (fv & xr & X & v & E & EX & Ev & Vv & Vf).
  destruct (H fv xr _ E) as (X' & v' & EX' & Ev' & Hfv).
  rewrite EX in EX'. injection EX' as <-.
  simpl self in Ev'. rewrite Ev in Ev'. injection Ev' as <-.
  rewrite Vv, Vf in Hfv.
  assert (0 < R_sqrt.sqrt (1 / 8))%R by (apply R_sqrt.sqrt_lt_R0; lra).
  lra.
Qed.

Lemma random_local_returns_negated_value_witness :
  exists xr v,
    fst (EIMmixedoptimiser mvo lib None "Random Local" true "euclidean" (start two_objective))
    = Ok (PyTuple [PyFloat (f_neg num (Np.first v)); PyArray xr]).
Proof.
  edestruct (@random_local_returns_negated_value num mvo lib None "euclidean"
               (start two_objective)) as [E (X & v & _ & _ & Hv)].
  - discriminate.
  - evaluate. reflexivity.
  - evaluate. reflexivity.
  - evaluate. reflexivity.
  - evaluate. reflexivity.
  - evaluate. reflexivity.
  - evaluate. reflexivity.
  - evaluate. reflexivity.
  - eexists. split; evaluate; reflexivity.
  - eexists. exists v.
    exact (eq_trans (f_equal fst E)
             (f_equal (fun x => Ok (PyTuple [PyFloat x; PyArray _])) Hv)).
Defined.

End FeasibilityClaims.

(** * Further properties *)

(** ** The Pareto filter under every comparison *)

Module ParetoOrder.
Import Pareto ParetoSpec ParetoFacts.

Section AnyComparison.

Variable T : Type.
Variable ltb : T -> T -> bool.

Abbreviation entry := (nat * list T)%type.

(** One round keeps the pivot and the entries that survive it. *)
Lemma step_filter (d t : list entry) (p : entry) :
  StronglySorted (@lt_fst T) (d ++ p :: t) ->
  (filter (keep ltb p) d ++ [p]) ++ filter (keep ltb p) t
  = filter (fun x => keep ltb p x || (fst x =? fst p)) (d ++ p :: t).
Proof.
  intros S. destruct (sorted_middle _ _ _ S) as [Hd Ht].
  rewrite filter_app. cbn [filter]. rewrite Nat.eqb_refl, orb_true_r.
  rewrite <- app_assoc. cbn [app]. f_equal; [|f_equal]; apply filter_ext_in; intros x Hx.
  - replace (fst x =? fst p) with false; [now rewrite orb_false_r|].
    symmetry. apply Nat.eqb_neq. specialize (Hd x Hx). lia.
  - replace (fst x =? fst p) with false; [now rewrite orb_false_r|].
    symmetry. apply Nat.eqb_neq. specialize (Ht x Hx). lia.
Qed.

Lemma sweep_filter (fuel : nat) (d t : list entry) :
  StronglySorted (@lt_fst T) (d ++ t) ->
  exists P, fst (sweep ltb fuel d t) ++ snd (sweep ltb fuel d t) = filter P (d ++ t).
Proof.
  revert d t; induction fuel as [|fuel IH]; intros d t S.
  - exists (fun _ => true). simpl. symmetry. now apply filter_all.
  - destruct t as [|p t].
    + exists (fun _ => true). simpl. symmetry. now apply filter_all.
    + cbn [sweep]. pose proof (step_filter _ _ _ S) as E.
      destruct (IH (filter (keep ltb p) d ++ [p]) (filter (keep ltb p) t)) as [P HP].
      * rewrite E. now apply sorted_filter.
      * rewrite HP, E, filter_filter. eauto.
Qed.

(** The surviving entries are entries of the matrix, in their order. *)
Lemma front_sublist (cs : list (list T)) :
  exists P, front ltb cs = filter P (entries cs).
Proof.
  destruct (@sweep_filter (length cs) [] (entries cs)) as [P HP].
  - apply combine_seq_sorted.
  - exists P. unfold front. cbn [app] in HP. rewrite <- HP.
    rewrite sweep_exhausts by now rewrite entries_length.
    now rewrite app_nil_r.
Qed.

Lemma front_entries (cs : list (list T)) (x : entry) :
  In x (front ltb cs) -> fst x < length cs /\ snd x = nth (fst x) cs [].
Proof.
  destruct (front_sublist cs) as [P HP]. rewrite HP. intros H.
  apply filter_In in H. now apply entries_In.
Qed.

Lemma front_sorted (cs : list (list T)) : StronglySorted (@lt_fst T) (front ltb cs).
Proof.
  destruct (front_sublist cs) as [P HP]. rewrite HP.
  apply sorted_filter, combine_seq_sorted.
Qed.

Lemma sorted_indices (l : list entry) :
  StronglySorted (@lt_fst T) l -> StronglySorted lt (map fst l).
Proof.
  induction 1 as [|x l _ IH Hx]; simpl; constructor; auto.
  rewrite Forall_forall in *. intros i Hi. apply in_map_iff in Hi.
  destruct Hi as (y & <- & Hy). exact (Hx y Hy).
Qed.

Lemma front_by_index (cs : list (list T)) :
  front ltb cs
  = filter (fun x : entry => existsb (Nat.eqb (fst x)) (efficient_indices ltb cs))
      (entries cs).
Proof.
  destruct (front_sublist cs) as [P HP].
  rewrite HP at 1. apply filter_ext_in. intros x Hx.
  destruct (P x) eqn:E; symmetry.
  - apply existsb_eqb_In. rewrite efficient_indices_front, HP.
    apply in_map, filter_In. auto.
  - apply not_true_is_false. intros H. apply existsb_eqb_In in H.
    rewrite efficient_indices_front, HP in H. apply in_map_iff in H.
    destruct H as (y & Ey & Hy). apply filter_In in Hy. destruct Hy as [Hy Py].
    rewrite (entries_unique cs y x) in Py by auto. congruence.
Qed.

Lemma mask_selects_front (cs : list (list T)) :
  compress (efficient_mask ltb cs) cs = map snd (front ltb cs).
Proof.
  unfold efficient_mask. rewrite index_mask_map, compress_entries.
  fold (entries cs). now rewrite <- front_by_index.
Qed.

Lemma count_true_compress (A : Type) (mask : list bool) (l : list A) :
  length mask = length l -> count_true mask = length (compress mask l).
Proof.
  revert l; induction mask as [|b mask IH]; intros [|x l] H; simpl in *;
    try reflexivity; try discriminate.
  injection H as H. unfold count_true in *. simpl.
  destruct b; simpl; now rewrite (IH l).
Qed.

(** While rows remain to be visited, or some have been, the loop leaves rows. *)
Lemma sweep_nonempty (fuel : nat) (d t : list entry) :
  length t <= fuel -> d ++ t <> [] -> fst (sweep ltb fuel d t) <> [].
Proof.
  revert d t; induction fuel as [|fuel IH]; intros d [|p t] Hf Hne; simpl in *;
    try lia; try now rewrite app_nil_r in Hne.
  apply IH.
  - pose proof (filter_length_le (keep ltb p) t). lia.
  - intros E. apply app_eq_nil in E. destruct E as [E _].
    apply app_eq_nil in E. destruct E as [_ E]. discriminate.
Qed.

(** Rows that have been pivots each survived the other; rows still to come
    survived every pivot. *)
Lemma sweep_pairs (fuel : nat) (d t : list entry) :
  (forall x y, In x d -> In y d -> fst x <> fst y -> keep ltb y x = true) ->
  (forall x y, In x d -> In y t -> keep ltb x y = true) ->
  forall x y, In x (fst (sweep ltb fuel d t)) -> In y (fst (sweep ltb fuel d t)) ->
              fst x <> fst y -> keep ltb y x = true.
Proof.
  revert d t; induction fuel as [|fuel IH]; intros d [|p t] Hd Ht; simpl; auto.
  apply IH.
  - intros x y Hx Hy Hne.
    apply in_app_or in Hx, Hy.
    destruct Hx as [Hx | [<- | []]], Hy as [Hy | [<- | []]].
    + apply filter_In in Hx, Hy. apply Hd; tauto.
    + apply filter_In in Hx. tauto.
    + apply filter_In in Hy. apply Ht; [tauto | now left].
    + congruence.
  - intros x y Hx Hy. apply filter_In in Hy.
    apply in_app_or in Hx. destruct Hx as [Hx | [<- | []]].
    + apply filter_In in Hx. apply Ht; [tauto | right; tauto].
    + tauto.
Qed.

Lemma front_pairs (cs : list (list T)) (x y : entry) :
  In x (front ltb cs) -> In y (front ltb cs) -> fst x <> fst y -> keep ltb y x = true.
Proof. apply sweep_pairs; simpl; contradiction. Qed.

Lemma indices_front (cs : list (list T)) (i : nat) :
  In i (efficient_indices ltb cs) <-> In (i, nth i cs []) (front ltb cs).
Proof.
  rewrite efficient_indices_front, in_map_iff. split.
  - intros ([j r] & E & H). simpl in E. subst j.
    destruct (front_entries _ _ H) as [_ E]. simpl in E. now subst r.
  - intros H. now exists (i, nth i cs []).
Qed.

Lemma front_whole (cs : list (list T)) :
  efficient_indices ltb (map snd (front ltb cs)) = seq 0 (length (front ltb cs)).
Proof.
  set (cs' := map snd (front ltb cs)).
  assert (L : length cs' = length (front ltb cs)) by apply length_map.
  rewrite efficient_indices_front, <- L. unfold front at 1.
  rewrite (@sweep_pairwise _ ltb (length cs') [] (entries cs')).
  - simpl. apply entries_fst.
  - simpl. intros x y Hx Hy Hne.
    apply entries_In in Hx, Hy. destruct Hx as [Hx Ex], Hy as [Hy Ey].
    unfold keep. rewrite Ex, Ey. unfold cs' in *. rewrite length_map in Hx, Hy.
    change (@nil T) with (snd (0, @nil T)). rewrite !map_nth.
    apply (@front_pairs cs); try now apply nth_In.
    intros E. apply Hne.
    apply (proj1 (NoDup_nth (map fst (front ltb cs)) 0));
      rewrite ?length_map; auto.
    + apply sorted_NoDup, front_sorted.
    + change 0 with (fst (0, @nil T)). now rewrite !map_nth.
  - simpl. rewrite entries_fst. apply seq_NoDup.
  - now rewrite entries_length.
Qed.

Lemma mask_nth (cs : list (list T)) (i : nat) :
  nth i (efficient_mask ltb cs) false = true <-> In i (efficient_indices ltb cs).
Proof.
  unfold efficient_mask.
  rewrite index_mask_nth, andb_true_iff, existsb_eqb_In.
  split; [tauto|]. intros H. split; [|assumption].
  apply Nat.ltb_lt. apply indices_front, front_entries in H. tauto.
Qed.

Lemma paretofront_front (Y : list (list T)) :
  paretofront ltb Y = map snd (front ltb Y).
Proof.
  unfold paretofront. rewrite efficient_indices_front, map_map.
  apply map_ext_in. intros x Hx. now destruct (front_entries _ _ Hx) as [_ ->].
Qed.

Lemma indices_sorted (cs : list (list T)) :
  StronglySorted lt (efficient_indices ltb cs).
Proof. rewrite efficient_indices_front. apply sorted_indices, front_sorted. Qed.

Lemma indices_bounded (cs : list (list T)) (i : nat) :
  In i (efficient_indices ltb cs) -> i < length cs.
Proof. intros H. apply indices_front, front_entries in H. tauto. Qed.

Lemma indices_length (cs : list (list T)) :
  length (efficient_indices ltb cs) <= length cs.
Proof.
  rewrite efficient_indices_front, length_map.
  destruct (front_sublist cs) as [P ->].
  etransitivity; [apply filter_length_le|]. now rewrite entries_length.
Qed.

Lemma indices_nil (cs : list (list T)) :
  efficient_indices ltb cs = [] <-> cs = [].
Proof.
  split.
  - intros E. destruct cs as [|r cs]; [reflexivity|]. exfalso.
    rewrite efficient_indices_front in E. apply map_eq_nil in E.
    revert E. apply sweep_nonempty.
    + now rewrite entries_length.
    + discriminate.
  - intros ->. reflexivity.
Qed.

End AnyComparison.

End ParetoOrder.

Section ParetoEveryInput.
Import Pareto ParetoSpec ParetoFacts ParetoOrder.

Variable T : Type.
Variable ltb : T -> T -> bool.

(** The [while] loop of [is_pareto_efficient] exits: after at most one round per
    row the test [next_point_index < len(costs)] fails, and further rounds
    would change nothing. *)
Theorem pareto_loop_terminates (cs : list (list T)) :
  let st := while_loop ltb (length cs) (initial_state cs) in
  (next_point_index st <? length (costs st)) = false
  /\ length (costs st) <= length cs
  /\ forall fuel, length cs <= fuel -> while_loop ltb fuel (initial_state cs) = st.
Proof.
  cbv zeta. fold (final_state ltb cs).
  destruct (while_loop_exits ltb cs) as [H1 H2].
  split; [exact H1|]. split; [|exact H2].
  rewrite final_state_front. simpl. rewrite app_nil_r, length_map.
  rewrite <- (length_map fst), <- efficient_indices_front. apply indices_length.
Qed.

(** With [return_mask=False] the indices come out strictly increasing and
    below the number of rows, whatever the entries are; there are at most as
    many as rows, and none only when the matrix has no row. *)
Theorem pareto_indices (cs : list (list T)) :
  StronglySorted lt (efficient_indices ltb cs)
  /\ Forall (fun i => i < length cs) (efficient_indices ltb cs)
  /\ length (efficient_indices ltb cs) <= length cs
  /\ (efficient_indices ltb cs = [] <-> cs = []).
Proof.
  split; [apply indices_sorted|]. split; [|split].
  - apply Forall_forall. intros i Hi. exact (indices_bounded ltb cs i Hi).
  - apply indices_length.
  - apply indices_nil.
Qed.

(** The forms of the result agree: the mask has one entry per row, it is true
    exactly at the indices returned with [return_mask=False], it has as many
    true entries as there are indices, and [paretofront(Y)] is [Y[mask]], the
    rows the mask selects in the order they have in [Y]. *)
Theorem pareto_mask_matches_indices (cs : list (list T)) :
  length (efficient_mask ltb cs) = length cs
  /\ (forall i, nth i (efficient_mask ltb cs) false = true
                <-> In i (efficient_indices ltb cs))
  /\ count_true (efficient_mask ltb cs) = length (efficient_indices ltb cs)
  /\ paretofront ltb cs = compress (efficient_mask ltb cs) cs.
Proof.
  assert (L : length (efficient_mask ltb cs) = length cs) by apply index_mask_length.
  split; [exact L|]. split; [apply mask_nth|]. split.
  - rewrite (count_true_compress _ cs L), mask_selects_front.
    now rewrite efficient_indices_front, !length_map.
  - now rewrite paretofront_front, mask_selects_front.
Qed.

(** Any two selected rows each have an entry strictly below the other's, and
    filtering a front again returns it whole: this holds for every comparison,
    so for floats with NaN and for rows of unequal length too. *)
Theorem pareto_front_is_stable (Y : list (list T)) :
  (forall i j, In i (efficient_indices ltb Y) -> In j (efficient_indices ltb Y) -> i <> j ->
     any_lt ltb (nth i Y []) (nth j Y []) = true)
  /\ paretofront ltb (paretofront ltb Y) = paretofront ltb Y
  /\ efficient_mask ltb (paretofront ltb Y) = repeat true (length (paretofront ltb Y)).
Proof.
  split; [|split].
  - intros i j Hi Hj Hne. apply indices_front in Hi, Hj.
    exact (front_pairs ltb Y _ _ Hi Hj Hne).
  - rewrite (paretofront_front ltb Y). unfold paretofront.
    rewrite front_whole, <- (length_map snd).
    apply (nth_ext _ _ [] []).
    + now rewrite length_map, length_seq.
    + intros k Hk. rewrite length_map, length_seq in Hk.
      rewrite (nth_indep _ [] (nth 0 (map snd (front ltb Y)) [])) by
        now rewrite length_map, length_seq.
      rewrite (map_nth (fun i => nth i (map snd (front ltb Y)) [])).
      now rewrite seq_nth.
  - rewrite (paretofront_front ltb Y). unfold efficient_mask.
    rewrite front_whole, <- (length_map snd).
    apply (nth_ext _ _ false false).
    + now rewrite index_mask_length, repeat_length.
    + intros i Hi. rewrite index_mask_length in Hi.
      rewrite index_mask_nth, nth_repeat_lt by assumption.
      apply andb_true_iff. split; [now apply Nat.ltb_lt|].
      apply existsb_eqb_In, in_seq. lia.
Qed.

End ParetoEveryInput.

(** ** The first row, and rows on another scale *)

Module ParetoRows.
Import Pareto ParetoSpec ParetoFacts ParetoOrder.

Section FirstRow.

Variable T : Type.
Variable ltb : T -> T -> bool.

Abbreviation entry := (nat * list T)%type.

Lemma entries_cons (p : list T) (rest : list (list T)) :
  entries (p :: rest) = (0, p) :: combine (seq 1 (length rest)) rest.
Proof. reflexivity. Qed.

(** The first row is the first pivot: a later row is selected only if it has
    an entry strictly below the first row's. *)
Lemma front_after_first (p : list T) (rest : list (list T)) (x : entry) :
  In x (front ltb (p :: rest)) -> x = (0, p) \/ any_lt ltb (snd x) p = true.
Proof.
  unfold front. rewrite entries_cons. cbn [length sweep filter app].
  set (t := combine (seq 1 (length rest)) rest).
  intros H.
  assert (S : StronglySorted (@lt_fst T) ([(0, p)] ++ filter (keep ltb (0, p)) t)).
  { pose proof (combine_seq_sorted 0 (p :: rest)) as S0.
    change (combine (seq 0 (length (p :: rest))) (p :: rest)) with ((0, p) :: t) in S0.
    inversion S0 as [|? ? St Hf]; subst. constructor.
    - now apply sorted_filter.
    - rewrite Forall_forall in *. intros y Hy. apply filter_In in Hy. now apply Hf. }
  destruct (sweep_filter ltb (length rest) _ _ S) as [P HP].
  assert (Hin : In x ([(0, p)] ++ filter (keep ltb (0, p)) t)).
  { apply (proj1 (filter_In P x _)). rewrite <- HP. apply in_or_app. now left. }
  destruct Hin as [<- | Hin]; [now left|].
  right. apply filter_In in Hin. exact (proj2 Hin).
Qed.

Lemma filter_none (A : Type) (f : A -> bool) (l : list A) :
  (forall x, In x l -> f x = false) -> filter f l = [].
Proof.
  induction l as [|x l IH]; intros H; simpl; [reflexivity|].
  rewrite (H x) by now left. apply IH. intros y Hy. apply H. now right.
Qed.

Lemma first_row_alone (p : list T) (rest : list (list T)) :
  (forall r, In r rest -> any_lt ltb r p = false) ->
  efficient_indices ltb (p :: rest) = [0].
Proof.
  intros H. rewrite efficient_indices_front. unfold front.
  rewrite entries_cons. cbn [length sweep filter app].
  rewrite filter_none.
  - now destruct (length rest).
  - intros [i r] Hx. apply in_combine_r in Hx. now apply H.
Qed.

Lemma later_row_needs_an_entry (p : list T) (rest : list (list T)) (j : nat) :
  In (S j) (efficient_indices ltb (p :: rest)) -> any_lt ltb (nth j rest []) p = true.
Proof.
  intros H. apply indices_front in H.
  destruct (front_after_first _ _ _ H) as [E | E]; [discriminate | exact E].
Qed.

End FirstRow.

Section Rescaling.

Variables A B : Type.
Variable ltA : A -> A -> bool.
Variable ltB : B -> B -> bool.
Variable g : list A -> list B.
Hypothesis g_any_lt : forall r p, any_lt ltB (g r) (g p) = any_lt ltA r p.

Lemma filter_lifted (p : nat * list A) (l : list (nat * list A)) :
  filter (keep ltB (lifted g p)) (map (lifted g) l)
  = map (lifted g) (filter (keep ltA p) l).
Proof.
  induction l as [|x l IH]; simpl; [reflexivity|].
  unfold keep at 1. simpl. rewrite g_any_lt. fold (keep ltA p x).
  destruct (keep ltA p x); simpl; now rewrite IH.
Qed.

Lemma sweep_lifted (fuel : nat) (d t : list (nat * list A)) :
  sweep ltB fuel (map (lifted g) d) (map (lifted g) t)
  = (map (lifted g) (fst (sweep ltA fuel d t)),
     map (lifted g) (snd (sweep ltA fuel d t))).
Proof.
  revert d t; induction fuel as [|fuel IH]; intros d [|p t]; try reflexivity.
  cbn [sweep map]. rewrite !filter_lifted.
  change [lifted g p] with (map (lifted g) [p]). rewrite <- map_app. apply IH.
Qed.

Lemma entries_lifted (cs : list (list A)) :
  entries (map g cs) = map (lifted g) (entries cs).
Proof.
  unfold entries. rewrite length_map. generalize 0.
  induction cs as [|r cs IH]; intros a; simpl; [reflexivity|].
  now rewrite IH.
Qed.

Lemma indices_lifted (cs : list (list A)) :
  efficient_indices ltB (map g cs) = efficient_indices ltA cs.
Proof.
  rewrite !efficient_indices_front. unfold front.
  rewrite entries_lifted, length_map.
  change (@nil (nat * list B)) with (map (lifted g) []).
  rewrite sweep_lifted. cbn [fst]. rewrite map_map. reflexivity.
Qed.

End Rescaling.

Lemma any_lt_columnwise (A B : Type) (ltA : A -> A -> bool) (ltB : B -> B -> bool)
    (fs : nat -> A -> B) :
  (forall k a b, ltB (fs k a) (fs k b) = ltA a b) ->
  forall r p, any_lt ltB (columnwise fs r) (columnwise fs p) = any_lt ltA r p.
Proof.
  intros H r p. unfold columnwise. generalize 0.
  revert p; induction r as [|a r IH]; intros [|b p] k; try reflexivity.
  cbn [length seq combine map]. rewrite !any_lt_cons. cbn [fst snd].
  now rewrite H, IH.
Qed.

End ParetoRows.

Section ParetoFloats.
Import Pareto ParetoOrder ParetoRows.

Lemma ltb_nan_r (x : float) : PrimFloat.ltb x nan = false.
Proof.
  rewrite ltb_spec. unfold SpecFloat.SFltb.
  replace (Prim2SF nan) with SpecFloat.S754_nan by reflexivity.
  now destruct (Prim2SF x) as [ | [|] | | ].
Qed.

Lemma ltb_nan_l (x : float) : PrimFloat.ltb nan x = false.
Proof.
  rewrite ltb_spec. unfold SpecFloat.SFltb.
  replace (Prim2SF nan) with SpecFloat.S754_nan by reflexivity.
  reflexivity.
Qed.

Lemma any_lt_nan_row (r : list float) (m : nat) :
  any_lt PrimFloat.ltb r (repeat nan m) = false.
Proof.
  revert m; induction r as [|a r IH]; intros [|m]; try reflexivity.
  cbn [repeat]. rewrite ParetoFacts.any_lt_cons. now rewrite ltb_nan_r, IH.
Qed.

Lemma nan_row_any_lt (p : list float) (m : nat) :
  any_lt PrimFloat.ltb (repeat nan m) p = false.
Proof.
  revert m; induction p as [|a p IH]; intros [|m]; try reflexivity.
  cbn [repeat]. rewrite ParetoFacts.any_lt_cons. now rewrite ltb_nan_l, IH.
Qed.

(** A row of NaN observations: as the first row it is the whole front,
    whatever the other rows are; anywhere else it is never selected. *)
Theorem nan_row_first_or_never (m : nat) :
  (forall rest,
     is_pareto_efficient PrimFloat.ltb (repeat nan m :: rest) true
     = inl (true :: repeat false (length rest)))
  /\ (forall p rest j,
        nth j rest [] = repeat nan m ->
        nth (S j) (efficient_mask PrimFloat.ltb (p :: rest)) false = false).
Proof.
  split.
  - intros rest. unfold is_pareto_efficient, efficient_mask.
    rewrite first_row_alone by (intros r _; apply any_lt_nan_row).
    reflexivity.
  - intros p rest j E.
    destruct (nth (S j) (efficient_mask PrimFloat.ltb (p :: rest)) false) eqn:N;
      [|reflexivity].
    exfalso. apply mask_nth, later_row_needs_an_entry in N.
    rewrite E, nan_row_any_lt in N. discriminate.
Qed.

(** The mask depends only on the order of the values within each column:
    sending every column through a map that keeps [<] (a change of scale, as
    long as it is increasing) changes neither the mask nor the indices. *)
Theorem pareto_rescaling (A B : Type) (ltA : A -> A -> bool) (ltB : B -> B -> bool)
    (fs : nat -> A -> B) (cs : list (list A)) (return_mask : bool) :
  (forall k a b, ltB (fs k a) (fs k b) = ltA a b) ->
  is_pareto_efficient ltB (map (columnwise fs) cs) return_mask
  = is_pareto_efficient ltA cs return_mask.
Proof.
  intros H.
  pose proof (indices_lifted ltA ltB (columnwise fs) (any_lt_columnwise ltA ltB fs H) cs) as E.
  unfold is_pareto_efficient, efficient_mask. rewrite E, length_map. reflexivity.
Qed.

End ParetoFloats.

(** ** One more observation *)

Section ParetoObservations.
Import Pareto ParetoFacts ParetoOrder.

Lemma dominates_irreflexive (p : list Q) : ~ dominates p p.
Proof.
  intros [_ H]. apply Exists_exists in H. destruct H as ([a b] & Hin & Hlt).
  simpl in Hlt. assert (E : a = b).
  { clear Hlt. induction p as [|c p IH]; simpl in Hin; [contradiction|].
    destruct Hin as [E | Hin]; [now injection E as <- <- | auto]. }
  subst. exact (Qlt_irrefl _ Hlt).
Qed.

Lemma rectangular_app (costs : list (list Q)) (m : nat) (r : list Q) :
  rectangular costs m -> length r = m -> rectangular (costs ++ [r]) m.
Proof.
  intros R L x Hx. apply in_app_or in Hx. destruct Hx as [Hx | [<- | []]]; auto.
Qed.

Lemma row_app_old (costs : list (list Q)) (r : list Q) (k : nat) :
  k < length costs -> row (costs ++ [r]) k = row costs k.
Proof. intros H. unfold row. now apply app_nth1. Qed.

Lemma row_app_new (costs : list (list Q)) (r : list Q) :
  row (costs ++ [r]) (length costs) = r.
Proof. unfold row. rewrite app_nth2, Nat.sub_diag by lia. reflexivity. Qed.

Lemma selected_after_append (costs : list (list Q)) (m : nat) (r : list Q) (j i : nat) :
  rectangular costs m -> length r = m -> j < length costs ->
  weakly_dominates (row costs j) r ->
  i < length costs ->
  (selected (costs ++ [r]) i <-> selected costs i).
Proof.
  intros R L Hj Hd Hi.
  pose proof (@rectangular_app costs m r R L) as R'.
  assert (Hi' : i < length (costs ++ [r])) by (rewrite length_app; simpl; lia).
  rewrite (selected_characterised R' Hi'), (selected_characterised R Hi).
  split.
  - intros H k Hk Hne Hw.
    rewrite <- (@row_app_old costs r k Hk), <- (@row_app_old costs r i Hi) in *.
    apply H; auto. rewrite length_app. simpl. lia.
  - intros H k Hk Hne Hw. rewrite length_app in Hk. simpl in Hk.
    rewrite (@row_app_old costs r i Hi) in *.
    destruct (Nat.eq_dec k (length costs)) as [-> | Hk'].
    + rewrite row_app_new in *. split; [exact Hi|].
      apply weakly_antisym; [|exact Hw].
      destruct (Nat.eq_dec j i) as [-> | Hji]; [exact Hd|].
      destruct (H j Hj Hji (weakly_trans Hd Hw)) as [_ I].
      exact (weakly_trans (identical_weakly I) Hd).
    + assert (Hk2 : k < length costs) by lia.
      rewrite (@row_app_old costs r k Hk2) in *. now apply H.
Qed.

Lemma appended_unselected (costs : list (list Q)) (m : nat) (r : list Q) (j : nat) :
  rectangular costs m -> length r = m -> j < length costs ->
  weakly_dominates (row costs j) r ->
  ~ selected (costs ++ [r]) (length costs).
Proof.
  intros R L Hj Hd.
  pose proof (@rectangular_app costs m r R L) as R'.
  assert (Hn : length costs < length (costs ++ [r])) by (rewrite length_app; simpl; lia).
  rewrite (selected_characterised R' Hn). intros H.
  assert (Hj' : j < length (costs ++ [r])) by lia.
  assert (Hne : j <> length costs) by lia.
  assert (Hw : weakly_dominates (row (costs ++ [r]) j) (row (costs ++ [r]) (length costs)))
    by now rewrite row_app_new, (@row_app_old costs r j Hj).
  destruct (H j Hj' Hne Hw) as [Hlt _]. lia.
Qed.

(** A new observation that an old one weakly dominates changes nothing: the
    mask of the old rows is what it was, and the new row is not selected. *)
Theorem dominated_observation_changes_nothing
    (costs : list (list Q)) (m : nat) (r : list Q) (j : nat) :
  rectangular costs m -> length r = m -> j < length costs ->
  weakly_dominates (row costs j) r ->
  is_pareto_efficient Qltb (costs ++ [r]) true
  = inl (efficient_mask Qltb costs ++ [false]).
Proof.
  intros R L Hj Hd. unfold is_pareto_efficient. f_equal.
  apply (nth_ext _ _ false false).
  - unfold efficient_mask. rewrite !length_app, !index_mask_length. reflexivity.
  - intros i Hi. unfold efficient_mask in Hi. rewrite index_mask_length, length_app in Hi.
    simpl in Hi.
    destruct (Nat.eq_dec i (length costs)) as [-> | Hne].
    + rewrite (app_nth2 (efficient_mask Qltb costs)) by
        (unfold efficient_mask; rewrite index_mask_length; lia).
      unfold efficient_mask at 2. rewrite index_mask_length, Nat.sub_diag. simpl.
      apply not_true_is_false. exact (@appended_unselected costs m r j R L Hj Hd).
    + assert (Hi2 : i < length costs) by lia.
      rewrite (app_nth1 (efficient_mask Qltb costs)) by
        (unfold efficient_mask; rewrite index_mask_length; lia).
      pose proof (@selected_after_append costs m r j i R L Hj Hd Hi2) as E. unfold selected in E.
      destruct (nth i (efficient_mask Qltb (costs ++ [r])) false),
        (nth i (efficient_mask Qltb costs) false); try reflexivity.
      * symmetry. now apply E.
      * now apply E.
Qed.

Lemma dominated_observation_changes_nothing_witness :
  is_pareto_efficient Qltb ([[1; 2]; [2; 1]] ++ [[2; 2]])%Q true
  = inl (efficient_mask Qltb [[1; 2]; [2; 1]]%Q ++ [false]).
Proof.
  apply (@dominated_observation_changes_nothing [[1; 2]; [2; 1]]%Q 2 [2; 2]%Q 0).
  - intros r [<- | [<- | []]]; reflexivity.
  - reflexivity.
  - simpl. lia.
  - repeat constructor; discriminate.
Defined.

(** On a matrix without repeated rows the mask is the Pareto set: a row is
    selected exactly when no row dominates it. *)
Theorem distinct_rows_pareto_set (costs : list (list Q)) (m : nat) :
  rectangular costs m ->
  (forall i j, i < j -> j < length costs -> ~ identical (row costs i) (row costs j)) ->
  forall i, i < length costs ->
    (selected costs i <-> forall k, k < length costs -> ~ dominates (row costs k) (row costs i)).
Proof.
  intros R D i Hi. rewrite (selected_characterised R Hi). split.
  - intros H k Hk Hd.
    destruct (Nat.eq_dec k i) as [-> | Hne]; [exact (@dominates_irreflexive _ Hd)|].
    destruct (H k Hk Hne (proj1 Hd)) as [Hlt I].
    exact (D i k Hlt Hk I).
  - intros H k Hk Hne Hw. exfalso.
    destruct (weakly_split Hw) as [Hd | I]; [exact (H k Hk Hd)|].
    destruct (Nat.lt_total k i) as [Hlt | [E | Hlt]]; [| contradiction |].
    + exact (D k i Hlt Hi I).
    + exact (D i k Hlt Hk (identical_sym I)).
Qed.

Lemma distinct_rows_pareto_set_witness :
  selected [[1; 2]; [2; 1]; [2; 2]]%Q 0
  <-> forall k, k < 3 -> ~ dominates (row [[1; 2]; [2; 1]; [2; 2]]%Q k)
                           (row [[1; 2]; [2; 1]; [2; 2]]%Q 0).
Proof.
  apply (@distinct_rows_pareto_set [[1; 2]; [2; 1]; [2; 2]]%Q 2).
  - intros r [<- | [<- | [<- | []]]]; reflexivity.
  - intros i j Hij Hj I. simpl in Hj.
    assert (C : (i = 0 /\ j = 1) \/ (i = 0 /\ j = 2) \/ (i = 1 /\ j = 2)) by lia.
    destruct C as [[-> ->] | [[-> ->] | [-> ->]]]; simpl in I;
      inversion I as [|? ? ? ? H1 I2]; subst;
      try (inversion I2 as [|? ? ? ? H2 _]; subst); discriminate.
  - simpl. lia.
Defined.

End ParetoObservations.

(** ** What the controller returns, and when *)

Module ControllerFacts.
Import Optimiser OptimiserSpec OptimiserFacts.

(** One step into a sequence of calls that returned. *)
Ltac step_in H :=
  unfold bind at 1 in H;
  match type of H with
  | match ?c with _ => _ end = _ =>
      let a := fresh "a" in
      let e := fresh "e" in
      let w := fresh "w" in
      let E := fresh "E" in
      destruct c as [[a | e] w] eqn:E; [|discriminate]
  end.

(** Calls that only read the object leave the world as it is. *)
Ltac settle :=
  repeat match goal with
         | H : call _ _ = (_, _) |- _ => unfold call in H; injection H as H <-
         | H : lift _ _ = (_, _) |- _ => unfold lift in H; injection H as H <-
         end.

Section Facts.

Variable num : Numeric.
Variable mvo : MVO num.
Variable lib : Library num.

Abbreviation ndarray := (Np.ndarray num).

(** What [generatemodels] leaves alone: every attribute other than
    [nsamples], [Yscaled], [Xscaled] and [model]. *)
Section Frame.

Variable A : Type.
Variable attr : MVMOO num -> A.
Hypothesis attr_nsamples : forall v me, attr (set_nsamples v me) = attr me.
Hypothesis attr_Yscaled : forall v me, attr (set_Yscaled v me) = attr me.
Hypothesis attr_Xscaled : forall v me, attr (set_Xscaled v me) = attr me.
Hypothesis attr_model : forall v me, attr (set_model v me) = attr me.

Lemma for_loop_frame (X B R : Type) (l : list X) (acc : B)
    (body : B -> X -> M num (flow B R)) (w : world num) :
  (forall acc x w, attr (self (snd (body acc x w))) = attr (self w)) ->
  attr (self (snd (for_loop l acc body w))) = attr (self w).
Proof.
  intros Hb. revert acc w; induction l as [|x l IH]; intros acc w; simpl.
  - reflexivity.
  - unfold bind. specialize (Hb acc x w).
    destruct (body acc x w) as [[[acc' | v] | e] wb]; simpl in *; auto.
    now rewrite IH.
Qed.

Lemma fit_column_frame (X Ys : ndarray) (variance : option num) (i : nat)
    (w : world num) :
  attr (self (snd (fit_column mvo X Ys variance i w))) = attr (self w).
Proof.
  unfold fit_column, bind, lift, call, assign, ret.
  destruct (outcome_bind _ _); simpl; [|reflexivity].
  destruct (fitmodel _ _ _ _ _); simpl; [apply attr_model | reflexivity].
Qed.

Lemma fit_columns_frame (X Ys : ndarray) (variance : option num) (R : Type)
    (wrap : list (Model num) -> flow (list (Model num)) R)
    (l : list nat) (acc : list (Model num)) (w : world num) :
  attr (self (snd (for_loop l acc
                     (fun models i =>
                        bind (fit_column mvo X Ys variance i)
                             (fun m => ret (wrap (models ++ [m])))) w)))
  = attr (self w).
Proof.
  apply for_loop_frame. intros acc0 x w0. unfold bind.
  pose proof (fit_column_frame X Ys variance x w0) as Hf.
  destruct (fit_column mvo X Ys variance x w0) as [[m | e] w1]; exact Hf.
Qed.

Lemma generatemodels_frame (X Y : ndarray) (scale_flag : bool) (variance : num)
    (w : world num) :
  attr (self (snd (generatemodels mvo X Y scale_flag variance w))) = attr (self w).
Proof.
  unfold generatemodels.
  destruct (Np.shape Y) as [|n [|nobj [|? ?]]]; try reflexivity.
  unfold bind at 1. cbn [assign].
  destruct scale_flag.
  - unfold bind at 1. unfold call at 1.
    destruct (scaley _ _ _) as [Ys | e]; [|apply attr_nsamples].
    unfold bind at 1. cbn [assign]. unfold bind at 1. unfold call at 1.
    destruct (scaleX _ _ _ _) as [Xs | e];
      [|cbn [snd assigned self]; now rewrite attr_Yscaled, attr_nsamples].
    unfold bind at 1. cbn [assign]. unfold bind at 1.
    match goal with
    | |- context [for_loop ?l ?acc ?body ?w0] =>
        pose proof (@fit_columns_frame Xs Ys (Some variance) _
                      (fun ms => Continue (R := list (Model num)) ms) l acc w0) as Hl;
        destruct (for_loop l acc body w0) as [[[ms | ms] | e] wl]
    end; cbn [snd ret] in *; rewrite Hl; cbn [assigned self];
      now rewrite attr_Xscaled, attr_Yscaled, attr_nsamples.
  - unfold bind at 1.
    match goal with
    | |- context [for_loop ?l ?acc ?body ?w0] =>
        pose proof (@fit_columns_frame X Y None _
                      (fun ms => Return (A := list (Model num)) ms) l acc w0) as Hl;
        destruct (for_loop l acc body w0) as [[[ms | ms] | e] wl]
    end; cbn [snd ret] in *; rewrite Hl; cbn [assigned self];
      now rewrite attr_nsamples.
Qed.

End Frame.

Lemma simplical_raises (constraints : option ndarray) (w : world num) :
  EIMmixedoptimiser mvo lib constraints "Simplical" true "euclidean" w
  = (Raise NotImplementedError, w).
Proof. reflexivity. Qed.

(** Lines 552 to 558 with a matrix of constraints. *)
Lemma constrained_tail (X Y C : ndarray) (values_none : bool) (method mode : string)
    (w : world num) (v : pyval num) (w' : world num) :
  multinextcondition mvo lib X Y (Some C) values_none method mode w <> (Ok v, w').
Proof.
  intros H. unfold multinextcondition in H.
  unfold bind at 1 in H. cbn [ret] in H.
  step_in H. step_in H. step_in H. step_in H. step_in H.
  unfold bind at 1 in H. rewrite simplical_raises in H. discriminate.
Qed.

Lemma scalar_has_no_columns (X : ndarray) (x : num) (scale_flag : bool) (variance : num)
    (w : world num) :
  generatemodels mvo X (Np.scalar num x) scale_flag variance w = (Raise ValueError, w).
Proof. reflexivity. Qed.

Lemma unconstrained_without_values (X Y : ndarray) (method mode : string)
    (w w' : world num) (r : option (pyval num)) :
  unconstrained mvo lib X Y false method mode w = (Ok r, w') -> r = None.
Proof.
  intros H. unfold unconstrained in H.
  step_in H. step_in H. step_in H. step_in H. step_in H.
  cbn [andb] in H. injection H as <- _. reflexivity.
Qed.

Lemma values_tail (X Y : ndarray) (constraints : option ndarray) (method mode : string)
    (w : world num) (v : pyval num) (w' : world num) :
  multinextcondition mvo lib X Y constraints false method mode w <> (Ok v, w').
Proof.
  destruct constraints as [C|]; [apply constrained_tail|].
  intros H. unfold multinextcondition in H.
  step_in H. apply unconstrained_without_values in E. subst a.
  step_in H. step_in H. step_in H.
  unfold bind at 1 in H. cbn [constraints_array] in H.
  rewrite scalar_has_no_columns in H. discriminate.
Qed.

(** An attempt of the retry ladder leaves the kernel name alone. *)
Lemma attempted_kernel (X Y : ndarray) (variance : num) (w w' : world num) :
  attempted mvo X Y variance w w' -> k_type (self w') = k_type (self w).
Proof.
  pose proof (generatemodels_keeps_bank mvo X Y true variance w) as K.
  intros [(ms & w1 & H & ->) | (e & w1 & H & ->)]; rewrite H in K;
    destruct K as (_ & K & _); exact K.
Qed.

Lemma attempted_output (X Y : ndarray) (variance : num) (w w' : world num) :
  attempted mvo X Y variance w w' -> exists l, stdout w' = stdout w ++ l.
Proof.
  pose proof (generatemodels_keeps_bank mvo X Y true variance w) as K.
  intros [(ms & w1 & H & ->) | (e & w1 & H & ->)]; rewrite H in K;
    destruct K as (_ & _ & K); simpl in *; rewrite K.
  - exists []. now rewrite app_nil_r.
  - eauto.
Qed.

(** A bank shorter than the number of predictions asked of it. *)
Lemma outcome_fold_each (A B : Type) (body : B -> A -> outcome B) (l : list A) (acc r : B)
    (x : A) :
  outcome_fold body l acc = Ok r -> In x l -> exists acc' r', body acc' x = Ok r'.
Proof.
  revert acc; induction l as [|y l IH]; intros acc H Hx; [contradiction|].
  simpl in H. apply outcome_bind_Ok in H. destruct H as (acc' & Hb & H).
  destruct Hx as [-> | Hx]; eauto.
Qed.

Lemma predict_all_within (predict : Model num -> ndarray -> outcome (ndarray * ndarray))
    (field : MVMOO num -> option (option (list (Model num))))
    (me : MVMOO num) (X : ndarray) (n : nat) (ms : list (Model num))
    (r : list ndarray * list ndarray) :
  field me = Some (Some ms) ->
  predict_all predict field me X n = Ok r -> n <= length ms.
Proof.
  intros Hf H. destruct (Nat.le_gt_cases n (length ms)) as [Hle | Hgt]; [exact Hle|].
  exfalso. unfold predict_all in H.
  destruct (@outcome_fold_each _ _ _ _ _ _ (length ms) H) as (acc & r' & Hb).
  - apply in_seq. lia.
  - apply outcome_bind_Ok in Hb. destruct Hb as (mdl & Hm & _).
    unfold model_at, model_list, attribute in Hm. rewrite Hf in Hm. simpl in Hm.
    rewrite (proj2 (nth_error_None ms (length ms))) in Hm by lia. discriminate.
Qed.

End Facts.

End ControllerFacts.

Section ControllerProperties.
Import Optimiser OptimiserSpec OptimiserFacts ControllerFacts.

Variable num : Numeric.
Variable mvo : MVO num.
Variable lib : Library num.

(** With a matrix of constraints [multinextcondition] never returns: whatever
    the data, it ends in an exception; and when the two fits and the update of
    the front succeed, that exception is the [NotImplementedError] of the
    algorithm name 'Simplical', raised after [self.models],
    [self.currentfront] and [self.constrainedmodels] have been overwritten. *)
Theorem constrained_path_never_returns (X Y C : Np.ndarray num) (values_none : bool)
    (method mode : string) (w : world num) :
  (exists e w',
     multinextcondition mvo lib X Y (Some C) values_none method mode w = (Raise e, w'))
  /\ (forall ms w1 w2 cms w3,
        generatemodels mvo X Y true (lit num 1) w = (Ok ms, w1) ->
        update_front (assigned (set_models ms) w1) = (Ok tt, w2) ->
        generatemodels mvo X C false (lit num 1) w2 = (Ok cms, w3) ->
        multinextcondition mvo lib X Y (Some C) values_none method mode w
        = (Raise NotImplementedError, assigned (set_constrainedmodels cms) w3))
  /\ (forall ms w1 w2 cms w3,
        generatemodels mvo X Y true (lit num 1) w = (Ok ms, w1) ->
        update_front (assigned (set_models ms) w1) = (Ok tt, w2) ->
        generatemodels mvo X C false (lit num 1) w2 = (Ok cms, w3) ->
        exists w' Ys F,
          multinextcondition mvo lib X Y (Some C) values_none method mode w
          = (Raise NotImplementedError, w')
          /\ models (self w') = Some ms
          /\ constrainedmodels (self w') = Some cms
          /\ Yscaled (self w1) = Some Ys
          /\ Optimiser.paretofront Ys = Ok F
          /\ currentfront (self w') = Some F).
Proof.
  assert (T : forall ms w1 w2 cms w3,
             generatemodels mvo X Y true (lit num 1) w = (Ok ms, w1) ->
             update_front (assigned (set_models ms) w1) = (Ok tt, w2) ->
             generatemodels mvo X C false (lit num 1) w2 = (Ok cms, w3) ->
             multinextcondition mvo lib X Y (Some C) values_none method mode w
             = (Raise NotImplementedError, assigned (set_constrainedmodels cms) w3)).
  { intros ms w1 w2 cms w3 H1 H2 H3. unfold multinextcondition.
    unfold bind at 1. cbn [ret]. unfold bind at 1. rewrite H1.
    unfold bind at 1. cbn [assign]. unfold bind at 1. rewrite H2.
    unfold bind at 1. cbn [constraints_array]. rewrite H3. unfold bind at 1. cbn [assign].
    unfold bind at 1. rewrite simplical_raises. reflexivity. }
  split; [|split; [exact T|]].
  - destruct (multinextcondition mvo lib X Y (Some C) values_none method mode w)
      as [[v | e] w'] eqn:E; [|eauto].
    exfalso. revert E. apply constrained_tail.
  - intros ms w1 w2 cms w3 H1 H2 H3.
    pose proof (@generatemodels_frame num mvo _ (@models num)
                  ltac:(reflexivity) ltac:(reflexivity) ltac:(reflexivity)
                  ltac:(reflexivity) X C false (lit num 1) w2) as Fm.
    pose proof (@generatemodels_frame num mvo _ (@currentfront num)
                  ltac:(reflexivity) ltac:(reflexivity) ltac:(reflexivity)
                  ltac:(reflexivity) X C false (lit num 1) w2) as Ff.
    rewrite H3 in Fm, Ff. cbn [snd] in Fm, Ff.
    pose proof (T _ _ _ _ _ H1 H2 H3) as Hrun.
    unfold update_front in H2. step_in H2.
    unfold assign in H2. injection H2 as <-.
    unfold call in E. injection E as E <-.
    cbn [assigned self] in E.
    apply outcome_bind_Ok in E. destruct E as (Ys & HY & HF).
    unfold attribute in HY. cbn [set_models Yscaled] in HY.
    destruct (Yscaled (self w1)) as [Ys' |] eqn:EY; [|discriminate].
    injection HY as ->.
    exists (assigned (set_constrainedmodels cms) w3), Ys, a.
    split; [exact Hrun|].
    split; [cbn [assigned self set_constrainedmodels models]; rewrite Fm; reflexivity|].
    split; [reflexivity|]. split; [reflexivity|]. split; [exact HF|].
    cbn [assigned self set_constrainedmodels currentfront]. rewrite Ff. reflexivity.
Qed.

(** With [values] given [multinextcondition] never returns either: the
    unconstrained branch ends without a [return], the code below it fits the
    models again and then unpacks [np.shape(False)], which raises. *)
Theorem values_given_never_returns (X Y : Np.ndarray num)
    (constraints : option (Np.ndarray num)) (method mode : string) (w : world num) :
  exists e w', multinextcondition mvo lib X Y constraints false method mode w = (Raise e, w').
Proof.
  destruct (multinextcondition mvo lib X Y constraints false method mode w)
    as [[v | e] w'] eqn:E; [|eauto].
  exfalso. revert E. apply values_tail.
Qed.

(** After the fit phase [self.k_type] is 'matern3' if the fit with the default
    kernel succeeded and 'matern5' otherwise: every retry with a fixed variance
    runs with 'matern5'. The method prints nothing in the first case and the
    message of the failed kernel first in the second; the phase itself does
    not raise. *)
Theorem fit_phase_kernel (X Y : Np.ndarray num) (w : world num) :
  exists w',
    fit_models mvo X Y w = (Ok tt, w')
    /\ ((exists ms w1,
           generatemodels mvo X Y true (lit num 1) (assigned (set_k_type "matern3") w)
           = (Ok ms, w1))
        /\ k_type (self w') = "matern3"%string /\ stdout w' = stdout w
        \/ (exists e w1,
              generatemodels mvo X Y true (lit num 1) (assigned (set_k_type "matern3") w)
              = (Raise e, w1))
           /\ k_type (self w') = "matern5"%string
           /\ exists l, stdout w' = stdout w ++ kernel_failed :: l).
Proof.
  destruct (generatemodels mvo X Y true (lit num 1) (assigned (set_k_type "matern3") w))
    as [[ms | e1] w1] eqn:E1.
  - exists (assigned (set_models ms) w1). split; [now apply fit_models_default_kernel|].
    left. split; [eauto|].
    pose proof (generatemodels_keeps_bank mvo X Y true (lit num 1)
                  (assigned (set_k_type "matern3") w)) as K.
    rewrite E1 in K. destruct K as (_ & K2 & K3). simpl in *. auto.
  - pose proof (generatemodels_keeps_bank mvo X Y true (lit num 1)
                  (assigned (set_k_type "matern3") w)) as K.
    rewrite E1 in K. destruct K as (_ & _ & K3). simpl in K3.
    pose proof (generatemodels_keeps_bank mvo X Y true (lit num 1)
                  (assigned (set_k_type "matern5") (written kernel_failed w1))) as K'.
    destruct (generatemodels mvo X Y true (lit num 1)
                (assigned (set_k_type "matern5") (written kernel_failed w1)))
      as [[ms | e2] w2] eqn:E2; destruct K' as (_ & K2' & K3'); simpl in K2', K3'.
    + exists (assigned (set_models ms) w2).
      split; [eapply fit_models_alternate_kernel; eassumption|].
      right. split; [eauto|]. simpl. split; [exact K2'|].
      exists []. now rewrite K3', K3.
    + rewrite (fit_models_variances mvo X Y w E1 E2).
      destruct (retry_variances_run mvo X Y (written variance_failed w2))
        as (w3 & w4 & w5 & w6 & A1 & A2 & A3 & A4 & E).
      exists w6. split; [exact E|]. right. split; [eauto|].
      pose proof (@attempted_kernel _ _ _ _ _ _ _ A1). pose proof (@attempted_kernel _ _ _ _ _ _ _ A2).
      pose proof (@attempted_kernel _ _ _ _ _ _ _ A3). pose proof (@attempted_kernel _ _ _ _ _ _ _ A4).
      destruct (@attempted_output _ _ _ _ _ _ _ A1) as (l1 & O1).
      destruct (@attempted_output _ _ _ _ _ _ _ A2) as (l2 & O2).
      destruct (@attempted_output _ _ _ _ _ _ _ A3) as (l3 & O3).
      destruct (@attempted_output _ _ _ _ _ _ _ A4) as (l4 & O4).
      simpl in *. split; [congruence|].
      exists (variance_failed :: l1 ++ l2 ++ l3 ++ l4).
      rewrite O4, O3, O2, O1, K3', K3. rewrite <- !app_assoc. reflexivity.
Qed.

(** [AEIMmixedoptimiser] and the constraints: 'Random Local' refuses them, it
    never returns when they are given; every other algorithm name ignores
    them. *)
Theorem AEIM_and_constraints (C : Np.ndarray num) (values_none : bool) (w : world num) :
  (exists e w',
     AEIMmixedoptimiser mvo lib (Some C) "Random Local" values_none w = (Raise e, w'))
  /\ (forall algorithm, algorithm <> "Random Local"%string ->
        AEIMmixedoptimiser mvo lib (Some C) algorithm values_none w
        = AEIMmixedoptimiser mvo lib None algorithm values_none w).
Proof.
  split.
  - destruct (AEIMmixedoptimiser mvo lib (Some C) "Random Local" values_none w)
      as [[v | e] w'] eqn:E; [|eauto].
    exfalso. unfold AEIMmixedoptimiser in E.
    step_in E. cbn [String.eqb Ascii.eqb Bool.eqb] in E.
    step_in E. unfold bind at 1 in E. discriminate.
  - intros algorithm H. apply String.eqb_neq in H.
    unfold AEIMmixedoptimiser. rewrite H. reflexivity.
Qed.

(** With [values] given, 'Random Local' hands back what 'Random' does: the
    best sample and the samples; the refinement it ran is discarded. *)
Theorem refinement_discarded_with_values (constraints : option (Np.ndarray num))
    (mode : string) (w w' : world num) (v : pyval num) :
  mode <> "all"%string ->
  EIMmixedoptimiser mvo lib constraints "Random Local" false mode w = (Ok v, w') ->
  EIMmixedoptimiser mvo lib constraints "Random" false mode w = (Ok v, w').
Proof.
  intros Hm H. apply String.eqb_neq in Hm.
  unfold EIMmixedoptimiser in *. cbn [String.eqb Ascii.eqb Bool.eqb] in *.
  rewrite Hm in H.
  step_in H. unfold bind at 1. rewrite E.
  step_in H. unfold bind at 1. rewrite E0.
  step_in H. unfold bind at 1. rewrite E1.
  step_in H. step_in H. step_in H.
  unfold call in E2, E3, E4.
  injection E2 as _ <-. injection E3 as _ <-. injection E4 as _ <-.
  exact H.
Qed.

(** Every acquisition function asks the bank for one model per column of the
    front: with fewer models than columns none of them returns a value. *)
Theorem acquisition_needs_a_model_per_objective (me : MVMOO num) (X f : Np.ndarray num)
    (nobj : nat) (ms : list (Model num)) :
  currentfront me = Some f -> nth_error (Np.shape f) 1 = Some nobj ->
  models me = Some (Some ms) -> length ms < nobj ->
  (forall mode, exists e, EIM mvo me X mode = Raise e)
  /\ (exists e, CEIM_Hypervolume me X = Raise e)
  /\ (exists e, AEIM_Hypervolume me X = Raise e)
  /\ (exists e, AEIM_Euclidean mvo me X = Raise e).
Proof.
  intros Hf Hn Hm Hl.
  assert (Hs : Np.shape_at f 1 = Ok nobj) by (unfold Np.shape_at; now rewrite Hn).
  repeat split.
  - intros mode. destruct (EIM mvo me X mode) as [v | e] eqn:E; [|eauto].
    exfalso. unfold EIM, attribute in E. rewrite Hf in E. cbn [outcome_bind] in E.
    apply outcome_bind_Ok in E. destruct E as (nfx & _ & E).
    rewrite Hs in E. cbn [outcome_bind] in E.
    apply outcome_bind_Ok in E. destruct E as (nx & _ & E).
    apply outcome_bind_Ok in E. destruct E as (X' & _ & E).
    apply outcome_bind_Ok in E. destruct E as (uv & Hp & _).
    apply (@predict_all_within _ _ _ _ _ _ _ _ Hm) in Hp. lia.
  - destruct (CEIM_Hypervolume me X) as [v | e] eqn:E; [|eauto].
    exfalso. unfold CEIM_Hypervolume in E.
    apply outcome_bind_Ok in E. destruct E as (y & E & _).
    unfold hypervolume_improvement, attribute in E. rewrite Hf in E.
    cbn [outcome_bind] in E. rewrite Hs in E. cbn [outcome_bind] in E.
    apply outcome_bind_Ok in E. destruct E as (nx & _ & E).
    apply outcome_bind_Ok in E. destruct E as (uv & Hp & _).
    apply (@predict_all_within _ _ _ _ _ _ _ _ Hm) in Hp. lia.
  - destruct (AEIM_Hypervolume me X) as [v | e] eqn:E; [|eauto].
    exfalso. unfold AEIM_Hypervolume, attribute in E. rewrite Hf in E.
    cbn [outcome_bind] in E.
    apply outcome_bind_Ok in E. destruct E as (c & _ & E).
    apply outcome_bind_Ok in E. destruct E as (nfx & _ & E).
    rewrite Hs in E. cbn [outcome_bind] in E.
    apply outcome_bind_Ok in E. destruct E as (nx & _ & E).
    apply outcome_bind_Ok in E. destruct E as (uv & Hp & _).
    apply (@predict_all_within _ _ _ _ _ _ _ _ Hm) in Hp. lia.
  - destruct (AEIM_Euclidean mvo me X) as [v | e] eqn:E; [|eauto].
    exfalso. unfold AEIM_Euclidean, attribute in E. rewrite Hf in E.
    cbn [outcome_bind] in E.
    apply outcome_bind_Ok in E. destruct E as (c & _ & E).
    apply outcome_bind_Ok in E. destruct E as (nfx & _ & E).
    rewrite Hs in E. cbn [outcome_bind] in E.
    apply outcome_bind_Ok in E. destruct E as (nx & _ & E).
    apply outcome_bind_Ok in E. destruct E as (X' & _ & E).
    apply outcome_bind_Ok in E. destruct E as (uv & Hp & _).
    apply (@predict_all_within _ _ _ _ _ _ _ _ Hm) in Hp. lia.
Qed.

(** [CEIM_Hypervolume] needs a constraint model: with an empty bank
    [np.concatenate] of no array raises [ValueError], and with the [None] that
    [generatemodels(..., scale=False)] returns for a matrix without columns
    [len(None)] raises [TypeError]. *)
Theorem CEIM_needs_a_constraint_model (me : MVMOO num) (X y : Np.ndarray num) :
  hypervolume_improvement me X = Ok y ->
  (constrainedmodels me = Some (Some []) -> CEIM_Hypervolume me X = Raise ValueError)
  /\ (constrainedmodels me = Some None -> CEIM_Hypervolume me X = Raise TypeError).
Proof.
  intros H. unfold CEIM_Hypervolume. rewrite H. cbn [outcome_bind].
  unfold feasibility, model_list, attribute.
  split; intros ->; reflexivity.
Qed.

End ControllerProperties.

(** ** The shapes of the acquisition values *)

Module ShapeFacts.
Import Optimiser OptimiserSpec OptimiserFacts.

Section Facts.

Variable num : Numeric.
Variable mvo : MVO num.

Abbreviation ndarray := (Np.ndarray num).

Lemma broadcast_dim (d1 d2 : nat) (s : list nat) (r : list nat) :
  (if d1 =? d2 then Some (d1 :: s)
   else if d1 =? 1 then Some (d2 :: s)
   else if d2 =? 1 then Some (d1 :: s) else None) = Some r ->
  exists d, r = d :: s /\ joined d1 d2 d.
Proof.
  unfold joined.
  destruct (Nat.eqb_spec d1 d2); [intros [= <-]; eauto 6|].
  destruct (Nat.eqb_spec d1 1); [intros [= <-]; eauto 6|].
  destruct (Nat.eqb_spec d2 1); [intros [= <-]; eauto 7|].
  discriminate.
Qed.

Lemma broadcast_shape_3 (a1 b1 c1 a2 b2 c2 : nat) (sh : list nat) :
  Np.broadcast_shape [a1; b1; c1] [a2; b2; c2] = Some sh ->
  exists a b c, sh = [a; b; c] /\ joined a1 a2 a /\ joined b1 b2 b /\ joined c1 c2 c.
Proof.
  unfold Np.broadcast_shape. cbn [rev app Np.broadcast_rev].
  intros H.
  destruct (if a1 =? a2 then _ else _) as [ra|] eqn:Ea in H; [|discriminate].
  apply broadcast_dim in Ea. destruct Ea as (a & -> & Ja).
  destruct (if b1 =? b2 then _ else _) as [rb|] eqn:Eb in H; [|discriminate].
  apply broadcast_dim in Eb. destruct Eb as (b & -> & Jb).
  destruct (if c1 =? c2 then _ else _) as [rc|] eqn:Ec in H; [|discriminate].
  apply broadcast_dim in Ec. destruct Ec as (c & -> & Jc).
  cbn in H. injection H as <-. eauto 8.
Qed.

Lemma broadcast_shape_2 (a1 b1 a2 b2 : nat) (sh : list nat) :
  Np.broadcast_shape [a1; b1] [a2; b2] = Some sh ->
  exists a b, sh = [a; b] /\ joined a1 a2 a /\ joined b1 b2 b.
Proof.
  unfold Np.broadcast_shape. cbn [rev app Np.broadcast_rev].
  intros H.
  destruct (if a1 =? a2 then _ else _) as [ra|] eqn:Ea in H; [|discriminate].
  apply broadcast_dim in Ea. destruct Ea as (a & -> & Ja).
  destruct (if b1 =? b2 then _ else _) as [rb|] eqn:Eb in H; [|discriminate].
  apply broadcast_dim in Eb. destruct Eb as (b & -> & Jb).
  cbn in H. injection H as <-. eauto 8.
Qed.

Lemma binary_shape (op : num -> num -> num) (a b r : ndarray) :
  Np.binary op a b = Ok r -> Np.broadcast_shape (Np.shape a) (Np.shape b) = Some (Np.shape r).
Proof.
  unfold Np.binary. destruct (Np.broadcast_shape _ _); [|discriminate].
  now intros [= <-].
Qed.

Lemma binary_shape_3 (op : num -> num -> num) (x y r : ndarray) (a b c : nat) :
  Np.shape x = [a; b; c] -> Np.shape y = [a; b; c] ->
  Np.binary op x y = Ok r -> Np.shape r = [a; b; c].
Proof.
  intros Hx Hy H. apply binary_shape in H. rewrite Hx, Hy in H.
  apply broadcast_shape_3 in H. destruct H as (a' & b' & c' & -> & Ja & Jb & Jc).
  unfold joined in *. repeat f_equal; lia.
Qed.

Lemma reduce_shape (op : num -> num -> num) (e : num) (a r : ndarray) (k : nat) :
  Np.reduce op e a k = Ok r -> Np.shape r = Np.drop_axis k (Np.shape a).
Proof. unfold Np.reduce. destruct (k <? Np.ndim a); [|discriminate]. now intros [= <-]. Qed.

Lemma reduce1_shape (op : num -> num -> num) (a r : ndarray) (k : nat) :
  Np.reduce1 op a k = Ok r -> Np.shape r = Np.drop_axis k (Np.shape a).
Proof.
  unfold Np.reduce1. destruct (k <? Np.ndim a); [|discriminate].
  destruct (_ && _); [discriminate|]. now intros [= <-].
Qed.

Lemma reshape_3_shape (x r : ndarray) (a b c : nat) :
  Np.reshape x [Some a; Some b; Some c] = Ok r -> Np.shape r = [a; b; c].
Proof.
  unfold Np.reshape, Np.resolve_shape. cbn [filter length map].
  destruct (_ =? _); [|discriminate]. now intros [= <-].
Qed.

Lemma reshape_column_shape (x r : ndarray) :
  Np.reshape x [None; Some 1] = Ok r -> Np.shape r = [Np.size x; 1].
Proof.
  unfold Np.reshape, Np.resolve_shape. cbn [filter length map Np.known_size fold_right].
  cbn [Nat.mul Nat.add Nat.eqb orb].
  rewrite Nat.mod_1_r. cbn [Nat.eqb negb]. rewrite Nat.div_1_r.
  now intros [= <-].
Qed.

Lemma per_candidate_shape (x r : ndarray) (nfx nobj nx : nat) :
  per_candidate x nfx nobj nx = Ok r -> Np.shape r = [nfx; nobj; nx].
Proof.
  unfold per_candidate. intros H.
  apply outcome_bind_Ok in H. destruct H as (t & Ht & H).
  apply reshape_3_shape in Ht. apply binary_shape in H.
  rewrite Ht in H. cbn [Np.ones Np.shape] in H.
  apply broadcast_shape_3 in H. destruct H as (a & b & c & -> & Ja & Jb & Jc).
  unfold joined in *. repeat f_equal; lia.
Qed.

Lemma per_front_point_shape (x r : ndarray) (nfx nobj nx : nat) :
  per_front_point x nfx nobj nx = Ok r -> Np.shape r = [nfx; nobj; nx].
Proof.
  unfold per_front_point. intros H.
  apply outcome_bind_Ok in H. destruct H as (t & Ht & H).
  apply reshape_3_shape in Ht. apply binary_shape in H.
  rewrite Ht in H. cbn [Np.ones Np.shape] in H.
  apply broadcast_shape_3 in H. destruct H as (a & b & c & -> & Ja & Jb & Jc).
  unfold joined in *. repeat f_equal; lia.
Qed.

Lemma expected_improvement_shape (d s Z r : ndarray) (a b c : nat) :
  Np.shape d = [a; b; c] -> Np.shape s = [a; b; c] -> Np.shape Z = [a; b; c] ->
  expected_improvement d s Z = Ok r -> Np.shape r = [a; b; c].
Proof.
  intros Hd Hs HZ H. unfold expected_improvement in H.
  apply outcome_bind_Ok in H. destruct H as (x & Hx & H).
  apply outcome_bind_Ok in H. destruct H as (y & Hy & H).
  apply (@binary_shape_3 _ d (Np.map_array (norm_cdf num) Z) x a b c Hd HZ) in Hx.
  apply (@binary_shape_3 _ s (Np.map_array (norm_pdf num) Z) y a b c Hs HZ) in Hy.
  exact (binary_shape_3 _ _ _ Hx Hy H).
Qed.

Lemma size_of_1 (n : nat) : Np.size_of [n] = n.
Proof. unfold Np.size_of. simpl. lia. Qed.

Lemma euclidean_score_shape (EI y : ndarray) (nfx nobj nx : nat) :
  Np.shape EI = [nfx; nobj; nx] -> euclidean_score EI = Ok y -> Np.shape y = [nx; 1].
Proof.
  intros HE H. unfold euclidean_score in H.
  apply outcome_bind_Ok in H. destruct H as (s & Hs & H).
  apply outcome_bind_Ok in H. destruct H as (mn & Hmn & H).
  apply reduce_shape in Hs. cbn [Np.map_array Np.shape] in Hs. rewrite HE in Hs.
  apply reduce1_shape in Hmn. cbn [Np.map_array Np.shape] in Hmn. rewrite Hs in Hmn.
  apply reshape_column_shape in H. unfold Np.size in H. rewrite Hmn in H.
  cbn [Np.drop_axis firstn skipn app] in H. now rewrite size_of_1 in H.
Qed.

Lemma maxmin_score_shape (EI y : ndarray) (nfx nobj nx : nat) :
  Np.shape EI = [nfx; nobj; nx] -> maxmin_score EI = Ok y -> Np.shape y = [nx; 1].
Proof.
  intros HE H. unfold maxmin_score in H.
  apply outcome_bind_Ok in H. destruct H as (s & Hs & H).
  apply outcome_bind_Ok in H. destruct H as (mn & Hmn & H).
  apply reduce1_shape in Hs. rewrite HE in Hs.
  apply reduce1_shape in Hmn. rewrite Hs in Hmn.
  apply reshape_column_shape in H. unfold Np.size in H. rewrite Hmn in H.
  cbn [Np.drop_axis firstn skipn app] in H. now rewrite size_of_1 in H.
Qed.

Lemma hypervolume_score_shape (r f f_matrix EI y : ndarray) (nfx nobj nx : nat) :
  Np.shape f_matrix = [nfx; nobj; nx] -> Np.shape EI = [nfx; nobj; nx] ->
  hypervolume_score r f f_matrix EI = Ok y -> Np.shape y = [nx; 1].
Proof.
  intros Hf HE H. unfold hypervolume_score in H.
  apply outcome_bind_Ok in H. destruct H as (r3 & Hr3 & H).
  apply outcome_bind_Ok in H. destruct H as (a & Ha & H).
  apply outcome_bind_Ok in H. destruct H as (b & Hb & H).
  apply outcome_bind_Ok in H. destruct H as (p & Hp & H).
  apply outcome_bind_Ok in H. destruct H as (c & Hc & H).
  apply outcome_bind_Ok in H. destruct H as (q & Hq & H).
  apply outcome_bind_Ok in H. destruct H as (q' & Hq' & H).
  apply outcome_bind_Ok in H. destruct H as (d & Hd & H).
  apply outcome_bind_Ok in H. destruct H as (mn & Hmn & H).
  apply reshape_3_shape in Hr3.
  apply binary_shape in Ha. rewrite Hr3, Hf in Ha.
  apply broadcast_shape_3 in Ha. destruct Ha as (a1 & a2 & a3 & Sa & J1 & J2 & J3).
  apply binary_shape in Hb. rewrite Sa, HE in Hb.
  apply broadcast_shape_3 in Hb. destruct Hb as (b1 & b2 & b3 & Sb & K1 & K2 & K3).
  apply reduce_shape in Hp. rewrite Sb in Hp. cbn [Np.drop_axis firstn skipn app] in Hp.
  apply reshape_column_shape in Hq'.
  apply binary_shape in Hd. rewrite Hp, Hq' in Hd.
  apply broadcast_shape_2 in Hd. destruct Hd as (d1 & d2 & Sd & L1 & L2).
  apply reduce1_shape in Hmn. rewrite Sd in Hmn. cbn [Np.drop_axis firstn skipn app] in Hmn.
  apply reshape_column_shape in H. unfold Np.size in H. rewrite Hmn, size_of_1 in H.
  rewrite H. unfold joined in *. repeat f_equal; lia.
Qed.

Lemma add_columns_shape (y1 y2 y : ndarray) (n : nat) :
  Np.shape y1 = [n; 1] -> Np.shape y2 = [n; 1] -> Np.add y1 y2 = Ok y ->
  Np.shape y = [n; 1].
Proof.
  intros H1 H2 H. apply binary_shape in H. rewrite H1, H2 in H.
  apply broadcast_shape_2 in H. destruct H as (a & b & -> & Ja & Jb).
  unfold joined in *. repeat f_equal; lia.
Qed.

Lemma hstack_columns_shape (y1 y2 y : ndarray) (n : nat) :
  Np.shape y1 = [n; 1] -> Np.shape y2 = [n; 1] -> Np.concatenate_axis1 [y1; y2] = Ok y ->
  Np.shape y = [n; 2].
Proof.
  intros H1 H2 H. unfold Np.concatenate_axis1 in H.
  destruct (forallb _ _); [|discriminate].
  destruct (forallb _ _); [|discriminate].
  injection H as <-. cbn [Np.shape map list_sum]. rewrite H1, H2. reflexivity.
Qed.

(** The matrices of expected improvements that the acquisition functions
    build have one entry per front point, objective and candidate. *)
Lemma improvement_matrices (f u std : ndarray) (nfx nobj nx : nat)
    (u_matrix s_matrix f_matrix : ndarray) :
  per_candidate u nfx nobj nx = Ok u_matrix ->
  per_candidate std nfx nobj nx = Ok s_matrix ->
  per_front_point f nfx nobj nx = Ok f_matrix ->
  Np.shape u_matrix = [nfx; nobj; nx]
  /\ Np.shape s_matrix = [nfx; nobj; nx]
  /\ Np.shape f_matrix = [nfx; nobj; nx].
Proof.
  intros Hu Hs Hf.
  apply per_candidate_shape in Hu, Hs. apply per_front_point_shape in Hf. auto.
Qed.

Lemma EIM_shape (me : MVMOO num) (X y : ndarray) (mode : string) (nx : nat) :
  nth_error (Np.shape X) 0 = Some nx -> EIM mvo me X mode = Ok y ->
  Np.shape y = [nx; if single_criterion mode then 1 else 2].
Proof.
  intros HX H. unfold EIM in H.
  apply outcome_bind_Ok in H. destruct H as (f & _ & H).
  apply outcome_bind_Ok in H. destruct H as (nfx & _ & H).
  apply outcome_bind_Ok in H. destruct H as (nobj & _ & H).
  apply outcome_bind_Ok in H. destruct H as (nx' & Hnx & H).
  unfold Np.shape_at in Hnx. rewrite HX in Hnx. injection Hnx as <-.
  apply outcome_bind_Ok in H. destruct H as (X' & _ & H).
  apply outcome_bind_Ok in H. destruct H as (uv & _ & H).
  apply outcome_bind_Ok in H. destruct H as (u & _ & H).
  apply outcome_bind_Ok in H. destruct H as (var & _ & H).
  apply outcome_bind_Ok in H. destruct H as (u_matrix & Hu & H).
  apply outcome_bind_Ok in H. destruct H as (s_matrix & Hs & H).
  apply outcome_bind_Ok in H. destruct H as (f_matrix & Hf & H).
  destruct (improvement_matrices _ _ _ _ _ _ Hu Hs Hf) as (Su & Ss & Sf).
  apply outcome_bind_Ok in H. destruct H as (Z & HZ & H).
  apply outcome_bind_Ok in HZ. destruct HZ as (d & Hd & HZ).
  apply (binary_shape_3 _ _ _ Sf Su) in Hd.
  apply (binary_shape_3 _ _ _ Hd Ss) in HZ.
  apply outcome_bind_Ok in H. destruct H as (EI & HE & H).
  apply outcome_bind_Ok in HE. destruct HE as (d' & Hd' & HE).
  apply (binary_shape_3 _ _ _ Sf Su) in Hd'.
  apply (expected_improvement_shape _ _ _ Hd' Ss HZ) in HE.
  unfold single_criterion.
  destruct (String.eqb mode "euclidean"); [exact (euclidean_score_shape _ HE H)|].
  destruct (String.eqb mode "hypervolume"); [exact (hypervolume_score_shape _ _ _ _ Sf HE H)|].
  destruct (String.eqb mode "maxmin"); [exact (maxmin_score_shape _ HE H)|].
  destruct (String.eqb mode "combine"); cbn [orb].
  - apply outcome_bind_Ok in H. destruct H as (y1 & H1 & H).
    apply outcome_bind_Ok in H. destruct H as (y2 & H2 & H).
    apply (euclidean_score_shape _ HE) in H1.
    apply (hypervolume_score_shape _ _ _ _ Sf HE) in H2.
    exact (add_columns_shape _ _ H1 H2 H).
  - apply outcome_bind_Ok in H. destruct H as (y1 & H1 & H).
    apply outcome_bind_Ok in H. destruct H as (y2 & H2 & H).
    apply (euclidean_score_shape _ HE) in H1.
    apply (hypervolume_score_shape _ _ _ _ Sf HE) in H2.
    exact (hstack_columns_shape _ _ H1 H2 H).
Qed.

Lemma AEIM_shape (me : MVMOO num) (X : ndarray) (nx : nat) :
  nth_error (Np.shape X) 0 = Some nx ->
  (forall y, AEIM_Hypervolume me X = Ok y -> Np.shape y = [nx; 1])
  /\ (forall y, AEIM_Euclidean mvo me X = Ok y -> Np.shape y = [nx; 1]).
Proof.
  intros HX. split; intros y H.
  - unfold AEIM_Hypervolume in H.
    apply outcome_bind_Ok in H. destruct H as (f & _ & H).
    apply outcome_bind_Ok in H. destruct H as (c & _ & H).
    apply outcome_bind_Ok in H. destruct H as (nfx & _ & H).
    apply outcome_bind_Ok in H. destruct H as (nobj & _ & H).
    apply outcome_bind_Ok in H. destruct H as (nx' & Hnx & H).
    unfold Np.shape_at in Hnx. rewrite HX in Hnx. injection Hnx as <-.
    apply outcome_bind_Ok in H. destruct H as (uv & _ & H).
    apply outcome_bind_Ok in H. destruct H as (u & _ & H).
    apply outcome_bind_Ok in H. destruct H as (var & _ & H).
    apply outcome_bind_Ok in H. destruct H as (u_matrix & Hu & H).
    apply outcome_bind_Ok in H. destruct H as (s_matrix & Hs & H).
    apply outcome_bind_Ok in H. destruct H as (f_matrix & Hf & H).
    destruct (improvement_matrices _ _ _ _ _ _ Hu Hs Hf) as (Su & Ss & Sf).
    apply outcome_bind_Ok in H. destruct H as (c_matrix & Hc & H).
    apply per_front_point_shape in Hc.
    apply outcome_bind_Ok in H. destruct H as (Z & HZ & H).
    apply outcome_bind_Ok in HZ. destruct HZ as (d & Hd & HZ).
    apply outcome_bind_Ok in HZ. destruct HZ as (e & He & HZ).
    apply (binary_shape_3 _ _ _ Sf Su) in Hd.
    apply (binary_shape_3 _ _ _ Hd Hc) in He.
    apply (binary_shape_3 _ _ _ He Ss) in HZ.
    apply outcome_bind_Ok in H. destruct H as (EI & HE & H).
    apply outcome_bind_Ok in HE. destruct HE as (d' & Hd' & HE).
    apply (binary_shape_3 _ _ _ Sf Su) in Hd'.
    apply (expected_improvement_shape _ _ _ Hd' Ss HZ) in HE.
    exact (hypervolume_score_shape _ _ _ _ Sf HE H).
  - unfold AEIM_Euclidean in H.
    apply outcome_bind_Ok in H. destruct H as (f & _ & H).
    apply outcome_bind_Ok in H. destruct H as (c & _ & H).
    apply outcome_bind_Ok in H. destruct H as (nfx & _ & H).
    apply outcome_bind_Ok in H. destruct H as (nobj & _ & H).
    apply outcome_bind_Ok in H. destruct H as (nx' & Hnx & H).
    unfold Np.shape_at in Hnx. rewrite HX in Hnx. injection Hnx as <-.
    apply outcome_bind_Ok in H. destruct H as (X' & _ & H).
    apply outcome_bind_Ok in H. destruct H as (uv & _ & H).
    apply outcome_bind_Ok in H. destruct H as (u & _ & H).
    apply outcome_bind_Ok in H. destruct H as (var & _ & H).
    apply outcome_bind_Ok in H. destruct H as (u_matrix & Hu & H).
    apply outcome_bind_Ok in H. destruct H as (s_matrix & Hs & H).
    apply outcome_bind_Ok in H. destruct H as (f_matrix & Hf & H).
    destruct (improvement_matrices _ _ _ _ _ _ Hu Hs Hf) as (Su & Ss & Sf).
    apply outcome_bind_Ok in H. destruct H as (c_matrix & Hc & H).
    apply per_front_point_shape in Hc.
    apply outcome_bind_Ok in H. destruct H as (Z & HZ & H).
    apply outcome_bind_Ok in HZ. destruct HZ as (d & Hd & HZ).
    apply outcome_bind_Ok in HZ. destruct HZ as (e & He & HZ).
    apply (binary_shape_3 _ _ _ Sf Su) in Hd.
    apply (binary_shape_3 _ _ _ Hd Hc) in He.
    apply (binary_shape_3 _ _ _ He Ss) in HZ.
    apply outcome_bind_Ok in H. destruct H as (EI & HE & H).
    apply outcome_bind_Ok in HE. destruct HE as (d' & Hd' & HE).
    apply (binary_shape_3 _ _ _ Sf Su) in Hd'.
    apply (expected_improvement_shape _ _ _ Hd' Ss HZ) in HE.
    exact (euclidean_score_shape _ HE H).
Qed.

End Facts.

End ShapeFacts.

(** ** The scores and the best sample *)

Module AcquisitionFacts.
Import Optimiser OptimiserSpec OptimiserFacts ControllerFacts ShapeFacts.

Section Facts.

Variable num : Numeric.
Variable mvo : MVO num.
Variable lib : Library num.

Abbreviation ndarray := (Np.ndarray num).

(** What the modes 'combine' and 'all' do with the two scores. *)
Lemma two_scores (B : Type) (c1 c2 : outcome ndarray) (k : ndarray -> ndarray -> outcome B)
    (y : B) :
  (y1 <~ c1 ;; y2 <~ c2 ;; k y1 y2) = Ok y
  <-> exists y1 y2, c1 = Ok y1 /\ c2 = Ok y2 /\ k y1 y2 = Ok y.
Proof.
  split.
  - intros H. apply outcome_bind_Ok in H. destruct H as (y1 & H1 & H).
    apply outcome_bind_Ok in H. destruct H as (y2 & H2 & H). eauto.
  - intros (y1 & y2 & -> & -> & H). exact H.
Qed.

Lemma no_scores (B : Type) (k : ndarray -> ndarray -> outcome B) (y : B) (e : exn) :
  @Raise B e = Ok y
  <-> exists y1 y2, @Raise ndarray e = Ok y1 /\ @Raise ndarray e = Ok y2 /\ k y1 y2 = Ok y.
Proof. split; [discriminate | intros (? & ? & H & _); discriminate]. Qed.

Lemma EIM_two_scores (me : MVMOO num) (X : ndarray) (mode : string)
    (k : ndarray -> ndarray -> outcome ndarray) (y : ndarray) :
  String.eqb mode "euclidean" = false -> String.eqb mode "hypervolume" = false ->
  String.eqb mode "maxmin" = false ->
  (forall y1 y2, (if String.eqb mode "combine" then Np.add y1 y2
                  else Np.concatenate_axis1 [y1; y2]) = k y1 y2) ->
  (EIM mvo me X mode = Ok y
   <-> exists y1 y2, EIM mvo me X "euclidean" = Ok y1
                     /\ EIM mvo me X "hypervolume" = Ok y2
                     /\ k y1 y2 = Ok y).
Proof.
  intros M1 M2 M3 Hk. unfold EIM. rewrite M1, M2, M3.
  change (String.eqb "euclidean" "euclidean") with true.
  change (String.eqb "hypervolume" "euclidean") with false.
  change (String.eqb "hypervolume" "hypervolume") with true.
  cbv iota.
  repeat match goal with
         | |- context [outcome_bind ?c _] =>
             lazymatch c with
             | euclidean_score _ => fail
             | hypervolume_score _ _ _ _ => fail
             | _ => destruct c; cbn [outcome_bind]; [|apply no_scores]
             end
         end.
  rewrite <- two_scores.
  destruct (String.eqb mode "combine");
    (split; intros H;
     [ apply outcome_bind_Ok in H; destruct H as (y1 & H1 & H);
       apply outcome_bind_Ok in H; destruct H as (y2 & H2 & H);
       rewrite H1, H2; cbn [outcome_bind]; now rewrite <- Hk
     | apply outcome_bind_Ok in H; destruct H as (y1 & H1 & H);
       apply outcome_bind_Ok in H; destruct H as (y2 & H2 & H);
       rewrite H1, H2; cbn [outcome_bind]; now rewrite Hk ]).
Qed.

(** The 'Random' branch with [values=None], step by step. *)
Lemma random_run (constraints : option ndarray) (mode : string) (w : world num)
    (Xsamples fvals xmax : ndarray) (fmax : num) :
  sample_design mvo (self w) 10000%N "halton" = Ok Xsamples ->
  acquire mvo (self w) constraints mode Xsamples = Ok fvals ->
  best_sample fvals Xsamples = Ok (fmax, xmax) ->
  EIMmixedoptimiser mvo lib constraints "Random" true mode w
  = (Ok (PyTuple [PyFloat fmax; PyArray xmax]), w).
Proof.
  intros H1 H2 H3. unfold EIMmixedoptimiser.
  change (String.eqb "Random" "Random") with true. cbv iota.
  unfold bind at 1. unfold call at 1. rewrite H1.
  unfold bind at 1. rewrite acquisition_run, H2.
  unfold bind at 1. unfold lift. rewrite H3. reflexivity.
Qed.

End Facts.

Section Reals.

Variables Phi phi : R -> R.

Abbreviation rnum := (real_numeric Phi phi).

Lemma product_unit (l : list R) (e : R) :
  Forall (fun a => 0 <= a <= 1)%R l -> (0 <= e <= 1)%R ->
  (0 <= fold_left Rmult l e <= 1)%R.
Proof.
  intros H; revert e; induction H as [|a l Ha _ IH]; intros e He; simpl.
  - exact He.
  - apply IH. split; [apply Rmult_le_pos; lra|].
    replace 1%R with (1 * 1)%R by lra. apply Rmult_le_compat; lra.
Qed.

Lemma PoF_unit (preds : list (Np.ndarray rnum * Np.ndarray rnum)) (i : nat) :
  distribution Phi phi -> (0 <= PoF_at preds i <= 1)%R.
Proof.
  intros D. unfold PoF_at. apply product_unit.
  - apply Forall_forall. intros a Ha. apply in_map_iff in Ha.
    destruct Ha as (p & <- & _). unfold feasible. apply (cdf_range D).
  - simpl. rewrite RMicromega.Q2R_1. lra.
Qed.

(** [np.argmax] over the entries seen so far: the position of the first
    largest one and that entry. *)
Lemma argmax_fold (l' pre : list R) (best : nat) (bx : R) :
  best < length pre -> bx = nth best pre 0%R ->
  (forall j, j < length pre -> (nth j pre 0 <= bx)%R) ->
  (forall j, j < best -> (nth j pre 0 < bx)%R) ->
  let r := fold_left (fun '(best, bx, k) y =>
                        if f_isnan rnum bx then (best, bx, S k)
                        else if f_isnan rnum y || f_ltb rnum bx y then (k, y, S k)
                        else (best, bx, S k))
                     l' (best, bx, length pre) in
  fst (fst r) < length (pre ++ l')
  /\ snd (fst r) = nth (fst (fst r)) (pre ++ l') 0%R
  /\ (forall j, j < length (pre ++ l') -> (nth j (pre ++ l') 0 <= snd (fst r))%R)
  /\ (forall j, j < fst (fst r) -> (nth j (pre ++ l') 0 < snd (fst r))%R).
Proof.
  revert pre best bx; induction l' as [|y l' IH]; intros pre best bx Hb Hx Hle Hlt.
  - cbn [fold_left fst snd]. rewrite app_nil_r. auto.
  - cbn [fold_left]. replace (pre ++ y :: l') with ((pre ++ [y]) ++ l')
      by now rewrite <- app_assoc.
    assert (Ln : length (pre ++ [y]) = S (length pre))
      by (rewrite length_app; simpl; lia).
    cbn [f_ltb f_isnan real_numeric orb]. destruct (Rlt_dec bx y) as [Hy | Hy]; rewrite <- Ln.
    + apply IH.
      * lia.
      * rewrite app_nth2, Nat.sub_diag by lia. reflexivity.
      * intros j Hj. destruct (Nat.eq_dec j (length pre)) as [-> | Hne].
        -- rewrite app_nth2, Nat.sub_diag by lia. simpl. lra.
        -- rewrite app_nth1 by lia. specialize (Hle j ltac:(lia)). lra.
      * intros j Hj. rewrite app_nth1 by lia. specialize (Hle j Hj). lra.
    + apply IH.
      * lia.
      * rewrite app_nth1 by lia. exact Hx.
      * intros j Hj. destruct (Nat.eq_dec j (length pre)) as [-> | Hne].
        -- rewrite app_nth2, Nat.sub_diag by lia. simpl. lra.
        -- rewrite app_nth1 by lia. apply Hle. lia.
      * intros j Hj. rewrite app_nth1 by lia. now apply Hlt.
Qed.

Lemma argmax_list_first_largest (l : list R) (i : nat) :
  Np.argmax_list rnum l = Ok i ->
  i < length l
  /\ (forall j, j < length l -> (nth j l 0 <= nth i l 0)%R)
  /\ (forall j, j < i -> (nth j l 0 < nth i l 0)%R).
Proof.
  destruct l as [|x l']; [discriminate|]. unfold Np.argmax_list. intros [= <-].
  destruct (@argmax_fold l' [x] 0 x) as (H1 & H2 & H3 & H4).
  - simpl. lia.
  - reflexivity.
  - intros j Hj. simpl in Hj. assert (j = 0) as -> by lia. simpl. lra.
  - intros j Hj. lia.
  - cbv zeta in H1, H2, H3, H4. rewrite H2 in H3, H4.
    cbn [length app] in *. auto.
Qed.

(** The first position of a largest entry is what [np.argmax] returns. *)
Lemma argmax_list_unique (l : list R) (i : nat) :
  i < length l ->
  (forall j, j < length l -> (nth j l 0 <= nth i l 0)%R) ->
  (forall j, j < i -> (nth j l 0 < nth i l 0)%R) ->
  Np.argmax_list rnum l = Ok i.
Proof.
  intros Hi Hle Hlt.
  destruct (Np.argmax_list rnum l) as [i' | e] eqn:E;
    [|destruct l; [simpl in Hi; lia | discriminate E]].
  destruct (argmax_list_first_largest l E) as (Hi' & Hle' & Hlt').
  f_equal. destruct (Nat.lt_trichotomy i i') as [H | [H | H]]; [|auto|].
  - specialize (Hlt' i H). specialize (Hle i' Hi'). lra.
  - specialize (Hlt i' H). specialize (Hle' i Hi). lra.
Qed.

Lemma best_sample_first_largest (fvals Xsamples xmax : Np.ndarray rnum) (fmax : R) :
  best_sample fvals Xsamples = Ok (fmax, xmax) ->
  exists i, i < Np.size fvals
            /\ Np.item Xsamples i = Ok xmax
            /\ fmax = nth i (Np.to_list fvals) 0%R
            /\ (forall j, j < Np.size fvals -> (nth j (Np.to_list fvals) 0 <= fmax)%R)
            /\ (forall j, j < i -> (nth j (Np.to_list fvals) 0 < fmax)%R).
Proof.
  intros H. unfold best_sample in H.
  apply outcome_bind_Ok in H. destruct H as (fm & Hf & H).
  apply outcome_bind_Ok in H. destruct H as (i & Hi & H).
  apply outcome_bind_Ok in H. destruct H as (xm & Hx & H).
  injection H as -> ->.
  unfold Np.amax in Hf. rewrite Hi in Hf. cbn [outcome_bind] in Hf. injection Hf as <-.
  unfold Np.argmax in Hi. apply argmax_list_first_largest in Hi.
  assert (L : @length R (Np.to_list fvals) = Np.size fvals)
    by (unfold Np.to_list; now rewrite length_map, length_seq).
  rewrite L in Hi. destruct Hi as (H1 & H2 & H3).
  exists i. repeat split; auto.
Qed.

End Reals.

End AcquisitionFacts.

Section AcquisitionProperties.
Import Optimiser OptimiserSpec OptimiserFacts ControllerFacts ShapeFacts AcquisitionFacts.
Import ParetoOrder.

Variable num : Numeric.
Variable mvo : MVO num.
Variable lib : Library num.

(** [paretofront] on an [n] by [m] array returns the selected rows of [Y] in
    their order: an array of [k] rows and [m] columns, with [k] at most [n]
    and at least 1 when there is a row, whose row [a] is row [ind[a]] of [Y]
    for the strictly increasing indices [ind] of [is_pareto_efficient]. *)
Theorem paretofront_rows (Y : Np.ndarray num) (n m : nat) :
  Np.shape Y = [n; m] ->
  exists F,
    Optimiser.paretofront Y = Ok F
    /\ let ind := Pareto.efficient_indices (f_ltb num) (Np.rows Y) in
       Np.shape F = [length ind; m]
       /\ length ind <= n
       /\ (0 < n -> 0 < length ind)
       /\ StronglySorted lt ind
       /\ forall a b, a < length ind -> b < m ->
            nth a ind 0 < n /\ Np.at_ F [a; b] = Np.at_ Y [nth a ind 0; b].
Proof.
  intros HY. unfold Optimiser.paretofront. rewrite HY. eexists. split; [reflexivity|].
  cbv zeta.
  assert (L : length (Np.rows Y) = n).
  { unfold Np.rows. rewrite length_map, length_seq, HY. reflexivity. }
  set (ind := Pareto.efficient_indices (f_ltb num) (Np.rows Y)).
  assert (Hlen : length (Pareto.paretofront (f_ltb num) (Np.rows Y)) = length ind).
  { unfold Pareto.paretofront. now rewrite length_map. }
  split; [|split; [|split; [|split]]].
  - cbn [Np.of_rows Np.shape]. now rewrite Hlen.
  - rewrite <- L. apply indices_length.
  - intros Hn. destruct ind as [|i ind'] eqn:E; [|simpl; lia].
    apply indices_nil in E. rewrite E in L. simpl in L. lia.
  - apply indices_sorted.
  - intros a b Ha Hb.
    assert (Hi : nth a ind 0 < n).
    { rewrite <- L. apply indices_bounded with (ltb := f_ltb num). now apply nth_In. }
    split; [exact Hi|].
    cbn [Np.of_rows Np.at_ nth]. unfold Pareto.paretofront. fold ind.
    rewrite (nth_indep _ [] (nth (nth 0 ind 0) (Np.rows Y) []))
      by now rewrite length_map.
    rewrite (nth_indep (map _ ind) _ ((fun i => nth i (Np.rows Y) []) 0))
      by now rewrite length_map.
    rewrite (map_nth (fun i => nth i (Np.rows Y) [])).
    unfold Np.rows. rewrite HY. cbn [nth].
    rewrite (nth_indep _ [] ((fun i => map (fun j => Np.at_ Y [i; j]) (seq 0 m)) 0))
      by now rewrite length_map, length_seq.
    rewrite (map_nth (fun i => map (fun j => Np.at_ Y [i; j]) (seq 0 m))).
    rewrite seq_nth by exact Hi.
    rewrite (nth_indep _ (f_nan num) ((fun j => Np.at_ Y [0 + nth a ind 0; j]) 0))
      by now rewrite length_map, length_seq.
    rewrite (map_nth (fun j => Np.at_ Y [0 + nth a ind 0; j])).
    rewrite seq_nth by exact Hb. reflexivity.
Qed.

(** Every acquisition function returns one row per candidate: [EIM] a column
    in the modes 'euclidean', 'hypervolume', 'maxmin' and 'combine' and two
    columns under every other mode name; [AEIM_Hypervolume] and
    [AEIM_Euclidean] a column. *)
Theorem acquisition_shapes (me : MVMOO num) (X : Np.ndarray num) (nx : nat) :
  nth_error (Np.shape X) 0 = Some nx ->
  (forall mode y, EIM mvo me X mode = Ok y ->
                  Np.shape y = [nx; if single_criterion mode then 1 else 2])
  /\ (forall y, AEIM_Hypervolume me X = Ok y -> Np.shape y = [nx; 1])
  /\ (forall y, AEIM_Euclidean mvo me X = Ok y -> Np.shape y = [nx; 1]).
Proof.
  intros HX. split.
  - intros mode y. now apply EIM_shape.
  - now apply AEIM_shape.
Qed.

(** The mode 'combine' adds the scores of the modes 'euclidean' and
    'hypervolume' and every mode name that [EIM] does not know, 'all' among
    them, puts the two side by side; each returns exactly when both of them do
    (and the sum or the join is defined). *)
Theorem EIM_combines_two_scores (me : MVMOO num) (X : Np.ndarray num) :
  (forall y,
     EIM mvo me X "combine" = Ok y
     <-> exists y1 y2, EIM mvo me X "euclidean" = Ok y1
                       /\ EIM mvo me X "hypervolume" = Ok y2
                       /\ Np.add y1 y2 = Ok y)
  /\ (forall mode y,
        single_criterion mode = false ->
        (EIM mvo me X mode = Ok y
         <-> exists y1 y2, EIM mvo me X "euclidean" = Ok y1
                           /\ EIM mvo me X "hypervolume" = Ok y2
                           /\ Np.concatenate_axis1 [y1; y2] = Ok y)).
Proof.
  split.
  - intros y. now apply EIM_two_scores.
  - intros mode y H. unfold single_criterion in H.
    apply orb_false_iff in H. destruct H as [H M4].
    apply orb_false_iff in H. destruct H as [H M3].
    apply orb_false_iff in H. destruct H as [M1 M2].
    apply EIM_two_scores; auto. intros y1 y2. now rewrite M4.
Qed.

(** [xmax[:-0]], flattened, has no entry. *)
Lemma empty_start (xmax x0 : Np.ndarray num) :
  Np.slice_axis xmax 0 (fun _ => 0) (from_end 0) = Ok x0 ->
  Np.shape (Np.flatten x0) = [0].
Proof.
  unfold Np.slice_axis. destruct (0 <? Np.ndim xmax); [|discriminate].
  intros [= <-]. unfold Np.flatten, Np.size, from_end.
  cbn [Np.shape Nat.eqb firstn app Nat.min Nat.max Nat.sub Np.size_of fold_right Nat.mul].
  reflexivity.
Qed.

(** [list(self.bounds[:,:self.num_quant].T)] has one entry per continuous
    variable, as far as the bounds have columns. *)
Lemma continuous_bounds_length (me : MVMOO num) (r d : nat) (bnds : list (list num)) :
  Np.shape (bounds me) = [r; d] ->
  continuous_bounds me = Ok bnds ->
  length bnds = Nat.min (num_quant me) d.
Proof.
  intros Hb H. unfold continuous_bounds in H.
  apply outcome_bind_Ok in H. destruct H as (b & Hsl & Hrows).
  unfold Np.slice_axis, Np.ndim in Hsl. rewrite Hb in Hsl.
  cbn [length Nat.ltb Nat.leb nth firstn skipn app] in Hsl.
  injection Hsl as <-. injection Hrows as <-.
  unfold Np.rows, Np.transpose. cbn [Np.shape rev app nth].
  rewrite length_map, length_seq. lia.
Qed.

(** Without qualitative variables [AEIMmixedoptimiser] cannot refine in
    'Random Local' mode: [xmax[:-0]] is empty, so the local optimiser is
    started from a vector without entries against one bound per continuous
    variable. With two such variables or more, the call returns only if the
    optimiser accepts that; with an optimiser that checks its bounds against
    its start, as [scipy.optimize.minimize] does, it always ends in an
    exception. *)
Theorem AEIM_without_qualitative_variables (values_none : bool) (w : world num)
    (r d : nat) :
  num_qual (self w) = 0 -> 1 < num_quant (self w) ->
  Np.shape (bounds (self w)) = [r; d] -> 1 < d ->
  (forall v w',
     AEIMmixedoptimiser mvo lib None "Random Local" values_none w = (Ok v, w') ->
     exists objective x0 bnds result,
       minimize_SLSQP lib objective x0 bnds = Ok result
       /\ Np.shape x0 = [0]
       /\ length bnds = Nat.min (num_quant (self w)) d
       /\ 1 < length bnds
       /\ length bnds <> Np.size x0)
  /\ (checks_bounds lib ->
      exists e w',
        AEIMmixedoptimiser mvo lib None "Random Local" values_none w = (Raise e, w')).
Proof.
  intros Hq Hc Hb Hd.
  assert (A : forall v w',
             AEIMmixedoptimiser mvo lib None "Random Local" values_none w = (Ok v, w') ->
             exists objective x0 bnds result,
               minimize_SLSQP lib objective x0 bnds = Ok result
               /\ Np.shape x0 = [0]
               /\ length bnds = Nat.min (num_quant (self w)) d
               /\ 1 < length bnds
               /\ length bnds <> Np.size x0).
  { intros v w' H. unfold AEIMmixedoptimiser in H.
    step_in H.
    change (String.eqb "Random Local" "Random") with false in H.
    change (String.eqb "Random Local" "Random Local") with true in H. cbv iota in H.
    step_in H. step_in H. step_in H. step_in H. step_in H. step_in H.
    clear H.
    unfold estimate_contextual in E.
    step_in E. step_in E. step_in E. step_in E. step_in E. step_in E.
    unfold assign in E. injection E as <-.
    settle. subst w0. cbn [assigned self] in E4, E5.
    change (num_qual (set_contextual _ (self w))) with (num_qual (self w)) in E5.
    rewrite Hq in E5.
    apply outcome_bind_Ok in E5. destruct E5 as (x0 & Hx0 & Hmin).
    pose proof (empty_start _ Hx0) as S0.
    assert (L : length a4 = Nat.min (num_quant (self w)) d).
    { exact (@continuous_bounds_length _ r d a4 Hb E4). }
    eexists _, _, _, a5. split; [exact Hmin|].
    split; [exact S0|]. split; [exact L|].
    rewrite L. unfold Np.size. rewrite S0. cbn. lia. }
  split; [exact A|].
  intros C.
  destruct (AEIMmixedoptimiser mvo lib None "Random Local" values_none w)
    as [[v | e] w'] eqn:H; [exfalso | eauto].
  destruct (A v w' eq_refl) as (objective & x0 & bnds & result & Hmin & _ & _ & H1 & Hne).
  destruct (C objective x0 bnds H1 Hne) as (e & He). congruence.
Qed.

End AcquisitionProperties.

Section RealProperties.
Import Optimiser OptimiserSpec OptimiserFacts ControllerFacts ShapeFacts AcquisitionFacts.

Variables Phi phi : R -> R.

Abbreviation rnum := (real_numeric Phi phi).

Variable mvo : MVO rnum.
Variable lib : Library rnum.

(** The weight that [CEIM_Hypervolume] puts on a candidate is a probability:
    where the objective and the constraint models answer with a positive
    [sigma], it lies between 0 and 1, so the constrained value has the sign
    of the hypervolume improvement and is no larger in size. *)
Theorem feasibility_weight_is_a_probability (me : MVMOO rnum) (X y : Np.ndarray rnum)
    (n : nat) (cm : list (Model rnum)) (preds : list (Np.ndarray rnum * Np.ndarray rnum)) :
  distribution Phi phi ->
  nth_error (Np.shape X) 0 = Some n ->
  hypervolume_improvement me X = Ok y ->
  constrainedmodels me = Some (Some cm) -> cm <> [] ->
  Forall2 (posterior X n) cm preds ->
  exists out,
    CEIM_Hypervolume me X = Ok out
    /\ forall i, i < n -> objective_spread me X i -> positive_spread preds i ->
         (0 <= PoF_at preds i <= 1)%R
         /\ Np.entry out i = (Np.entry y i * PoF_at preds i)%R
         /\ (Rabs (Np.entry out i) <= Rabs (Np.entry y i))%R
         /\ (0 <= Np.entry y i -> 0 <= Np.entry out i)%R
         /\ (Np.entry y i <= 0 -> Np.entry out i <= 0)%R.
Proof.
  intros D Hn Hy Hc Hne Hp.
  destruct (CEIM_entries me Hn Hy Hc Hne Hp) as (out & Eo & _ & Vo).
  exists out. split; [exact Eo|]. intros i Hi _ _.
  pose proof (PoF_unit preds i D) as [P0 P1].
  unfold Np.entry. rewrite (Vo i Hi). cbn [f_mul real_numeric].
  split; [auto|]. split; [reflexivity|]. split; [|split].
  - rewrite Rabs_mult, (Rabs_pos_eq (PoF_at preds i)) by exact P0.
    rewrite <- (Rmult_1_r (Rabs (Np.at_ y [i; 0]))) at 2.
    apply Rmult_le_compat_l; [apply Rabs_pos | exact P1].
  - intros H. now apply Rmult_le_pos.
  - intros H. replace 0%R with (0 * PoF_at preds i)%R by lra.
    now apply Rmult_le_compat_r.
Qed.

(** In 'Random' mode the optimiser answers with the best of its samples:
    with models that answer with positive variances, so that no value is
    NaN, the value it returns is the largest acquisition value over the
    samples, with its own sign, and the point is the first sample that
    reaches it; the method assigns no attribute and prints nothing. *)
Theorem random_returns_the_best_sample (constraints : option (Np.ndarray rnum))
    (mode : string) (w w' : world rnum) (fmax : R) (xmax : Np.ndarray rnum) :
  positive_variances (self w) ->
  EIMmixedoptimiser mvo lib constraints "Random" true mode w
  = (Ok (PyTuple [@PyFloat rnum fmax; PyArray xmax]), w') ->
  w' = w
  /\ exists Xsamples fvals i,
       sample_design mvo (self w) 10000%N "halton" = Ok Xsamples
       /\ acquire mvo (self w) constraints mode Xsamples = Ok fvals
       /\ i < Np.size fvals
       /\ Np.item Xsamples i = Ok xmax
       /\ fmax = nth i (Np.to_list fvals) 0%R
       /\ (forall j, j < Np.size fvals -> (nth j (Np.to_list fvals) 0 <= fmax)%R)
       /\ (forall j, j < i -> (nth j (Np.to_list fvals) 0 < fmax)%R).
Proof.
  intros _ H. unfold EIMmixedoptimiser in H.
  change (String.eqb "Random" "Random") with true in H. cbv iota in H.
  step_in H. step_in H. step_in H.
  unfold call in E. injection E as E <-.
  rewrite acquisition_run in E0. injection E0 as E0 <-.
  unfold lift in E1. injection E1 as E1 <-.
  unfold ret in H. injection H as Hf Hx <-.
  split; [reflexivity|].
  destruct a1 as [fm xm]. simpl in Hf, Hx. subst fm xm.
  destruct (@best_sample_first_largest Phi phi _ _ _ _ E1) as (i & H1 & H2 & H3 & H4 & H5).
  exists a, a0, i. auto 10.
Qed.

End RealProperties.

(** ** The properties above on the small optimiser *)

Section FurtherWitnesses.
Import Optimiser OptimiserSpec OptimiserFacts ControllerFacts UniformSample.

Ltac run :=
  cbv -[Rplus Rminus Rmult Rdiv Ropp Rinv R_sqrt.sqrt Rmax Rmin Q2R IZR
        uniform_cdf uniform_pdf Rle Rlt Rlt_dec Rle_dec].

Lemma pareto_rescaling_witness :
  Pareto.is_pareto_efficient Qltb
    (map (columnwise (fun (k : nat) (a : Q) => (a + 1)%Q)) [[1; 2]; [2; 1]; [2; 2]]%Q) true
  = Pareto.is_pareto_efficient Qltb [[1; 2]; [2; 1]; [2; 2]]%Q true.
Proof.
  apply (@pareto_rescaling Q Q Qltb Qltb (fun (k : nat) (a : Q) => (a + 1)%Q)).
  intros k a b. destruct (Qltb a b) eqn:E.
  - apply Qltb_true. apply Qltb_true in E. now apply Qplus_lt_l.
  - apply Qltb_false. apply Qltb_false in E. now apply Qplus_le_l.
Defined.

Lemma refinement_discarded_with_values_witness :
  exists v,
    EIMmixedoptimiser mvo lib None "Random" false "euclidean" (start two_objective)
    = (Ok v, start two_objective).
Proof.
  eexists.
  apply (@refinement_discarded_with_values num mvo lib None "euclidean").
  - discriminate.
  - run. reflexivity.
Defined.

Lemma acquisition_needs_a_model_per_objective_witness :
  exists e, EIM mvo (optimiser origin [constant_model 0 1] []) origin "euclidean" = Raise e.
Proof.
  refine (proj1 (@acquisition_needs_a_model_per_objective num mvo
                   (optimiser origin [constant_model 0 1] []) origin origin 2
                   [constant_model 0 1] eq_refl eq_refl eq_refl _) "euclidean"%string).
  simpl. lia.
Defined.

Lemma CEIM_needs_a_constraint_model_witness :
  CEIM_Hypervolume (optimiser origin [constant_model 0 1; constant_model 0 1] []) origin
  = Raise ValueError.
Proof.
  eapply (@CEIM_needs_a_constraint_model num
            (optimiser origin [constant_model 0 1; constant_model 0 1] []) origin).
  - run. reflexivity.
  - reflexivity.
Defined.

Lemma paretofront_rows_witness :
  exists F, Optimiser.paretofront (matrix 2 [[1; 2]; [2; 1]]%R) = Ok F
            /\ Np.shape F
               = [length (Pareto.efficient_indices (f_ltb num)
                            (Np.rows (matrix 2 [[1; 2]; [2; 1]]%R))); 2].
Proof.
  destruct (@paretofront_rows num (matrix 2 [[1; 2]; [2; 1]]%R) 2 2 eq_refl)
    as (F & E & S & _).
  exists F. split; [exact E | exact S].
Defined.

Lemma acquisition_shapes_witness :
  exists y, EIM mvo two_objective origin "all" = Ok y /\ Np.shape y = [1; 2].
Proof.
  eexists. split; [run; reflexivity|].
  apply (proj1 (@acquisition_shapes num mvo two_objective origin 1 eq_refl) "all"%string).
  run. reflexivity.
Defined.

Lemma feasibility_weight_is_a_probability_witness :
  exists out,
    CEIM_Hypervolume two_objective origin = Ok out
    /\ (Rabs (Np.entry out 0) <= 49 / 80)%R.
Proof.
  destruct sample_improvement as (y & Hy & Vy).
  destruct (@feasibility_weight_is_a_probability uniform_cdf uniform_pdf
              two_objective origin y 1 [constant_model 0 1] [(column 1 0, column 1 1)]
              uniform_distribution eq_refl Hy eq_refl ltac:(discriminate)
              (Forall2_cons _ _ (column_posterior 0 1) (Forall2_nil _)))
    as (out & Eo & V).
  exists out. split; [exact Eo|].
  destruct (V 0 (Nat.lt_0_succ 0) sample_objective_spread (@column_spread 0%R))
    as (_ & _ & Ha & _).
  rewrite Vy in Ha. rewrite (Rabs_pos_eq (49 / 80)) in Ha by lra. exact Ha.
Defined.

(** *** Three samples, the last two equally good *)

Ltac real_values :=
  rewrite ?unit_spread, ?reference_value, ?RMicromega.Q2R_0, ?RMicromega.Q2R_1;
  repeat match goal with
         | |- context [uniform_cdf ?z] =>
             rewrite (@uniform_cdf_value z) by lra
         | |- context [uniform_pdf ?z] =>
             rewrite (@uniform_pdf_value z) by lra
         end.

(** The hypervolume score is 49/80 at the first sample and 16/5 at the
    other two. *)
Lemma three_point_values :
  exists fvals,
    EIM three_point_mvo sloped three_points "hypervolume" = Ok fvals
    /\ Np.size fvals = 3
    /\ Np.to_list fvals = [nth 0 (Np.to_list fvals) 0%R; nth 1 (Np.to_list fvals) 0%R;
                           nth 2 (Np.to_list fvals) 0%R]
    /\ nth 0 (Np.to_list fvals) 0%R = (49 / 80)%R
    /\ nth 1 (Np.to_list fvals) 0%R = (16 / 5)%R
    /\ nth 2 (Np.to_list fvals) 0%R = (16 / 5)%R.
Proof.
  eexists. split; [run; reflexivity|].
  split; [reflexivity|]. split; [reflexivity|].
  repeat split; run; real_values; lra.
Qed.

Lemma sloped_variances : positive_variances sloped.
Proof.
  intros k m X p i [Hm | Hm] Hp Hi.
  - destruct k as [|[|k]]; [| |destruct k; discriminate Hm];
      injection Hm as <-; injection Hp as <-;
      unfold sigma; simpl; rewrite unit_spread; lra.
  - destruct k as [|k]; [|destruct k; discriminate Hm].
    injection Hm as <-. injection Hp as <-.
    unfold sigma. simpl. rewrite unit_spread. lra.
Qed.

(** Of three samples scoring 49/80, 16/5 and 16/5 the second is returned:
    the first of the two best. *)
Lemma random_returns_the_best_sample_witness :
  exists fmax xmax i,
    EIMmixedoptimiser three_point_mvo lib None "Random" true "hypervolume" (start sloped)
    = (Ok (PyTuple [@PyFloat num fmax; PyArray xmax]), start sloped)
    /\ Np.item three_points i = Ok xmax
    /\ i = 1
    /\ fmax = (16 / 5)%R.
Proof.
  destruct three_point_values as (fvals & Ef & Sf & Lf & V0 & V1 & V2).
  cbn [F real_numeric] in Lf, V0, V1, V2.
  assert (A : Np.argmax fvals = Ok 1).
  { unfold Np.argmax. apply AcquisitionFacts.argmax_list_unique.
    - rewrite Lf. simpl. lia.
    - intros j Hj. rewrite Lf in Hj. simpl in Hj.
      destruct j as [|[|[|j]]]; [| | |lia]; rewrite ?V0, ?V1, ?V2; lra.
    - intros j Hj. assert (j = 0) as -> by lia. rewrite V0, V1. lra. }
  assert (B : exists xmax,
             best_sample fvals three_points = Ok (nth 1 (Np.to_list fvals) 0%R, xmax)).
  { unfold best_sample, Np.amax. rewrite A. cbn [outcome_bind].
    eexists. reflexivity. }
  destruct B as (xmax & B).
  pose proof (@AcquisitionFacts.random_run num three_point_mvo lib None "hypervolume" (start sloped)
                three_points fvals xmax _ eq_refl Ef B) as H.
  destruct (@random_returns_the_best_sample uniform_cdf uniform_pdf three_point_mvo lib
              None "hypervolume" (start sloped) _ _ _ sloped_variances H)
    as (_ & Xs & fv & i & H1 & H2 & H3 & H4 & H5 & H6 & H7).
  injection H1 as <-. simpl in H2. rewrite Ef in H2. injection H2 as <-.
  exists (nth 1 (Np.to_list fvals) 0%R), xmax, i.
  split; [exact H|]. split; [exact H4|]. split; [|exact V1].
  rewrite Sf in H3, H6. cbn [F real_numeric] in H5, H6, H7.
  destruct i as [|[|[|i]]]; [| reflexivity | |lia]; exfalso.
  - rewrite V0, V1 in H5. lra.
  - specialize (H7 1 ltac:(lia)). lra.
Defined.

Lemma checked_lib_checks : checks_bounds checked_lib.
Proof.
  intros f x0 bnds _ H. exists ValueError.
  apply Nat.eqb_neq in H. cbn [minimize_SLSQP Sample.checked_lib].
  now rewrite H.
Qed.

(** Two continuous variables and no qualitative one, with an optimiser that
    checks its bounds. *)
Lemma AEIM_without_qualitative_variables_witness :
  exists e w',
    AEIMmixedoptimiser mvo checked_lib None "Random Local" true (start continuous)
    = (Raise e, w').
Proof.
  refine (proj2 (@AEIM_without_qualitative_variables num mvo checked_lib true
                   (start continuous) 2 2 eq_refl _ eq_refl _) checked_lib_checks);
    simpl; lia.
Defined.

End FurtherWitnesses.
